(** * Service-name discovery of the [systemctl] package

    A shallow embedding of the smart service-name resolver
    (backend/utils/systemctl): naming normalisation, best-match selection,
    the existence and discovery caches, the alias table and its persistence,
    the per-manager status parsers, enumerations and command builders, the
    manager registry and the public facade; with it the supervisor helpers
    of app/service/host_tool.go and the roll-back path of cmd/restore.go.

    Conventions.
    - A Go [(T, error)] result is a pair [(T * option error)]; [None] is [nil].
    - Process-wide variables ([serviceAliases], the two caches, [aliasFile],
      [saveTimer]) are fields of one explicit [State]; every function that
      touches them takes and returns the state.
    - Everything outside the process (the init system answering probes, the
      enumeration tool, the command executor, the disk) is a [Host] record of
      oracles; [time.Now()] is the [now] field of the state and advances by the
      latency the host reports for each external call.
    - Go strings are modelled as [string] (one [ascii] per byte).  The
      functions of package [strings] that compare or search bytes
      ([Contains], [HasSuffix], [TrimSuffix], [Split]) are exact; those that
      decode UTF-8 in Go ([ToLower], [EqualFold], [Fields], [TrimSpace]) are
      modelled as Go computes them on ASCII strings, and a theorem that
      depends on the difference takes its strings to be ASCII ([isASCII]). *)

From Stdlib Require Import String Ascii List ZArith Lia Bool.
From Stdlib Require Import DecimalString DecimalPos.
From stdpp Require Import base strings gmap list option.

(** ** Package [strings] of the Go library (ASCII model) *)

Module GoStrings.

Definition isUpper (c : ascii) : bool :=
  Nat.leb 65 (nat_of_ascii c) && Nat.leb (nat_of_ascii c) 90.

Definition toLowerByte (c : ascii) : ascii :=
  if isUpper c then ascii_of_nat (nat_of_ascii c + 32) else c.

(** strings.ToLower *)
Fixpoint ToLower (s : string) : string :=
  match s with
  | EmptyString => EmptyString
  | String c s' => String (toLowerByte c) (ToLower s')
  end.

(** One step of the ASCII loop of strings.EqualFold: the bytes are equal,
    or the smaller one is an upper-case letter and the larger one is the
    same letter in lower case. *)
Definition foldEq (sr tr : ascii) : bool :=
  if Ascii.eqb tr sr then true
  else
    let lo := Nat.min (nat_of_ascii sr) (nat_of_ascii tr) in
    let hi := Nat.max (nat_of_ascii sr) (nat_of_ascii tr) in
    Nat.leb 65 lo && Nat.leb lo 90 && Nat.eqb hi (lo + 32).

(** strings.EqualFold *)
Fixpoint EqualFold (s t : string) : bool :=
  match s, t with
  | EmptyString, EmptyString => true
  | String a s', String b t' => foldEq a b && EqualFold s' t'
  | _, _ => false
  end.

(** strings.HasPrefix *)
Definition HasPrefix (s pre : string) : bool := String.prefix pre s.

(** strings.Contains *)
Fixpoint Contains (s substr : string) : bool :=
  HasPrefix s substr ||
  match s with
  | EmptyString => false
  | String _ s' => Contains s' substr
  end.

(** strings.CutSuffix: the part of [s] before a trailing [suffix]. *)
Fixpoint CutSuffix (s suffix : string) : option string :=
  if String.eqb s suffix then Some EmptyString
  else
    match s with
    | EmptyString => None
    | String c s' =>
        match CutSuffix s' suffix with
        | Some before => Some (String c before)
        | None => None
        end
    end.

(** strings.HasSuffix *)
Definition HasSuffix (s suffix : string) : bool :=
  match CutSuffix s suffix with Some _ => true | None => false end.

(** strings.TrimSuffix *)
Definition TrimSuffix (s suffix : string) : string :=
  match CutSuffix s suffix with Some before => before | None => s end.

(** The ASCII white space of unicode.IsSpace: tab, line feed, vertical
    tab, form feed, carriage return and space. *)
Definition isSpace (c : ascii) : bool :=
  let n := nat_of_ascii c in
  (Nat.leb 9 n && Nat.leb n 13) || Nat.eqb n 32.

Fixpoint TrimLeft (s : string) : string :=
  match s with
  | EmptyString => EmptyString
  | String c s' => if isSpace c then TrimLeft s' else s
  end.

Fixpoint TrimRight (s : string) : string :=
  match s with
  | EmptyString => EmptyString
  | String c s' =>
      match TrimRight s' with
      | EmptyString => if isSpace c then EmptyString else String c EmptyString
      | rest => String c rest
      end
  end.

(** strings.TrimSpace *)
Definition TrimSpace (s : string) : string := TrimRight (TrimLeft s).

End GoStrings.

Import GoStrings.

(** ** Errors *)

(** The error values the package builds.  A constructor stands for one
    [errors.New] or one [fmt.Errorf] site; wrapped errors are kept as
    arguments. *)
Inductive error : Type :=
  | ErrServiceNotFound
      (* errors.New("service not found") *)
  | ErrDiscoveryTimeout (candidate : string)
      (* fmt.Errorf(ErrDiscoveryTimeout.Error(), candidates[0]) *)
  | ErrServiceDiscovery (keyword : string) (cause : error)
      (* fmt.Errorf("%w: %q (%v)", ErrServiceDiscovery, keyword, err) *)
  | ErrNoValidService (keyword : string)
      (* fmt.Errorf("%w: %q (no exact or partial match)", ...) *)
  | ErrCheckExistence (cause : error)
      (* "check service existence failed: %w" *)
  | ErrExistenceCheck (cause : error)
      (* "service existence check failed: %w" *)
  | ErrUnsupportedStatusType (statusType : string)
      (* "unsupported status type: %s" *)
  | ErrBuildCommand (cause : error)
      (* "build command failed: %w" *)
  | ErrOperation (action : string) (cause : error)
      (* "%s operation failed: %w" *)
  | ErrCommand (cmd : list string) (output : string)
      (* &CommandError{Cmd, Output, Err} *)
  | ErrIsNotExist (serviceName : string)
      (* "%s is not exist" *)
  | ErrFacade (action : string) (cause : error) (output : string)
      (* "start failed: %v | Output: %s" and its siblings *)
  | ErrEnableFailed (serviceName : string) (cause : error)
      (* "%s enable failed: %v " *)
  | ErrHost (msg : string).
      (* an error of the operating system or of an external tool *)

(** ** Best-match selection and naming normalisation *)

(** The slice helper [contains]. *)
Fixpoint contains (slice : list string) (item : string) : bool :=
  match slice with
  | [] => false
  | s :: rest => if String.eqb s item then true else contains rest item
  end.

(** First loop of [selectBestMatch]: [exactMatch] keeps its initial value
    unless some name folds to the keyword, and the loop breaks there. *)
Fixpoint exactLoop (keyword : string) (candidates : list string)
    (exactMatch : string) : string :=
  match candidates with
  | [] => exactMatch
  | name :: rest =>
      if EqualFold name keyword then name
      else exactLoop keyword rest exactMatch
  end.

(** Second loop of [selectBestMatch]. *)
Fixpoint containLoop (lowerKeyword : string) (candidates : list string)
    (firstContainMatch : string) : string :=
  match candidates with
  | [] => firstContainMatch
  | name :: rest =>
      if Contains (ToLower name) lowerKeyword then name
      else containLoop lowerKeyword rest firstContainMatch
  end.

Definition selectBestMatch (keyword : string) (candidates : list string)
    : string * option error :=
  if Nat.eqb (length candidates) 0 then (EmptyString, Some ErrServiceNotFound)
  else
    let lowerKeyword := ToLower keyword in
    let exactMatch := exactLoop keyword candidates EmptyString in
    if negb (String.eqb exactMatch EmptyString) then (exactMatch, None)
    else
      let firstContainMatch := containLoop lowerKeyword candidates EmptyString in
      if negb (String.eqb firstContainMatch EmptyString)
      then (firstContainMatch, None)
      else (EmptyString, Some (ErrNoValidService keyword)).

(** The part of the [ServiceManager] interface the resolver and the facade
    use: the manager's name, its existence check for one unit name (the
    [checkFn] handed to [commonServiceExists]), its enumeration primitive
    and its command builder. *)
Record ServiceManager : Type := {
  Name : string;
  checkFn : string -> bool * option error;
  FindServices : string -> list string * option error;
  BuildCommand : string -> gmap string string -> list string * option error
}.

Definition handleServiceNaming (mgr : ServiceManager) (keyword : string)
    : string :=
  let keyword := ToLower keyword in
  let keyword :=
    if HasSuffix keyword ".service.socket"
    then TrimSuffix keyword ".service.socket" +:+ ".socket"
    else keyword in
  if negb (String.eqb (Name mgr) "systemd") then TrimSuffix keyword ".service"
  else if negb (HasSuffix keyword ".service") && negb (HasSuffix keyword ".socket")
       then keyword +:+ ".service"
       else keyword.

(** ** Status parsing of the three managers (managers.go) *)

Module Managers.

(** [baseManager]: the two compiled patterns are kept as their
    [MatchString] functions, [None] for a nil pattern. *)
Record baseManager : Type := {
  name : string;
  cmdTool : string;
  activeRegex : option (string -> bool);
  enabledRegex : option (string -> bool)
}.

Definition baseParseStatus (b : baseManager) (output : string)
    (statusType : string) : bool * option error :=
  if String.eqb output EmptyString then (false, None)
  else if String.eqb statusType "active" then
    match activeRegex b with
    | None => (false, None)
    | Some re => (re output, None)
    end
  else if String.eqb statusType "enabled" then
    match enabledRegex b with
    | None => (false, None)
    | Some re => (re output, None)
    end
  else (false, None).

(** The constructors take the matchers of the patterns they compile. *)
Definition newSystemdManager (activeRe enabledRe : string -> bool) : baseManager :=
  {| name := "systemd"; cmdTool := "systemctl";
     activeRegex := Some activeRe; enabledRegex := Some enabledRe |}.

Definition newSysvinitManager (activeRe enabledRe : string -> bool) : baseManager :=
  {| name := "sysvinit"; cmdTool := "service";
     activeRegex := Some activeRe; enabledRegex := Some enabledRe |}.

Definition newOpenrcManager (activeRe enabledRe : string -> bool) : baseManager :=
  {| name := "openrc"; cmdTool := "rc-service";
     activeRegex := Some activeRe; enabledRegex := Some enabledRe |}.

Definition systemdParseStatus (m : baseManager) (output : string)
    (statusType : string) : bool * option error :=
  if Contains output "could not be found" then (false, None)
  else
    let '(result, err) := baseParseStatus m output statusType in
    match err with
    | Some _ => (false, None)
    | None => (result, None)
    end.

Definition openrcParseStatus (m : baseManager) (output : string)
    (statusType : string) : bool * option error :=
  if Contains output "does not exist" then (false, None)
  else
    let '(result, err) := baseParseStatus m output statusType in
    match err with
    | Some _ => (false, None)
    | None => (result, None)
    end.

(** [sysvinitManager.ParseStatus].  In the "active" case the [switch]
    is left without a [return] when neither marker is in the output, and
    control reaches the final "unsupported status type" error. *)
Definition sysvinitParseStatus (m : baseManager) (output : string)
    (statusType : string) : bool * option error :=
  if String.eqb statusType "enabled" then
    if Contains output "no such file or directory" then (false, None)
    else (negb (String.eqb (TrimSpace output) EmptyString), None)
  else if String.eqb statusType "active" then
    if Contains output "not found" then (false, None)
    else if Contains output "running" || Contains output "active"
         then (true, None)
         else (false, Some (ErrUnsupportedStatusType statusType))
  else baseParseStatus m output statusType.

(** [buildBaseCommand]; [root] is [isRootUser()]. *)
Definition buildBaseCommand (b : baseManager) (root : bool) : list string :=
  (if root then [] else ["sudo"]) ++ [cmdTool b].

Definition systemdBuildCommand (b : baseManager) (root : bool)
    (action : string) (cfg : gmap string string)
    : list string * option error :=
  let service := default EmptyString (cfg !! name b) in
  if String.eqb action "is-enabled"
  then (buildBaseCommand b root ++ ["is-enabled"; service], None)
  else (buildBaseCommand b root ++ [action; service], None).

Definition sysvinitBuildCommand (b : baseManager) (root : bool)
    (action : string) (cfg : gmap string string)
    : list string * option error :=
  let service := default EmptyString (cfg !! name b) in
  if String.eqb action "is-enabled" then
    (["sh"; "-c";
      "if ls /etc/rc*.d/S*" +:+ service +:+
      " >/dev/null 2>&1; then echo 'enabled'; else echo 'disabled'; fi"],
     None)
  else if String.eqb action "is-active" then
    (["sh"; "-c";
      "if service " +:+ service +:+
      " status >/dev/null 2>&1; then echo 'active'; else echo 'inactive'; fi"],
     None)
  else (buildBaseCommand b root ++ [service; action], None).

Definition openrcBuildCommand (b : baseManager) (root : bool)
    (action : string) (cfg : gmap string string)
    : list string * option error :=
  let service := default EmptyString (cfg !! name b) in
  if String.eqb action "is-enabled"
  then (["rc-update"; "check"; service], None)
  else (buildBaseCommand b root ++ [service; action], None).

End Managers.

(** ** Process state and host *)

(** An error made by [fmt.Errorf] outside the resolver: its format, its
    string arguments and the error it wraps or prints, if any. *)
Inductive goError : Type :=
  | Plain (e : error)
  | Errorf (format : string) (args : list string)
  | Wrapf (format : string) (args : list string) (cause : goError).

Local Open Scope Z_scope.

(** Instants and durations are counted in nanoseconds, as [time.Duration]. *)
Definition Second : Z := 1000000000.
Definition Minute : Z := 60 * Second.

(** [cacheItem], shared by both caches. *)
Record cacheItem : Type := {
  services : list string;
  expires : Z;
  exists_ : bool
}.

(** What the goroutines of one candidate race leave behind: the pair the
    function returns, the existence cache as the finished probes wrote it,
    the time that went by and the probes that reached the init system. *)
Record RaceResult : Type := {
  raceName : string;
  raceErr : option error;
  raceCache : gmap string cacheItem;
  raceElapsed : N;
  raceProbes : list string
}.

(** The world outside the process. *)
Record Host : Type := {
  (* GetGlobalManager(), already initialised *)
  manager : ServiceManager;
  (* how long the existence probe of a name and the enumeration for a
     keyword take *)
  probeLatency : string -> N;
  findLatency : string -> N;
  (* constant.ResourceDir *)
  ResourceDir : string;
  (* executeCommand: argv to captured output and error *)
  executeCommand : list string -> string * option error;
  (* os.WriteFile on a path: None when the write succeeds, or the error
     with what the path is left holding (nothing, or the table that
     loading reads from a truncated text) *)
  writeFails : string -> option (error * option (gmap string (list string)));
  (* os.Rename from a path to another: the error, when it fails *)
  renameFails : string -> string -> option error;
  (* the table json.Unmarshal reads back from the text json.MarshalIndent
     writes for a table: the table itself when its strings are valid
     UTF-8, which the encoder otherwise replaces by U+FFFD *)
  jsonReadBack : gmap string (list string) -> gmap string (list string);
  (* the run of validateCandidatesConcurrently for these candidates at
     this time over this existence cache, as the scheduler makes it (see
     runRace for the runs the source allows) *)
  race : list string -> Z -> gmap string cacheItem -> RaceResult
}.

(** The package-level variables, the clock and the disk.  A file is kept as
    the table that [json.Unmarshal] reads from its text (for a table
    written by [json.MarshalIndent], the host's [jsonReadBack] of it);
    [probes] and [enumerations] record the external calls made, latest
    first. *)
Record State : Type := {
  now : Z;
  aliasFile : string;
  serviceAliases : gmap string (list string);
  saveTimer : option (gmap string (list string));
  discoveryCache : gmap string cacheItem;
  serviceExistenceCache : gmap string cacheItem;
  disk : gmap string (gmap string (list string));
  probes : list string;
  enumerations : list string
}.

Definition setAliases (t : gmap string (list string)) (s : State) : State :=
  {| now := now s; aliasFile := aliasFile s; serviceAliases := t;
     saveTimer := saveTimer s; discoveryCache := discoveryCache s;
     serviceExistenceCache := serviceExistenceCache s; disk := disk s;
     probes := probes s; enumerations := enumerations s |}.

Definition setExistenceCache (c : gmap string cacheItem) (s : State) : State :=
  {| now := now s; aliasFile := aliasFile s; serviceAliases := serviceAliases s;
     saveTimer := saveTimer s; discoveryCache := discoveryCache s;
     serviceExistenceCache := c; disk := disk s;
     probes := probes s; enumerations := enumerations s |}.

Definition setDiscoveryCache (c : gmap string cacheItem) (s : State) : State :=
  {| now := now s; aliasFile := aliasFile s; serviceAliases := serviceAliases s;
     saveTimer := saveTimer s; discoveryCache := c;
     serviceExistenceCache := serviceExistenceCache s; disk := disk s;
     probes := probes s; enumerations := enumerations s |}.

(** An existence probe reaches the init system: the clock moves on by its
    latency and the call is recorded. *)
Definition probed (h : Host) (name : string) (s : State) : State :=
  {| now := now s + Z.of_N (probeLatency h name); aliasFile := aliasFile s;
     serviceAliases := serviceAliases s; saveTimer := saveTimer s;
     discoveryCache := discoveryCache s;
     serviceExistenceCache := serviceExistenceCache s; disk := disk s;
     probes := name :: probes s; enumerations := enumerations s |}.

(** The same for an enumeration. *)
Definition enumerated (h : Host) (keyword : string) (s : State) : State :=
  {| now := now s + Z.of_N (findLatency h keyword); aliasFile := aliasFile s;
     serviceAliases := serviceAliases s; saveTimer := saveTimer s;
     discoveryCache := discoveryCache s;
     serviceExistenceCache := serviceExistenceCache s; disk := disk s;
     probes := probes s; enumerations := keyword :: enumerations s |}.

(** The state a process starts in: every package variable at its zero
    value, over the disk the previous run left. *)
Definition processStart (clock : Z)
    (files : gmap string (gmap string (list string))) : State :=
  {| now := clock; aliasFile := EmptyString; serviceAliases := ∅;
     saveTimer := None; discoveryCache := ∅; serviceExistenceCache := ∅;
     disk := files; probes := []; enumerations := [] |}.

(** ** Existence probe and existence cache *)

(** [ServiceConfig] and [ServiceHandler] (handle.go). *)
Record ServiceHandler : Type := {
  config : gmap string string;
  handlerManager : ServiceManager
}.

Definition getManagerName (h : Host) : string := Name (manager h).

Definition defaultServiceConfig (h : Host) (serviceName : string)
    : gmap string string :=
  let mgr := getManagerName h in
  if String.eqb mgr EmptyString then ∅ else {[ mgr := serviceName ]}.

Definition NewServiceHandler (h : Host) (serviceNames : gmap string string)
    : ServiceHandler :=
  {| config := serviceNames; handlerManager := manager h |}.

(** [baseManager.commonServiceExists], through which the three managers
    answer [ServiceExists]: an empty name does not exist, a failed check
    counts as absent, and no error leaves the function. *)
Definition commonServiceExists (h : Host) (cfg : gmap string string)
    (s : State) : (bool * option error) * State :=
  let name := default EmptyString (cfg !! Name (manager h)) in
  if negb (String.eqb name EmptyString) then
    let '(found, checkErr) := checkFn (manager h) name in
    let s := probed h name s in
    match checkErr with
    | Some _ => ((false, None), s)
    | None => ((found, None), s)
    end
  else ((false, None), s).

(** [ServiceHandler.IsExists]: the status (here its [IsExists] field) and a
    nil error. *)
Definition IsExists (h : Host) (handler : ServiceHandler) (s : State)
    : (bool * option error) * State :=
  let '((isExist, _), s) := commonServiceExists h (config handler) s in
  ((isExist, None), s).

(** The part of [confirmServiceExists] after the cache lookup. *)
Definition probeAndStore (h : Host) (serviceName : string) (s : State)
    : (bool * option error) * State :=
  let handler := NewServiceHandler h (defaultServiceConfig h serviceName) in
  let '((isExist, err), s) := IsExists h handler s in
  match err with
  | Some e => ((false, Some (ErrCheckExistence e)), s)
  | None =>
      let item := {| services := []; expires := now s + 30 * Second;
                     exists_ := isExist |} in
      ((isExist, None),
       setExistenceCache (<[serviceName := item]> (serviceExistenceCache s)) s)
  end.

Definition confirmServiceExists (h : Host) (serviceName : string) (s : State)
    : (bool * option error) * State :=
  match serviceExistenceCache s !! serviceName with
  | Some item =>
      if now s <? expires item then ((exists_ item, None), s)
      else
        probeAndStore h serviceName
          (setExistenceCache (delete serviceName (serviceExistenceCache s)) s)
  | None => probeAndStore h serviceName s
  end.

(** ** Discovery *)

(** [discoverServices]; with one caller the single-flight group runs the
    function it is given. *)
Definition enumerateAndStore (h : Host) (keyword : string) (s : State)
    : (list string * option error) * State :=
  let '(results, err) := FindServices (manager h) keyword in
  let s := enumerated h keyword s in
  match err with
  | Some e => (([], Some (ErrServiceDiscovery keyword e)), s)
  | None =>
      let item := {| services := results; expires := now s + 5 * Minute;
                     exists_ := false |} in
      ((results, None),
       setDiscoveryCache (<[keyword := item]> (discoveryCache s)) s)
  end.

Definition discoverServices (h : Host) (keyword : string) (s : State)
    : (list string * option error) * State :=
  match discoveryCache s !! keyword with
  | Some item =>
      if now s <? expires item then ((services item, None), s)
      else
        enumerateAndStore h keyword
          (setDiscoveryCache (delete keyword (discoveryCache s)) s)
  | None => enumerateAndStore h keyword s
  end.

Definition discoverAndSelectService (h : Host) (keyword : string) (s : State)
    : (string * option error) * State :=
  let '((discovered, err), s) := discoverServices h keyword s in
  match err with
  | Some _ => ((EmptyString, Some ErrServiceNotFound), s)
  | None =>
      if Nat.eqb (length discovered) 0
      then ((EmptyString, Some ErrServiceNotFound), s)
      else
        let '(selected, err) := selectBestMatch keyword discovered in
        match err with
        | Some _ => ((EmptyString, Some ErrServiceNotFound), s)
        | None =>
            let '((confirmed, err), s) := confirmServiceExists h selected s in
            match err with
            | Some e => ((EmptyString, Some (ErrExistenceCheck e)), s)
            | None =>
                if confirmed then ((selected, None), s)
                else ((EmptyString, Some ErrServiceNotFound), s)
            end
        end
  end.

(** ** Alias store *)

Definition loadPredefinedAliases : gmap string (list string) :=
  list_to_map
    [ ("clam", ["clamav-daemon.service"; "clamd@scan.service"; "clamd"]);
      ("freshclam", ["clamav-freshclam.service"; "freshclam.service"]);
      ("fail2ban", ["fail2ban.service"; "fail2ban"]);
      ("supervisor", ["supervisord.service"; "supervisor.service";
                      "supervisord"; "supervisor"]);
      ("ssh", ["sshd.service"; "ssh.service"; "sshd"; "ssh"]);
      ("1panel", ["1panel.service"; "1paneld"]);
      ("docker", ["docker.service"; "dockerd"]) ].

(** [sync.Map.LoadOrStore] on the alias table. *)
Definition LoadOrStore (key : string) (value : list string)
    (t : gmap string (list string))
    : (list string * bool) * gmap string (list string) :=
  match t !! key with
  | Some actual => ((actual, true), t)
  | None => ((value, false), <[key := value]> t)
  end.

(** filepath.Join of a directory and a file name. *)
Definition filepath_Join (dir file : string) : string :=
  if String.eqb dir EmptyString then file else dir +:+ "/" +:+ file.

(** [scheduleSave]: the pending timer is replaced by one that holds a
    snapshot of the whole table, and [aliasFile] is assigned here. *)
Definition scheduleSave (h : Host) (s : State) : State :=
  {| now := now s;
     aliasFile := filepath_Join (ResourceDir h) "svcaliases.json";
     serviceAliases := serviceAliases s;
     saveTimer := Some (serviceAliases s);
     discoveryCache := discoveryCache s;
     serviceExistenceCache := serviceExistenceCache s; disk := disk s;
     probes := probes s; enumerations := enumerations s |}.

(** [saveAliasesToFile].  [json.MarshalIndent] has no error to return for a
    map of string slices, so the error is that of [os.WriteFile]; a file
    written holds the text of the table, kept as the table read back from
    it. *)
Definition saveAliasesToFile (h : Host) (data : gmap string (list string))
    (path : string) (files : gmap string (gmap string (list string)))
    : option goError * gmap string (gmap string (list string)) :=
  match writeFails h path with
  | Some (e, remains) =>
      (Some (Wrapf "file write failed: %w" [] (Plain e)),
       match remains with
       | Some partial => <[path := partial]> files
       | None => delete path files
       end)
  | None => (None, <[path := jsonReadBack h data]> files)
  end.

(** os.Rename, whose error the caller drops: a rename that fails, or whose
    source is missing, changes nothing. *)
Definition Rename (h : Host) (oldpath newpath : string)
    (files : gmap string (gmap string (list string)))
    : gmap string (gmap string (list string)) :=
  match renameFails h oldpath newpath with
  | Some _ => files
  | None =>
      match files !! oldpath with
      | Some data => <[newpath := data]> (delete oldpath files)
      | None => files
      end
  end.

(** The function handed to [time.AfterFunc], run when the quiet period of
    [afterSaveTime] is over. *)
Definition saveTimerFires (h : Host) (s : State) : State :=
  match saveTimer s with
  | None => s
  | Some dataSnapshot =>
      let tmpFile := aliasFile s +:+ ".tmp" in
      let '(err, files) := saveAliasesToFile h dataSnapshot tmpFile (disk s) in
      let files :=
        match err with
        | None => Rename h tmpFile (aliasFile s) files
        | Some _ => files
        end in
      {| now := now s; aliasFile := aliasFile s;
         serviceAliases := serviceAliases s; saveTimer := None;
         discoveryCache := discoveryCache s;
         serviceExistenceCache := serviceExistenceCache s; disk := files;
         probes := probes s; enumerations := enumerations s |}
  end.

(** [updateAliases]; the [go scheduleSave()] it ends with is run at once. *)
Definition updateAliases (h : Host) (keyword alias : string) (s : State)
    : State :=
  if String.eqb keyword alias then s
  else
    let '((aliases, _), t) := LoadOrStore keyword [] (serviceAliases s) in
    let s := setAliases t s in
    if contains aliases alias then s
    else
      scheduleSave h
        (setAliases (<[keyword := aliases ++ [alias]]> (serviceAliases s)) s).

(** [getAliases].  The Go code collects the names in a map and ranges over
    it, which fixes no order; the model keeps first occurrences in the order
    predefined, then learned. *)
Definition getAliases (keyword : string) (s : State) : list string * State :=
  let predefined := default [] (loadPredefinedAliases !! keyword) in
  let '((runtimeAliases, _), t) := LoadOrStore keyword [] (serviceAliases s) in
  (remove_dups (predefined ++ runtimeAliases), setAliases t s).

(** The loop that re-probes a list of aliases and keeps the confirmed ones,
    as written in [cleanupKeywordAliases] and in [loadAliasesFromConfig]. *)
Fixpoint validLoop (h : Host) (aliases valid : list string) (s : State)
    : list string * State :=
  match aliases with
  | [] => (valid, s)
  | alias :: rest =>
      let '((confirmed, _), s) := confirmServiceExists h alias s in
      validLoop h rest (if confirmed then valid ++ [alias] else valid) s
  end.

(** [cleanupKeywordAliases]: of the entries [Range] visits only the one of
    the keyword is touched. *)
Definition cleanupKeywordAliases (h : Host) (keyword : string) (s : State)
    : State :=
  let s :=
    match serviceAliases s !! keyword with
    | None => s
    | Some aliases =>
        let '(valid, s) := validLoop h aliases [] s in
        if Nat.eqb (length valid) 0 then
          setExistenceCache (delete keyword (serviceExistenceCache s))
            (setAliases (delete keyword (serviceAliases s)) s)
        else setAliases (<[keyword := valid]> (serviceAliases s)) s
    end in
  scheduleSave h s.

(** ** The resolver *)

(** [validateCandidatesConcurrently].  Which of the three [select] cases
    fires depends on how the goroutines are scheduled and on the one-second
    timer; the host's [race] gives the run.  The runs the source allows are
    those of [runRace], which computes the goroutines and the [select] from
    a schedule; a host follows one when [runsUnder] holds. *)
Definition validateCandidatesConcurrently (h : Host) (candidates : list string)
    (s : State) : (string * option error) * State :=
  let r := race h candidates (now s) (serviceExistenceCache s) in
  ((raceName r, raceErr r),
   {| now := now s + Z.of_N (raceElapsed r); aliasFile := aliasFile s;
      serviceAliases := serviceAliases s; saveTimer := saveTimer s;
      discoveryCache := discoveryCache s;
      serviceExistenceCache := raceCache r; disk := disk s;
      probes := raceProbes r ++ probes s; enumerations := enumerations s |}).

Definition smartServiceName (h : Host) (keyword : string) (s : State)
    : (string * option error) * State :=
  let mgr := manager h in
  let processedName := handleServiceNaming mgr keyword in
  let '((confirmed, _), s) := confirmServiceExists h processedName s in
  if confirmed then
    ((processedName, None), updateAliases h keyword processedName s)
  else
    let '(aliases, s) := getAliases keyword s in
    let candidates := [processedName] ++ aliases in
    let '((name, err), s) := validateCandidatesConcurrently h candidates s in
    match err with
    | None => ((name, None), updateAliases h keyword name s)
    | Some _ =>
        let '((discoveredName, err), s) := discoverAndSelectService h keyword s in
        match err with
        | Some _ =>
            ((EmptyString, Some ErrServiceNotFound),
             cleanupKeywordAliases h keyword s)
        | None =>
            ((discoveredName, None), updateAliases h keyword discoveredName s)
        end
    end.

(** ** Loading the persisted table *)

(** os.ReadFile on the modelled disk; the empty path names no file. *)
Definition ReadFile (path : string)
    (files : gmap string (gmap string (list string)))
    : option (gmap string (list string)) :=
  if String.eqb path EmptyString then None else files !! path.

Fixpoint loadLoop (h : Host) (rawAliases : list (string * list string))
    (validAliases : gmap string (list string)) (s : State)
    : gmap string (list string) * State :=
  match rawAliases with
  | [] => (validAliases, s)
  | (key, aliases) :: rest =>
      let '(valid, s) := validLoop h aliases [] s in
      loadLoop h rest
        (if Nat.ltb 0 (length valid) then <[key := valid]> validAliases
         else validAliases) s
  end.

(** [loadAliasesFromConfig]; the nil map of the failed read is the empty
    table. *)
Definition loadAliasesFromConfig (h : Host) (s : State)
    : gmap string (list string) * State :=
  match ReadFile (aliasFile s) (disk s) with
  | None => (∅, s)
  | Some rawAliases => loadLoop h (map_to_list rawAliases) ∅ s
  end.

Fixpoint registerLoop (aliases : list (string * list string))
    (t : gmap string (list string)) : gmap string (list string) :=
  match aliases with
  | [] => t
  | (key, values) :: rest =>
      let '((existing, loaded), t) := LoadOrStore key values t in
      registerLoop rest
        (if loaded then <[key := existing ++ values]> t else t)
  end.

Definition RegisterServiceAliases (aliases : gmap string (list string))
    (s : State) : State :=
  setAliases (registerLoop (map_to_list aliases) (serviceAliases s)) s.

Definition InitializeServiceDiscovery (h : Host) (s : State) : State :=
  let '(svcName, s) := loadAliasesFromConfig h s in
  if Nat.ltb 0 (size svcName) then RegisterServiceAliases svcName s else s.

(** ** The facade (handle.go and the handler's actions) *)

(** A call either returns or panics; a panic ends the goroutine with the
    run-time error given. *)
Inductive outcome (A : Type) : Type :=
  | Returns (a : A)
  | Panics (reason : string).

Arguments Returns {A} a.
Arguments Panics {A} reason.

Definition nilDereference : string :=
  "invalid memory address or nil pointer dereference".

Definition indexOutOfRange : string := "index out of range".

Record ServiceResult : Type := {
  Success : bool;
  Message : string;
  Output : string
}.

Definition emptyResult : ServiceResult :=
  {| Success := false; Message := EmptyString; Output := EmptyString |}.

(** [DefaultHandler]: a nil handler goes with the error. *)
Definition DefaultHandler (h : Host) (serviceName : string) (s : State)
    : (option ServiceHandler * option error) * State :=
  let '((svcName, err), s) := smartServiceName h serviceName s in
  match err with
  | Some _ => ((None, Some ErrServiceNotFound), s)
  | None =>
      ((Some (NewServiceHandler h (defaultServiceConfig h svcName)), None), s)
  end.

(** [h.manager.Name()]: reading the field of a nil handler panics. *)
Definition ManagerName (handler : option ServiceHandler) : outcome string :=
  match handler with
  | None => Panics nilDereference
  | Some hd => Returns (Name (handlerManager hd))
  end.

Definition GetServiceName (handler : option ServiceHandler) : outcome string :=
  match ManagerName handler with
  | Panics r => Panics r
  | Returns mgr =>
      if String.eqb mgr EmptyString then Returns EmptyString
      else
        match handler with
        | None => Panics nilDereference
        | Some hd => Returns (default EmptyString (config hd !! mgr))
        end
  end.

Definition executeAction (h : Host) (handler : option ServiceHandler)
    (action successMsg : string) : outcome (ServiceResult * option error) :=
  match handler with
  | None => Panics nilDereference
  | Some hd =>
      let '(cmdArgs, err) := BuildCommand (manager h) action (config hd) in
      match err with
      | Some e => Returns (emptyResult, Some (ErrBuildCommand e))
      | None =>
          match cmdArgs with
          | [] => Panics indexOutOfRange
          | _ :: _ =>
              let '(output, err) := executeCommand h cmdArgs in
              match err with
              | Some e =>
                  Returns ({| Success := false;
                              Message := action +:+ " failed";
                              Output := output |},
                           Some (ErrOperation action e))
              | None =>
                  Returns ({| Success := true; Message := successMsg;
                              Output := output |}, None)
              end
          end
      end
  end.

Definition ExecuteAction (h : Host) (handler : option ServiceHandler)
    (action : string) : outcome (ServiceResult * option error) :=
  match GetServiceName handler with
  | Panics r => Panics r
  | Returns serviceName =>
      let successMsg := action +:+ " : " +:+ serviceName +:+ " completed" in
      executeAction h handler action successMsg
  end.

Definition StartService h handler := ExecuteAction h handler "start".
Definition StopService h handler := ExecuteAction h handler "stop".
Definition RestartService h handler := ExecuteAction h handler "restart".
Definition EnableService h handler := ExecuteAction h handler "enable".
Definition DisableService h handler := ExecuteAction h handler "disable".

Definition Start (h : Host) (serviceName : string) (s : State)
    : outcome (option error * State) :=
  let '((handler, _), s) := DefaultHandler h serviceName s in
  match StartService h handler with
  | Panics r => Panics r
  | Returns (result, err) =>
      match err with
      | Some e => Returns (Some (ErrFacade "start" e (Output result)), s)
      | None => Returns (None, s)
      end
  end.

Definition Stop (h : Host) (serviceName : string) (s : State)
    : outcome (option error * State) :=
  let '((handler, err), s) := DefaultHandler h serviceName s in
  match err with
  | Some _ => Returns (Some (ErrIsNotExist serviceName), s)
  | None =>
      match StopService h handler with
      | Panics r => Panics r
      | Returns (result, err) =>
          match err with
          | Some e => Returns (Some (ErrFacade "stop" e (Output result)), s)
          | None => Returns (None, s)
          end
      end
  end.

Definition Restart (h : Host) (serviceName : string) (s : State)
    : outcome (option error * State) :=
  let '((handler, err), s) := DefaultHandler h serviceName s in
  match err with
  | Some _ => Returns (Some (ErrIsNotExist serviceName), s)
  | None =>
      match RestartService h handler with
      | Panics r => Panics r
      | Returns (result, err) =>
          match err with
          | Some e => Returns (Some (ErrFacade "restart" e (Output result)), s)
          | None => Returns (None, s)
          end
      end
  end.

Definition Enable (h : Host) (serviceName : string) (s : State)
    : outcome (option error * State) :=
  let '((handler, err), s) := DefaultHandler h serviceName s in
  match err with
  | Some _ => Returns (Some (ErrIsNotExist serviceName), s)
  | None =>
      match EnableService h handler with
      | Panics r => Panics r
      | Returns (result, err) =>
          match err with
          | Some e => Returns (Some (ErrEnableFailed serviceName e), s)
          | None => Returns (None, s)
          end
      end
  end.

Definition Disable (h : Host) (serviceName : string) (s : State)
    : outcome (option error * State) :=
  let '((handler, _), s) := DefaultHandler h serviceName s in
  match DisableService h handler with
  | Panics r => Panics r
  | Returns (result, err) =>
      match err with
      | Some e => Returns (Some (ErrFacade "disable" e (Output result)), s)
      | None => Returns (None, s)
      end
  end.

(** ** The properties, as predicates *)

Local Close Scope Z_scope.

(** [s] ends in [suffix]. *)
Definition endsWith (s suffix : string) : Prop :=
  exists stem, s = stem +:+ suffix.

(** The last byte of a string. *)
Fixpoint lastByte (s : string) : option ascii :=
  match s with
  | EmptyString => None
  | String c EmptyString => Some c
  | String _ s' => lastByte s'
  end.

(** [n] is the first name of [candidates] whose lower-cased form contains
    [needle]. *)
Definition firstContaining (needle : string) (candidates : list string)
    (n : string) : Prop :=
  exists before after,
    candidates = before ++ n :: after /\
    Contains (ToLower n) needle = true /\
    forall m, In m before -> Contains (ToLower m) needle = false.

Definition someExact (keyword : string) (candidates : list string) : Prop :=
  exists c, In c candidates /\ EqualFold c keyword = true.

(** Best-match selection of [keyword] among [candidates] with result
    [res], the containment test being made against [needle]:
    an empty list is an error; an exact match is returned when there is
    one; otherwise the first name containing the needle; otherwise the
    "no exact or partial match" error. *)
Definition bestMatch (needle keyword : string) (candidates : list string)
    (res : string * option error) : Prop :=
  (candidates = [] -> res = (EmptyString, Some ErrServiceNotFound)) /\
  (someExact keyword candidates ->
     snd res = None /\ In (fst res) candidates /\
     EqualFold (fst res) keyword = true) /\
  (~ someExact keyword candidates ->
     forall n, firstContaining needle candidates n -> res = (n, None)) /\
  (candidates <> [] -> ~ someExact keyword candidates ->
     (forall m, In m candidates -> Contains (ToLower m) needle = false) ->
     res = (EmptyString, Some (ErrNoValidService keyword))).

(** What the existence probe of [name] answers on host [h]: the outcome of
    [IsExists] for the default configuration of that name. *)
Definition existsOnHost (h : Host) (name : string) : bool :=
  if String.eqb (Name (manager h)) EmptyString then false
  else if String.eqb name EmptyString then false
  else
    match checkFn (manager h) name with
    | (found, None) => found
    | (_, Some _) => false
    end.

(** The probe of [name] goes to the init system: the manager has a name and
    the unit name is not empty. *)
Definition reachesHost (h : Host) (name : string) : bool :=
  negb (String.eqb (Name (manager h)) EmptyString)
  && negb (String.eqb name EmptyString).

(** The state once the probe of [name] has been answered. *)
Definition afterProbe (h : Host) (name : string) (s : State) : State :=
  if reachesHost h name then probed h name s else s.

(** Every entry of the existence cache that is still fresh at [clock]
    holds the answer of the host. *)
Definition coherent (h : Host) (clock : Z)
    (cache : gmap string cacheItem) : Prop :=
  forall name item,
    cache !! name = Some item -> (clock < expires item)%Z ->
    exists_ item = existsOnHost h name.

(** The goroutines of a candidate race write into the existence cache only
    what the host answered. *)
Definition honestRace (h : Host) : Prop :=
  forall candidates clock cache,
    coherent h clock cache ->
    coherent h (clock + Z.of_N (raceElapsed (race h candidates clock cache)))
      (raceCache (race h candidates clock cache)).

(** The stages of [smartServiceName] before the step that can fail last. *)
Definition afterDirectCheck (h : Host) (keyword : string) (s : State) : State :=
  snd (confirmServiceExists h (handleServiceNaming (manager h) keyword) s).

Definition raceCandidates (h : Host) (keyword : string) (s : State)
    : list string :=
  [handleServiceNaming (manager h) keyword]
  ++ fst (getAliases keyword (afterDirectCheck h keyword s)).

Definition afterRace (h : Host) (keyword : string) (s : State) : State :=
  snd (validateCandidatesConcurrently h (raceCandidates h keyword s)
         (snd (getAliases keyword (afterDirectCheck h keyword s)))).

Definition directCheckFails (h : Host) (keyword : string) (s : State) : Prop :=
  fst (fst (confirmServiceExists h
              (handleServiceNaming (manager h) keyword) s)) = false.

Definition raceFails (h : Host) (keyword : string) (s : State) : Prop :=
  snd (fst (validateCandidatesConcurrently h (raceCandidates h keyword s)
              (snd (getAliases keyword (afterDirectCheck h keyword s)))))
  <> None.

Definition discoveryFails (h : Host) (keyword : string) (s : State) : Prop :=
  snd (fst (discoverAndSelectService h keyword (afterRace h keyword s)))
  <> None.

(** The list stored for a keyword has no duplicate and does not hold the
    keyword. *)
Definition aliasInvariant (t : gmap string (list string)) : Prop :=
  forall keyword aliases,
    t !! keyword = Some aliases -> List.NoDup aliases /\ ~ In keyword aliases.

(** A sequence of [updateAliases] calls, each given as (keyword, alias). *)
Fixpoint updateAll (h : Host) (calls : list (string * string)) (s : State)
    : State :=
  match calls with
  | [] => s
  | (keyword, alias) :: rest => updateAll h rest (updateAliases h keyword alias s)
  end.

(** SysV parsing as the specification words it: a "not found" or "no such
    file" marker in the output gives a clean [false] for both kinds. *)
Definition sysvMarker (output : string) : Prop :=
  Contains output "not found" = true \/ Contains output "no such file" = true.

Definition sysvCleanFalse (m : Managers.baseManager) (output : string) : Prop :=
  Managers.sysvinitParseStatus m output "active" = (false, None) /\
  Managers.sysvinitParseStatus m output "enabled" = (false, None).

(** What is left of a persisted list once the names that no longer exist
    on the host are dropped: nothing when none remains. *)
Definition pruned (h : Host) (aliases : list string) : option (list string) :=
  match List.filter (existsOnHost h) aliases with
  | [] => None
  | valid => Some valid
  end.

(** The alias file of a host. *)
Definition aliasPath (h : Host) : string :=
  filepath_Join (ResourceDir h) "svcaliases.json".

(** The disk accepts a flush: the write to the temporary file and the
    rename onto the alias file both succeed. *)
Definition flushSucceeds (h : Host) : Prop :=
  writeFails h (aliasPath h +:+ ".tmp") = None /\
  renameFails h (aliasPath h +:+ ".tmp") (aliasPath h) = None.

(** ** Example hosts *)

(** A candidate race in which no probe answers within the second: the timer
    case fires and the cache is as it was. *)
Definition raceTimesOut (candidates : list string) (clock : Z)
    (cache : gmap string cacheItem) : RaceResult :=
  {| raceName := EmptyString;
     raceErr := Some (ErrDiscoveryTimeout (hd EmptyString candidates));
     raceCache := cache;
     raceElapsed := 1000000000;
     raceProbes := candidates |}.

Definition sysvinit : Managers.baseManager :=
  Managers.newSysvinitManager (fun _ => false) (fun _ => false).

Definition systemd : Managers.baseManager :=
  Managers.newSystemdManager (fun _ => false) (fun _ => false).

(** A host managed by [b], on which exactly the units of [installed] exist;
    the enumeration lists the units whose name contains the keyword, each
    external call takes a millisecond, commands succeed silently, the disk
    accepts every write and the candidate race runs out of time. *)
Definition hostOf (b : Managers.baseManager)
    (build : string -> gmap string string -> list string * option error)
    (installed : list string) : Host :=
  {| manager :=
       {| Name := Managers.name b;
          checkFn := fun name => (contains installed name, None);
          FindServices := fun keyword =>
            (List.filter (fun f => Contains f keyword) installed, None);
          BuildCommand := build |};
     probeLatency := fun _ => 1000000%N;
     findLatency := fun _ => 1000000%N;
     ResourceDir := "/opt/1panel/resource";
     executeCommand := fun cmd => (EmptyString, None);
     writeFails := fun _ => None;
     renameFails := fun _ _ => None;
     jsonReadBack := fun table => table;
     race := raceTimesOut |}.

(** A SysV host and a systemd host, the process running as root. *)
Definition sysvHost (installed : list string) : Host :=
  hostOf sysvinit (Managers.sysvinitBuildCommand sysvinit true) installed.

Definition systemdHost (installed : list string) : Host :=
  hostOf systemd (Managers.systemdBuildCommand systemd true) installed.

(** The table of a process that has learned two names for "web". *)
Definition webAliases : State :=
  setAliases {[ "web" := ["nginx"; "httpd"] ]} (processStart 0 ∅).

(** The same host once its enumeration tool fails. *)
Definition withoutEnumeration (h : Host) : Host :=
  {| manager :=
       {| Name := Name (manager h);
          checkFn := checkFn (manager h);
          FindServices := fun _ =>
            ([], Some (ErrHost "failed to read init.d directory"));
          BuildCommand := BuildCommand (manager h) |};
     probeLatency := probeLatency h;
     findLatency := findLatency h;
     ResourceDir := ResourceDir h;
     executeCommand := executeCommand h;
     writeFails := writeFails h;
     renameFails := renameFails h;
     jsonReadBack := jsonReadBack h;
     race := race h |}.

(** ** Further properties of the resolver, as predicates *)

(** A pending save holds the table as it is now. *)
Definition snapshotCurrent (s : State) : Prop :=
  forall dataSnapshot,
    saveTimer s = Some dataSnapshot -> dataSnapshot = serviceAliases s.

(** The existence cache holds a positive entry for [name] that has not
    expired. *)
Definition freshlyConfirmed (name : string) (s : State) : Prop :=
  exists item,
    serviceExistenceCache s !! name = Some item /\
    exists_ item = true /\ (now s < expires item)%Z.

(** ** More of the Go library *)

(** Every byte of [s] is below 128.  On such a string Go's [ToLower],
    [EqualFold], [Fields] and [TrimSpace] are the functions of [GoStrings];
    on other strings Go decodes UTF-8 (it maps and trims Unicode letters and
    white space and replaces invalid bytes), which the model does not. *)
Fixpoint isASCII (s : string) : bool :=
  match s with
  | EmptyString => true
  | String c s' => Nat.ltb (nat_of_ascii c) 128 && isASCII s'
  end.

(** strings.Fields: the maximal runs of bytes that are not white space. *)
Fixpoint Fields (s : string) : list string :=
  match s with
  | EmptyString => []
  | String c s' =>
      if isSpace c then Fields s'
      else
        match s' with
        | EmptyString => [String c EmptyString]
        | String c' _ =>
            if isSpace c' then String c EmptyString :: Fields s'
            else
              match Fields s' with
              | w :: ws => String c w :: ws
              | [] => [String c EmptyString]
              end
        end
  end.

(** strings.Split for a separator of one byte. *)
Fixpoint SplitByte (sep : ascii) (s : string) : list string :=
  match s with
  | EmptyString => [EmptyString]
  | String c s' =>
      if Ascii.eqb c sep then EmptyString :: SplitByte sep s'
      else
        match SplitByte sep s' with
        | l :: ls => String c l :: ls
        | [] => [String c EmptyString]
        end
  end.

(** The line feed. *)
Definition newline : ascii := ascii_of_nat 10.

(** No byte of [s] is white space. *)
Fixpoint noSpace (s : string) : bool :=
  match s with
  | EmptyString => true
  | String c s' => negb (isSpace c) && noSpace s'
  end.

(** ** Enumeration of services (managers.go) *)

(** The loop of [systemdManager.FindServices] over the lines of the listing:
    the first field of each line, when it contains the keyword. *)
Fixpoint systemdCollect (lines : list string) (keyword : string)
    (services : list string) : list string :=
  match lines with
  | [] => services
  | line :: rest =>
      let fields := Fields line in
      if Nat.ltb (length fields) 1 then systemdCollect rest keyword services
      else
        let serviceName := hd EmptyString fields in
        if Contains serviceName keyword
        then systemdCollect rest keyword (services ++ [serviceName])
        else systemdCollect rest keyword services
  end.

(** [systemdManager.FindServices]; [run] is [executeCommand]. *)
Definition systemdFindServices (run : list string -> string * option error)
    (b : Managers.baseManager) (keyword : string)
    : list string * option goError :=
  let '(out, err) :=
    run [Managers.cmdTool b; "list-unit-files"; "--type=service"; "--no-legend"] in
  match err with
  | Some e =>
      ([], Some (Wrapf "failed to list systemd services: %w" [] (Plain e)))
  | None => (systemdCollect (SplitByte newline out) keyword [], None)
  end.

(** The loop of [openrcManager.FindServices]: the lines that contain the
    keyword, trimmed. *)
Fixpoint openrcCollect (lines : list string) (keyword : string)
    (services : list string) : list string :=
  match lines with
  | [] => services
  | line :: rest =>
      if Contains line keyword
      then openrcCollect rest keyword (services ++ [TrimSpace line])
      else openrcCollect rest keyword services
  end.

Definition openrcFindServices (run : list string -> string * option error)
    (b : Managers.baseManager) (keyword : string)
    : list string * option goError :=
  let '(out, err) := run [Managers.cmdTool b; "-l"] in
  match err with
  | Some e =>
      ([], Some (Wrapf "failed to list openrc services: %w" [] (Plain e)))
  | None => (openrcCollect (SplitByte newline out) keyword [], None)
  end.

(** The loop of [sysvinitManager.FindServices] over the names of the
    directory entries. *)
Fixpoint sysvinitCollect (files : list string) (keyword : string)
    (services : list string) : list string :=
  match files with
  | [] => services
  | file :: rest =>
      if Contains file keyword
      then sysvinitCollect rest keyword (services ++ [file])
      else sysvinitCollect rest keyword services
  end.

(** [sysvinitManager.FindServices]; [readDir] is [os.ReadDir], giving the
    names of the entries. *)
Definition sysvinitFindServices (readDir : string -> list string * option error)
    (keyword : string) : list string * option goError :=
  let '(files, err) := readDir "/etc/init.d/" in
  match err with
  | Some e =>
      ([], Some (Wrapf "failed to read init.d directory: %w" [] (Plain e)))
  | None => (sysvinitCollect files keyword [], None)
  end.

(** ** The manager registry (managers.go) *)

(** The three implementations of [ServiceManager]. *)
Inductive managerKind : Type := SystemdKind | OpenrcKind | SysvinitKind.

(** A registered manager: its kind and its [baseManager]. *)
Record registered : Type := {
  kind : managerKind;
  base : Managers.baseManager
}.

(** [BuildCommand] and [ParseStatus] of a registered manager, by its kind. *)
Definition buildCommandOf (m : registered) (root : bool)
    : string -> gmap string string -> list string * option error :=
  match kind m with
  | SystemdKind => Managers.systemdBuildCommand (base m) root
  | OpenrcKind => Managers.openrcBuildCommand (base m) root
  | SysvinitKind => Managers.sysvinitBuildCommand (base m) root
  end.

Definition parseStatusOf (m : registered)
    : string -> string -> bool * option error :=
  match kind m with
  | SystemdKind => Managers.systemdParseStatus (base m)
  | OpenrcKind => Managers.openrcParseStatus (base m)
  | SysvinitKind => Managers.sysvinitParseStatus (base m)
  end.

(** [IsAvailable]: the control tool is found on the search path;
    [lookPath] is [exec.LookPath] succeeding. *)
Definition IsAvailable (lookPath : string -> bool) (m : registered) : bool :=
  lookPath (Managers.cmdTool (base m)).

(** [testManager]: the "status" command of a test service can be built. *)
Definition testManager (root : bool) (m : registered) : bool :=
  match snd (buildCommandOf m root "status"
               {[ Managers.name (base m) := "test-service" ]}) with
  | None => true
  | Some _ => false
  end.

(** [registerManager]: the map [managers], keyed by name. *)
Definition registerManager (m : registered)
    (managers : gmap string registered) : gmap string registered :=
  <[Managers.name (base m) := m]> managers.

(** The loop of [InitializeGlobalManager] over [managerPriority]. *)
Fixpoint firstUsable (lookPath : string -> bool) (root : bool)
    (managers : gmap string registered) (priority : list string)
    : option registered :=
  match priority with
  | [] => None
  | name :: rest =>
      match managers !! name with
      | Some mgr =>
          if IsAvailable lookPath mgr then
            if testManager root mgr then Some mgr
            else firstUsable lookPath root managers rest
          else firstUsable lookPath root managers rest
      | None => firstUsable lookPath root managers rest
      end
  end.

(** [InitializeGlobalManager]: the new value of [globalManager] and the
    error; on failure [globalManager] keeps the value it had. *)
Definition InitializeGlobalManager (lookPath : string -> bool) (root : bool)
    (managers : gmap string registered) (managerPriority : list string)
    (globalManager : option registered)
    : option registered * option goError :=
  match firstUsable lookPath root managers managerPriority with
  | Some mgr => (Some mgr, None)
  | None =>
      (globalManager,
       Some (Errorf "no available service manager found (tried: %v)"
               managerPriority))
  end.

Definition maxRetries : nat := 5.
Definition initialWait : Z := (1 * Second)%Z.

(** The loop of [initializeWithRetry], from attempt [attempt] on with
    [remaining] attempts left; [lookPathAt] tells what [exec.LookPath] finds
    at an instant, and the instant of the return is given with the manager.
    The loop sleeps [backoff] after a failed attempt that is not the last,
    then doubles it; when no attempt is left the function panics. *)
Fixpoint retryLoop (lookPathAt : Z -> string -> bool) (root : bool)
    (managers : gmap string registered) (managerPriority : list string)
    (globalManager : option registered)
    (remaining attempt : nat) (backoff clock : Z)
    : outcome (option registered * Z) :=
  match remaining with
  | O => Panics "unable to initialize service manager"
  | S remaining' =>
      match InitializeGlobalManager (lookPathAt clock) root managers
              managerPriority globalManager with
      | (g, None) => Returns (g, clock)
      | (g, Some _) =>
          if Nat.ltb attempt maxRetries
          then retryLoop lookPathAt root managers managerPriority g
                 remaining' (S attempt) (backoff * 2)%Z (clock + backoff)%Z
          else retryLoop lookPathAt root managers managerPriority g
                 remaining' (S attempt) backoff clock
      end
  end.

Definition initializeWithRetry (lookPathAt : Z -> string -> bool) (root : bool)
    (managers : gmap string registered) (managerPriority : list string)
    (globalManager : option registered) (clock : Z)
    : outcome (option registered * Z) :=
  retryLoop lookPathAt root managers managerPriority globalManager
    maxRetries 1 initialWait clock.

(** The registry [init] builds, from the matchers of the compiled patterns
    of each manager. *)
Definition initialManagers
    (systemdRe openrcRe sysvinitRe : (string -> bool) * (string -> bool))
    : gmap string registered :=
  registerManager
    {| kind := SysvinitKind;
       base := Managers.newSysvinitManager (fst sysvinitRe) (snd sysvinitRe) |}
    (registerManager
       {| kind := OpenrcKind;
          base := Managers.newOpenrcManager (fst openrcRe) (snd openrcRe) |}
       (registerManager
          {| kind := SystemdKind;
             base := Managers.newSystemdManager (fst systemdRe) (snd systemdRe) |}
          ∅)).

(** The initial value of [managerPriority]. *)
Definition defaultPriority : list string := ["systemd"; "openrc"; "sysvinit"].

(** [name] comes before the manager chosen and could have been chosen. *)
Definition usable (lookPath : string -> bool) (root : bool)
    (managers : gmap string registered) (name : string) : Prop :=
  exists mgr,
    managers !! name = Some mgr /\ IsAvailable lookPath mgr = true /\
    testManager root mgr = true.

(** A listing of unit files, for the examples: two lines and the final
    line feed. *)
Definition sampleListing : string :=
  "docker.service enabled enabled"
  +:+ String newline
        ("  containerd.service  disabled" +:+ String newline EmptyString).

Definition listingTool (cmd : list string) : string * option error :=
  (sampleListing, None).

(** ** Status of a service (handle.go) *)

Module ServiceStatus.

(** [ServiceStatus]. *)
Record t : Type := {
  IsActive : bool;
  IsEnabled : bool;
  IsExists : bool;
  Output : string
}.

Definition zero : t :=
  {| IsActive := false; IsEnabled := false; IsExists := false;
     Output := EmptyString |}.

End ServiceStatus.

(** The [result] of one of the two goroutines of [CheckStatus]. *)
Record checkResult : Type := {
  isActive : bool;
  isEnabled : bool;
  output : string;
  err : option goError
}.

Definition failed (e : goError) : checkResult :=
  {| isActive := false; isEnabled := false; output := EmptyString;
     err := Some e |}.

Module Handler.

(** The first goroutine of [CheckStatus]: the "status" command and the
    parse of its output for kind "active".  [parse] is the [ParseStatus] of
    the global manager. *)
Definition activeTask (h : Host)
    (parse : string -> string -> bool * option error)
    (handler : ServiceHandler) : outcome checkResult :=
  let '(cmd, e) := BuildCommand (manager h) "status" (config handler) in
  match e with
  | Some e => Returns (failed (Wrapf "build status command failed: %w" [] (Plain e)))
  | None =>
      match cmd with
      | [] => Panics indexOutOfRange
      | _ :: _ =>
          let '(out, e) := executeCommand h cmd in
          match e with
          | Some e => Returns (failed (Wrapf "status check failed: %w" [] (Plain e)))
          | None =>
              let '(active, e) := parse out "active" in
              match e with
              | Some e =>
                  Returns (failed (Wrapf "parse status failed: %w" [] (Plain e)))
              | None =>
                  Returns {| isActive := active; isEnabled := false;
                             output := out; err := None |}
              end
          end
      end
  end.

(** The second goroutine: the "is-enabled" command and the parse of its
    output for kind "enabled". *)
Definition enabledTask (h : Host)
    (parse : string -> string -> bool * option error)
    (handler : ServiceHandler) : outcome checkResult :=
  let '(cmd, e) := BuildCommand (manager h) "is-enabled" (config handler) in
  match e with
  | Some e =>
      Returns (failed (Wrapf "build is-enabled command failed: %w" [] (Plain e)))
  | None =>
      match cmd with
      | [] => Panics indexOutOfRange
      | _ :: _ =>
          let '(out, e) := executeCommand h cmd in
          match e with
          | Some e => Returns (failed (Wrapf "enabled check failed: %w" [] (Plain e)))
          | None =>
              let '(enabled, e) := parse out "enabled" in
              match e with
              | Some e =>
                  Returns (failed (Wrapf "parse enabled status failed: %w" []
                                     (Plain e)))
              | None =>
                  Returns {| isActive := false; isEnabled := enabled;
                             output := EmptyString; err := None |}
              end
          end
      end
  end.

(** The loop of [CheckStatus] over the results, in the order the channel
    delivers them. *)
Fixpoint collect (results : list checkResult) (status : ServiceStatus.t)
    (errs : list goError) : ServiceStatus.t * list goError :=
  match results with
  | [] => (status, errs)
  | res :: rest =>
      match err res with
      | Some e => collect rest status (errs ++ [e])
      | None =>
          collect rest
            {| ServiceStatus.IsActive := isActive res;
               ServiceStatus.IsEnabled := isEnabled res;
               ServiceStatus.IsExists := ServiceStatus.IsExists status;
               ServiceStatus.Output :=
                 if String.eqb (output res) EmptyString
                 then ServiceStatus.Output status else output res |}
            errs
      end
  end.

(** [ServiceHandler.CheckStatus].  The two goroutines send on one channel;
    [activeFirst] tells whether the result of the "status" goroutine is
    received first.  The errors are given as the list handed to
    [errors.Join]: the error returned is nil when it is empty. *)
Definition CheckStatus (h : Host)
    (parse : string -> string -> bool * option error)
    (activeFirst : bool) (handler : ServiceHandler)
    : outcome (ServiceStatus.t * list goError) :=
  match activeTask h parse handler, enabledTask h parse handler with
  | Returns r1, Returns r2 =>
      Returns (collect (if activeFirst then [r1; r2] else [r2; r1])
                 ServiceStatus.zero [])
  | Panics r, _ => Panics r
  | _, Panics r => Panics r
  end.

End Handler.

(** The errors of [Status] (the facade): the keyword does not resolve, or
    [CheckStatus] failed with the joined errors and the output given. *)
Inductive statusError : Type :=
  | StatusNotExist (serviceName : string)
      (* "%s is not exist" *)
  | StatusCheckFailed (joined : list goError) (out : string).
      (* "status check failed: %v | Output: %s" *)

(** [Status] (the facade). *)
Definition Status (h : Host)
    (parse : string -> string -> bool * option error)
    (activeFirst : bool) (serviceName : string) (s : State)
    : outcome ((bool * bool * option statusError) * State) :=
  let '((handler, e), s) := DefaultHandler h serviceName s in
  match e with
  | Some _ => Returns ((false, false, Some (StatusNotExist serviceName)), s)
  | None =>
      match handler with
      | None => Panics nilDereference
      | Some hd =>
          match Handler.CheckStatus h parse activeFirst hd with
          | Panics r => Panics r
          | Returns (status, errs) =>
              match errs with
              | _ :: _ =>
                  Returns ((false, false,
                            Some (StatusCheckFailed errs
                                    (ServiceStatus.Output status))), s)
              | [] =>
                  Returns ((ServiceStatus.IsActive status,
                            ServiceStatus.IsEnabled status, None), s)
              end
          end
      end
  end.

(** The errors of [SafeRestart]. *)
Inductive safeRestartError : Type :=
  | ConfigMissing (path : string)
      (* "config file missing: %s" *)
  | ConfigTestFailed (cause : error)
      (* "config test failed: %w" *)
  | RestartFailed (e : error)
      (* the error of Restart, as it is *)
  | NotActive.
      (* "service not active after restart" *)

(** The first loop of [SafeRestart]; [fileExist] is [FileExist]. *)
Fixpoint firstMissing (fileExist : string -> bool) (configPaths : list string)
    : option string :=
  match configPaths with
  | [] => None
  | path :: rest =>
      if negb (fileExist path) then Some path else firstMissing fileExist rest
  end.

Definition SafeRestart (h : Host) (fileExist : string -> bool)
    (parse : string -> string -> bool * option error)
    (activeFirst : bool) (service : string) (configPaths : list string)
    (s : State) : outcome (option safeRestartError * State) :=
  match firstMissing fileExist configPaths with
  | Some path => Returns (Some (ConfigMissing path), s)
  | None =>
      let '(_, e) := executeCommand h ["check"; service] in
      match e with
      | Some e => Returns (Some (ConfigTestFailed e), s)
      | None =>
          match Restart h service s with
          | Panics r => Panics r
          | Returns (Some e, s) => Returns (Some (RestartFailed e), s)
          | Returns (None, s) =>
              match Status h parse activeFirst service s with
              | Panics r => Panics r
              | Returns ((active, _, e), s) =>
                  match e with
                  | Some _ => Returns (Some NotActive, s)
                  | None =>
                      if negb active then Returns (Some NotActive, s)
                      else Returns (None, s)
                  end
              end
          end
      end
  end.

(** Every command the manager of the host builds has a program to run. *)
Definition commandBuilt (h : Host) : Prop :=
  forall action cfg,
    exists program args,
      BuildCommand (manager h) action cfg = (program :: args, None).

(** What a control action of the facade returns for the result of its
    command. *)
Definition actionError (action : string) (ran : string * option error)
    : option error :=
  match snd ran with
  | Some e => Some (ErrFacade action (ErrOperation action e) (fst ran))
  | None => None
  end.

(** ** Supervisor tooling (app/service/host_tool.go) *)

(** strings.Join *)
Fixpoint Join (elems : list string) (sep : string) : string :=
  match elems with
  | [] => EmptyString
  | e :: rest =>
      match rest with
      | [] => e
      | _ :: _ => e +:+ sep +:+ Join rest sep
      end
  end.

(** The loop of strconv.Atoi over the digits: [ch -= '0'; ch > 9] rejects
    every byte that is not a decimal digit. *)
Fixpoint atoiLoop (n : Z) (s : string) : option Z :=
  match s with
  | EmptyString => Some n
  | String ch s' =>
      let code := Z.of_nat (nat_of_ascii ch) in
      if ((48 <=? code) && (code <=? 57))%Z
      then atoiLoop (n * 10 + (code - 48))%Z s'
      else None
  end.

(** strconv.Atoi, [int] being 64 bits wide: an optional sign, at least one
    decimal digit, and a value in the range of [int]; [None] is an error. *)
Definition Atoi (s : string) : option Z :=
  let '(neg, digits) :=
    match s with
    | String c r =>
        if Ascii.eqb c "-" then (true, r)
        else if Ascii.eqb c "+" then (false, r) else (false, s)
    | EmptyString => (false, s)
    end in
  match digits with
  | EmptyString => None
  | String _ _ =>
      match atoiLoop 0 digits with
      | None => None
      | Some n =>
          let v := if neg : bool then (- n)%Z else n in
          if ((- 2 ^ 63 <=? v) && (v <? 2 ^ 63))%Z then Some v else None
      end
  end.

(** strconv.Itoa *)
Definition Itoa (i : Z) : string := NilEmpty.string_of_int (Z.to_int i).



(** The loop of [getProcessName], [remaining] iterations from [i] on. *)
Fixpoint processNameLoop (name : string) (remaining : nat) (i : Z)
    (processNames : list string) : list string :=
  match remaining with
  | O => processNames
  | S remaining' =>
      let processName :=
        if (10 <=? i)%Z
        then name +:+ ":" +:+ name +:+ "_" +:+ Itoa i
        else name +:+ ":" +:+ name +:+ "_0" +:+ Itoa i in
      processNameLoop name remaining' (i + 1)%Z (processNames ++ [processName])
  end.

Definition getProcessName (name numprocs : string) : list string :=
  match Atoi numprocs with
  | None => []
  | Some num =>
      if (num =? 1)%Z then [name +:+ ":" +:+ name +:+ "_00"]
      else processNameLoop name (Z.to_nat num) 0%Z []
  end.

Module ProcessStatus.

(** [response.ProcessStatus]. *)
Record t : Type := {
  Name : string;
  Status : string;
  PID : string;
  Uptime : string;
  Msg : string
}.

End ProcessStatus.

Module SupervisorProcessConfig.

(** [response.SupervisorProcessConfig], the fields [getProcessStatus]
    reads and writes. *)
Record t : Type := {
  Name : string;
  Numprocs : string;
  Status : list ProcessStatus.t
}.

End SupervisorProcessConfig.

(** The loop of [getProcessStatus] over the lines of the output. *)
Fixpoint processStatusLoop (lines : list string)
    (statuses : list ProcessStatus.t) : outcome (list ProcessStatus.t) :=
  match lines with
  | [] => Returns statuses
  | line :: rest =>
      let fields := Fields line in
      if Nat.leb 5 (length fields) then
        if String.eqb (nth 1 fields EmptyString) "RUNNING" then
          match nth_error fields 5 with
          | None => Panics indexOutOfRange
          | Some uptime =>
              processStatusLoop rest
                (statuses ++
                 [{| ProcessStatus.Name := nth 0 fields EmptyString;
                     ProcessStatus.Status := nth 1 fields EmptyString;
                     ProcessStatus.PID :=
                       TrimSuffix (nth 3 fields EmptyString) ",";
                     ProcessStatus.Uptime := uptime;
                     ProcessStatus.Msg := EmptyString |}])
          end
        else
          processStatusLoop rest
            (statuses ++
             [{| ProcessStatus.Name := nth 0 fields EmptyString;
                 ProcessStatus.Status := nth 1 fields EmptyString;
                 ProcessStatus.PID := EmptyString;
                 ProcessStatus.Uptime := EmptyString;
                 ProcessStatus.Msg := Join (skipn 2 fields) " " |}])
      else processStatusLoop rest statuses
  end.

(** [getProcessStatus]; [supervisorctl] gives the standard output of the
    tool for its arguments (the error of the call is dropped by the code).
    The configuration is returned as the call leaves it. *)
Definition getProcessStatus (supervisorctl : list string -> string)
    (config : SupervisorProcessConfig.t)
    : outcome SupervisorProcessConfig.t :=
  let processNames :=
    ["status"] ++
    getProcessName (SupervisorProcessConfig.Name config)
      (SupervisorProcessConfig.Numprocs config) in
  let output := supervisorctl processNames in
  match processStatusLoop (SplitByte newline output)
          (SupervisorProcessConfig.Status config) with
  | Panics r => Panics r
  | Returns statuses =>
      Returns
        {| SupervisorProcessConfig.Name := SupervisorProcessConfig.Name config;
           SupervisorProcessConfig.Numprocs :=
             SupervisorProcessConfig.Numprocs config;
           SupervisorProcessConfig.Status := statuses |}
  end.

(** A line has exactly five fields and says RUNNING: the sixth field that
    the code reads is missing. *)
Definition shortRunningLine (line : string) : Prop :=
  length (Fields line) = 5%nat /\
  nth 1 (Fields line) EmptyString = "RUNNING".

(** The number [k] as the names of the processes end: two digits at least. *)
Definition twoDigits (k : Z) : string :=
  if (10 <=? k)%Z then Itoa k else "0" +:+ Itoa k.

(** A line of [supervisorctl status] with five fields only. *)
Definition shortStatus : string :=
  "web:web_00 RUNNING pid 4711, uptime".

(** ** Roll-back (cmd/restore.go) *)

Module DirEntry.

(** [fs.DirEntry], as far as the code looks at it. *)
Record t : Type := {
  Name : string;
  IsDir : bool
}.

End DirEntry.

(** The answer of [loadRestorePath] when there is nothing to roll back
    ("no file to roll back", in Chinese). *)
Definition noRestoreFile : string := "暂无可回滚文件".

(** The loop of [loadRestorePath] over the entries: the names of the
    directories. *)
Fixpoint foldersOf (files : list DirEntry.t) (folders : list string)
    : list string :=
  match files with
  | [] => folders
  | file :: rest =>
      if DirEntry.IsDir file
      then foldersOf rest (folders ++ [DirEntry.Name file])
      else foldersOf rest folders
  end.

(** [sort.Slice(folders, func(i, j) { return folders[i] > folders[j] })]:
    the slice in descending order of its strings, compared byte by byte.
    The order is total and equal strings cannot be told apart, so the sorted
    slice is the same for every sorting algorithm; it is built here by
    insertion. *)
Fixpoint insertDescending (x : string) (sorted : list string) : list string :=
  match sorted with
  | [] => [x]
  | y :: rest =>
      if String.ltb y x then x :: sorted else y :: insertDescending x rest
  end.

Definition sortDescending (folders : list string) : list string :=
  fold_right insertDescending [] folders.

(** [loadRestorePath]; [stat] is the error of [os.Stat(upgradeDir)],
    [isNotExist] is [os.IsNotExist] and [readDir] the result of
    [os.ReadDir(upgradeDir)]. *)
Definition loadRestorePath (stat : option error) (isNotExist : error -> bool)
    (readDir : list DirEntry.t * option error) : string * option error :=
  if match stat with Some e => isNotExist e | None => false end
  then (noRestoreFile, None)
  else
    let '(files, err) := readDir in
    match err with
    | Some e => (EmptyString, Some e)
    | None =>
        let folders := foldersOf files [] in
        match folders with
        | [] => (noRestoreFile, None)
        | _ :: _ => (hd EmptyString (sortDescending folders), None)
        end
    end.

(** The upgrade directory after two upgrades. *)
Definition twoUpgrades : list DirEntry.t :=
  [ {| DirEntry.Name := "upgrade_2024-05-01"; DirEntry.IsDir := true |};
    {| DirEntry.Name := "upgrade_2024-11-20"; DirEntry.IsDir := true |};
    {| DirEntry.Name := "zz.log"; DirEntry.IsDir := false |} ].

(** [s] is not empty and neither begins nor ends with white space. *)
Definition trimmed (s : string) : bool :=
  match s, lastByte s with
  | String c _, Some l => negb (isSpace c) && negb (isSpace l)
  | _, _ => false
  end.

(** [ReinitializeManager]: [globalManager] is set to nil before the
    initialisation runs, so [InitializeGlobalManager] starts from nil. *)
Definition ReinitializeManager (lookPath : string -> bool) (root : bool)
    (managers : gmap string registered) (managerPriority : list string)
    (globalManager : option registered)
    : option registered * option goError :=
  let globalManager : option registered := None in
  InitializeGlobalManager lookPath root managers managerPriority globalManager.

(** [GetGlobalManager]: the manager held, or the one [initializeWithRetry]
    installs; the new value of [globalManager] and the instant of the return
    are given. *)
Definition GetGlobalManager (lookPathAt : Z -> string -> bool) (root : bool)
    (managers : gmap string registered) (managerPriority : list string)
    (globalManager : option registered) (clock : Z)
    : outcome (option registered * Z) :=
  match globalManager with
  | None =>
      initializeWithRetry lookPathAt root managers managerPriority
        globalManager clock
  | Some _ => Returns (globalManager, clock)
  end.

(** ** The candidate race under a schedule (host_tool.go, lines 1115-1155) *)

Local Open Scope Z_scope.

Definition Millisecond : Z := 1000000.

(** What the scheduler decides in one run of
    [validateCandidatesConcurrently]: how long after the call the calling
    goroutine reaches its [select], which of the cases that are ready the
    [select] takes (Go picks among them at random), and which of the
    goroutines that send at the same instant sends first. *)
Record Schedule : Type := {
  arrival : N;
  pick : nat;
  tie : nat
}.

(** One goroutine handed to [g.Go]: its candidate, the answer that
    [confirmServiceExists] gives, and the state as that call leaves it,
    whose clock is the instant the goroutine is done. *)
Record Goroutine : Type := {
  candidateOf : string;
  confirmedBy : bool;
  leaves : State
}.

(** The goroutines start together on the existence cache of the call. *)
Definition raceState (clock : Z) (cache : gmap string cacheItem) : State :=
  setExistenceCache cache (processStart clock ∅).

Definition goroutine (h : Host) (clock : Z) (cache : gmap string cacheItem)
    (cand : string) : Goroutine :=
  let '((confirmed, _), s) :=
    confirmServiceExists h cand (raceState clock cache) in
  {| candidateOf := cand; confirmedBy := confirmed; leaves := s |}.

Definition doneAt (g : Goroutine) : Z := now (leaves g).

(** The goroutines that send on [found]: those whose candidate is
    confirmed. *)
Definition senders (gs : list Goroutine) : list Goroutine :=
  List.filter confirmedBy gs.

(** The instant of the first send on [found], if there is one. *)
Definition firstSend (gs : list Goroutine) : option Z :=
  match map doneAt (senders gs) with
  | [] => None
  | t :: ts => Some (fold_right Z.min t ts)
  end.

(** What a receive on [found] gives.  The channel has room for one name, so
    the first send stays and later ones take the [default] branch; when
    nothing was sent the channel, once closed, gives the empty string. *)
Definition sent (sched : Schedule) (gs : list Goroutine) : string :=
  match firstSend gs with
  | None => EmptyString
  | Some t =>
      let first :=
        map candidateOf (List.filter (fun g => doneAt g =? t) (senders gs)) in
      nth (tie sched mod length first) first EmptyString
  end.

(** [g.Wait()] returns when every goroutine is done, with the first error
    that is not nil; [found] is closed after that. *)
Definition waitReturns (clock : Z) (gs : list Goroutine) : Z :=
  fold_right Z.max clock (map doneAt gs).

Definition waitError (gs : list Goroutine) : option error :=
  if forallb confirmedBy gs then None else Some ErrServiceNotFound.

(** The three cases of the [select], in the order of the source. *)
Inductive selectCase : Type :=
  | FoundCase (name : string)
  | TimerCase
  | ResultErrCase (err : option error).

(** The instant at which the [select] is decided and the cases that are
    ready then.  [found] can be received from once a name has been sent, or
    once the channel is closed; the timer fires 1000 ms after the call;
    [resultErr] holds a value once [g.Wait()] has returned.  A caller that
    is already waiting is woken by the first of these events: a send comes
    before the return of [g.Wait()] that follows it, and that return before
    the close of [found].  A caller that arrives later finds every case
    whose event has happened. *)
Definition readyCases (sched : Schedule) (clock : Z) (gs : list Goroutine)
    : Z * list selectCase :=
  let timerAt := clock + 1000 * Millisecond in
  let waitAt := waitReturns clock gs in
  let arrive := clock + Z.of_N (arrival sched) in
  let foundAt := match firstSend gs with Some t => t | None => waitAt end in
  let foundCase := FoundCase (sent sched gs) in
  let resultErrCase := ResultErrCase (waitError gs) in
  if arrive <? Z.min foundAt timerAt then
    (Z.min foundAt timerAt,
     match firstSend gs with
     | Some _ =>
         (if foundAt <=? timerAt then [foundCase] else [])
         ++ (if timerAt <=? foundAt then [TimerCase] else [])
     | None =>
         (if timerAt <=? waitAt then [TimerCase] else [])
         ++ (if waitAt <=? timerAt then [resultErrCase] else [])
     end)
  else
    (arrive,
     (if foundAt <=? arrive then [foundCase] else [])
     ++ (if timerAt <=? arrive then [TimerCase] else [])
     ++ (if waitAt <=? arrive then [resultErrCase] else [])).

(** The existence cache once the goroutines [gs] have stored their
    answers. *)
Definition stored (gs : list Goroutine) (cache : gmap string cacheItem)
    : gmap string cacheItem :=
  fold_left
    (fun c g =>
       match serviceExistenceCache (leaves g) !! candidateOf g with
       | Some item => <[candidateOf g := item]> c
       | None => c
       end)
    gs cache.

(** [validateCandidatesConcurrently] under a schedule: one goroutine for
    each candidate, and the [select] on [found], the timer and [resultErr].
    The run is given with the instant of the return, the cache as the
    goroutines done by then have left it (those still running store their
    answer later) and the probes sent to the init system.  The timer case
    reads [candidates[0]]. *)
Definition runRace (h : Host) (sched : Schedule) (candidates : list string)
    (clock : Z) (cache : gmap string cacheItem) : outcome RaceResult :=
  let gs := map (goroutine h clock cache) candidates in
  let '(returnAt, ready) := readyCases sched clock gs in
  let run name err :=
    {| raceName := name; raceErr := err;
       raceCache :=
         stored (List.filter (fun g => doneAt g <=? returnAt) gs) cache;
       raceElapsed := Z.to_N (returnAt - clock);
       raceProbes := flat_map (fun g => probes (leaves g)) gs |} in
  match nth_error ready (pick sched mod length ready) with
  | Some (FoundCase name) => Returns (run name None)
  | Some TimerCase =>
      match candidates with
      | [] => Panics indexOutOfRange
      | first :: _ =>
          Returns (run EmptyString (Some (ErrDiscoveryTimeout first)))
      end
  | Some (ResultErrCase err) =>
      match err with
      | Some _ => Returns (run EmptyString (Some ErrServiceNotFound))
      | None => Returns (run EmptyString (Some ErrServiceNotFound))
      end
  | None => Panics "select: no case is ready"
  end.

(** The host runs the race for these candidates in this state as the source
    does under the schedule. *)
Definition runsUnder (h : Host) (sched : Schedule) (candidates : list string)
    (s : State) : Prop :=
  runRace h sched candidates (now s) (serviceExistenceCache s)
  = Returns (race h candidates (now s) (serviceExistenceCache s)).

(** Exactly one candidate exists: the existence probe of [b] succeeds and
    that of every other candidate reports failure. *)
Definition onlyExisting (h : Host) (candidates : list string) (b : string)
    (s : State) : Prop :=
  In b candidates /\
  forall c,
    In c candidates ->
    confirmedBy (goroutine h (now s) (serviceExistenceCache s) c)
    = String.eqb c b.

(** The instant at which the probe of a candidate has answered, and the
    instant at which the last one has. *)
Definition answersAt (h : Host) (candidate : string) (s : State) : Z :=
  doneAt (goroutine h (now s) (serviceExistenceCache s) candidate).

Definition lastAnswer (h : Host) (candidates : list string) (s : State) : Z :=
  waitReturns (now s)
    (map (goroutine h (now s) (serviceExistenceCache s)) candidates).

(** The host [h] with its candidate races run under [sched]. *)
Definition withSchedule (h : Host) (sched : Schedule) : Host :=
  {| manager := manager h;
     probeLatency := probeLatency h;
     findLatency := findLatency h;
     ResourceDir := ResourceDir h;
     executeCommand := executeCommand h;
     writeFails := writeFails h;
     renameFails := renameFails h;
     jsonReadBack := jsonReadBack h;
     race := fun candidates clock cache =>
       match runRace h sched candidates clock cache with
       | Returns run => run
       | Panics _ => race h candidates clock cache
       end |}.

(** The host [h] when every existence probe takes two seconds, within the
    five that [serviceCheckTimeout] allows. *)
Definition slowProbes (h : Host) : Host :=
  {| manager := manager h;
     probeLatency := fun _ => 2000000000%N;
     findLatency := findLatency h;
     ResourceDir := ResourceDir h;
     executeCommand := executeCommand h;
     writeFails := writeFails h;
     renameFails := renameFails h;
     jsonReadBack := jsonReadBack h;
     race := race h |}.

(** The caller is in its [select] at once and takes the first ready case. *)
Definition promptCaller : Schedule := {| arrival := 0; pick := 0; tie := 0 |}.

(** The caller reaches its [select] when the goroutines that were answered
    from the cache are done, and the [select] takes the second of the ready
    cases. *)
Definition lateCaller : Schedule := {| arrival := 0; pick := 1; tie := 0 |}.

Local Close Scope Z_scope.

(** Hosts on which only "nginx" exists: the caller is prompt and a probe
    takes a millisecond; the caller is prompt and a probe takes two seconds;
    the caller is late. *)
Definition promptHost : Host := withSchedule (sysvHost ["nginx"]) promptCaller.

Definition slowHost : Host :=
  withSchedule (slowProbes (sysvHost ["nginx"])) promptCaller.

Definition lateHost : Host := withSchedule (sysvHost ["nginx"]) lateCaller.

(** The state of a process that has just probed "nginx" and "httpd": both
    answers are in the existence cache, for 30 seconds. *)
Definition bothCached : State :=
  snd (confirmServiceExists lateHost "httpd"
         (snd (confirmServiceExists lateHost "nginx" (processStart 0 ∅)))).

(** ** Package [strings]: facts about the model *)

Lemma append_cons (c : ascii) (a b : string) :
  String c a +:+ b = String c (a +:+ b).
Proof. reflexivity. Qed.

Lemma append_empty_r (s : string) : s +:+ EmptyString = s.
Proof.
  induction s as [|c s IH]; [reflexivity|]. now rewrite append_cons, IH.
Qed.

Lemma append_assoc (a b c : string) : (a +:+ b) +:+ c = a +:+ (b +:+ c).
Proof.
  induction a as [|x a IH]; [reflexivity|]. now rewrite !append_cons, IH.
Qed.

Lemma length_append (a b : string) :
  String.length (a +:+ b) = String.length a + String.length b.
Proof.
  induction a as [|x a IH]; [reflexivity|].
  rewrite append_cons. cbn [String.length]. now rewrite IH.
Qed.

Lemma CutSuffix_unfold (s suffix : string) :
  CutSuffix s suffix =
  if String.eqb s suffix then Some EmptyString
  else match s with
       | EmptyString => None
       | String c s' =>
           match CutSuffix s' suffix with
           | Some before => Some (String c before)
           | None => None
           end
       end.
Proof. destruct s; reflexivity. Qed.

Lemma CutSuffix_sound (s suffix before : string) :
  CutSuffix s suffix = Some before -> s = before +:+ suffix.
Proof.
  revert before; induction s as [|c s IH]; intros before;
    rewrite CutSuffix_unfold.
  - destruct (String.eqb_spec EmptyString suffix) as [<-|_]; [|discriminate].
    now intros [= <-].
  - destruct (String.eqb_spec (String c s) suffix) as [<-|_].
    + now intros [= <-].
    + destruct (CutSuffix s suffix) as [b|] eqn:E; [|discriminate].
      intros [= <-]. rewrite append_cons. now rewrite (IH b eq_refl).
Qed.

Lemma CutSuffix_complete (stem suffix : string) :
  CutSuffix (stem +:+ suffix) suffix = Some stem.
Proof.
  induction stem as [|c stem IH]; rewrite CutSuffix_unfold.
  - change (EmptyString +:+ suffix) with suffix. now rewrite String.eqb_refl.
  - destruct (String.eqb_spec (String c stem +:+ suffix) suffix) as [E|_].
    + apply (f_equal String.length) in E. rewrite length_append in E.
      cbn [String.length] in E. lia.
    + rewrite append_cons. now rewrite IH.
Qed.

Lemma HasSuffix_endsWith (s suffix : string) :
  HasSuffix s suffix = true <-> endsWith s suffix.
Proof.
  unfold HasSuffix, endsWith. split.
  - destruct (CutSuffix s suffix) as [b|] eqn:E; [|discriminate].
    intros _. exists b. now apply CutSuffix_sound.
  - intros [stem ->]. now rewrite CutSuffix_complete.
Qed.

Lemma HasSuffix_false (s suffix : string) :
  HasSuffix s suffix = false <-> ~ endsWith s suffix.
Proof.
  rewrite <- HasSuffix_endsWith. destruct (HasSuffix s suffix); split;
    intros H; try reflexivity; try discriminate; try (now intros ?).
  now exfalso.
Qed.

Lemma TrimSuffix_app (stem suffix : string) :
  TrimSuffix (stem +:+ suffix) suffix = stem.
Proof. unfold TrimSuffix. now rewrite CutSuffix_complete. Qed.

Lemma TrimSuffix_none (s suffix : string) :
  HasSuffix s suffix = false -> TrimSuffix s suffix = s.
Proof.
  unfold HasSuffix, TrimSuffix. now destruct (CutSuffix s suffix).
Qed.

Lemma append_inj_l (a b suffix : string) :
  a +:+ suffix = b +:+ suffix -> a = b.
Proof.
  intros E. pose proof (CutSuffix_complete a suffix) as Ha.
  rewrite E, CutSuffix_complete in Ha. congruence.
Qed.

Lemma lastByte_append (a : string) (c : ascii) (b : string) :
  lastByte (a +:+ String c b) = lastByte (String c b).
Proof.
  induction a as [|x a IH]; [reflexivity|].
  rewrite append_cons.
  destruct (a +:+ String c b) eqn:E.
  - destruct a; discriminate.
  - rewrite <- IH. reflexivity.
Qed.

Lemma toLowerByte_idem (c : ascii) : toLowerByte (toLowerByte c) = toLowerByte c.
Proof.
  unfold toLowerByte at 2 3. destruct (isUpper c) eqn:U.
  - unfold toLowerByte, isUpper in *.
    apply andb_true_iff in U as [U1 U2].
    apply Nat.leb_le in U1, U2.
    rewrite nat_ascii_embedding by lia.
    replace (Nat.leb (nat_of_ascii c + 32) 90) with false
      by (symmetry; apply Nat.leb_gt; lia).
    now rewrite andb_false_r.
  - unfold toLowerByte. now rewrite U.
Qed.

Lemma ToLower_idem (s : string) : ToLower (ToLower s) = ToLower s.
Proof.
  induction s as [|c s IH]; simpl; [reflexivity|].
  now rewrite toLowerByte_idem, IH.
Qed.

Lemma ToLower_append (a b : string) :
  ToLower (a +:+ b) = ToLower a +:+ ToLower b.
Proof.
  induction a as [|x a IH]; [reflexivity|].
  rewrite append_cons. cbn [ToLower]. now rewrite IH, append_cons.
Qed.

Lemma ToLower_empty (s : string) : ToLower s = EmptyString -> s = EmptyString.
Proof. now destruct s. Qed.

(** A string is in lower case when its two parts are. *)
Lemma lower_append (a b : string) :
  ToLower (a +:+ b) = a +:+ b <-> ToLower a = a /\ ToLower b = b.
Proof.
  induction a as [|x a IH].
  - change (EmptyString +:+ b) with b. cbn [ToLower]. tauto.
  - rewrite append_cons. cbn [ToLower]. split.
    + intros [= Hx Hab]. apply IH in Hab as [Ha Hb]. now rewrite Hx, Ha.
    + intros [[= Hx Ha] Hb]. rewrite Hx. f_equal. apply IH. now split.
Qed.

Lemma EqualFold_empty_l (t : string) : EqualFold EmptyString t = true -> t = EmptyString.
Proof. now destruct t. Qed.

Lemma Contains_unfold (s substr : string) :
  Contains s substr =
  HasPrefix s substr ||
  match s with EmptyString => false | String _ s' => Contains s' substr end.
Proof. destruct s; reflexivity. Qed.

Lemma Contains_empty_l (substr : string) :
  Contains EmptyString substr = true -> substr = EmptyString.
Proof. now destruct substr. Qed.

Lemma nat_of_ascii_inj (a b : ascii) : nat_of_ascii a = nat_of_ascii b -> a = b.
Proof.
  intros E. rewrite <- (ascii_nat_embedding a), <- (ascii_nat_embedding b).
  now rewrite E.
Qed.

Lemma nat_of_toLowerByte (c : ascii) :
  nat_of_ascii (toLowerByte c)
  = if isUpper c then nat_of_ascii c + 32 else nat_of_ascii c.
Proof.
  unfold toLowerByte. destruct (isUpper c) eqn:U; [|reflexivity].
  unfold isUpper in U. apply andb_true_iff in U as [U1 U2].
  apply Nat.leb_le in U1, U2. apply nat_ascii_embedding. lia.
Qed.

Lemma foldEq_lower (a b : ascii) :
  foldEq a b = Ascii.eqb (toLowerByte a) (toLowerByte b).
Proof.
  pose proof (nat_of_toLowerByte a) as La.
  pose proof (nat_of_toLowerByte b) as Lb.
  unfold foldEq, isUpper in *.
  destruct (Ascii.eqb_spec b a) as [->|Hne].
  - symmetry. apply Ascii.eqb_refl.
  - assert (Hn : nat_of_ascii a <> nat_of_ascii b)
      by (intros E; apply Hne; symmetry; now apply nat_of_ascii_inj).
    destruct (Ascii.eqb_spec (toLowerByte a) (toLowerByte b)) as [E|E].
    + apply (f_equal nat_of_ascii) in E. rewrite La, Lb in E.
      destruct (Nat.leb_spec 65 (nat_of_ascii a)), (Nat.leb_spec (nat_of_ascii a) 90),
        (Nat.leb_spec 65 (nat_of_ascii b)), (Nat.leb_spec (nat_of_ascii b) 90);
        cbn [andb] in E;
        repeat (apply andb_true_iff; split);
        try (apply Nat.leb_le); try (apply Nat.eqb_eq); lia.
    + apply not_true_is_false. intros T.
      apply andb_true_iff in T as [T T3]. apply andb_true_iff in T as [T1 T2].
      apply Nat.leb_le in T1, T2. apply Nat.eqb_eq in T3.
      apply E. apply nat_of_ascii_inj. rewrite La, Lb.
      destruct (Nat.leb_spec 65 (nat_of_ascii a)), (Nat.leb_spec (nat_of_ascii a) 90),
        (Nat.leb_spec 65 (nat_of_ascii b)), (Nat.leb_spec (nat_of_ascii b) 90);
        cbn [andb]; lia.
Qed.

(** On the modelled bytes [EqualFold] is equality of the lower-cased
    strings. *)
Lemma EqualFold_lower (s t : string) :
  EqualFold s t = String.eqb (ToLower s) (ToLower t).
Proof.
  revert t. induction s as [|a s IH]; intros [|b t]; cbn [EqualFold ToLower String.eqb];
    try reflexivity.
  now rewrite foldEq_lower, IH.
Qed.

(** ** Best-match selection *)

Lemma exactLoop_default (keyword : string) (candidates : list string)
    (d : string) :
  ~ someExact keyword candidates -> exactLoop keyword candidates d = d.
Proof.
  induction candidates as [|c rest IH]; intros Hno; [reflexivity|].
  cbn [exactLoop]. destruct (EqualFold c keyword) eqn:E.
  - exfalso. apply Hno. exists c. split; [now left | assumption].
  - apply IH. intros (x & Hx & Ex). apply Hno. exists x.
    split; [now right | assumption].
Qed.

Lemma exactLoop_hit (keyword : string) (candidates : list string)
    (d : string) :
  someExact keyword candidates ->
  In (exactLoop keyword candidates d) candidates /\
  EqualFold (exactLoop keyword candidates d) keyword = true.
Proof.
  induction candidates as [|c rest IH]; intros (x & Hx & Ex).
  - destruct Hx.
  - cbn [exactLoop]. destruct (EqualFold c keyword) eqn:E.
    + split; [now left | assumption].
    + destruct Hx as [->|Hx]; [congruence|].
      destruct IH as [Hin Hfold]; [now exists x|].
      split; [now right | assumption].
Qed.

Lemma containLoop_default (needle : string) (candidates : list string)
    (d : string) :
  (forall m, In m candidates -> Contains (ToLower m) needle = false) ->
  containLoop needle candidates d = d.
Proof.
  induction candidates as [|c rest IH]; intros Hno; [reflexivity|].
  cbn [containLoop]. rewrite (Hno c) by now left.
  apply IH. intros m Hm. apply Hno. now right.
Qed.

Lemma containLoop_first (needle : string) (candidates : list string)
    (d n : string) :
  firstContaining needle candidates n -> containLoop needle candidates d = n.
Proof.
  intros (before & after & -> & Hn & Hbefore).
  induction before as [|b before IH]; cbn [app containLoop].
  - now rewrite Hn.
  - rewrite (Hbefore b) by now left.
    apply IH. intros m Hm. apply Hbefore. now right.
Qed.

Lemma eqb_empty_false (s : string) :
  s <> EmptyString -> String.eqb s EmptyString = false.
Proof. intros H. now apply String.eqb_neq. Qed.

(** C1 (as amended).  Whenever the keyword is not empty or no candidate is
    the empty name, [selectBestMatch] returns an error on an empty list, a
    case-insensitive exact match of the keyword when the list has one,
    otherwise the first candidate in list order whose lower-cased name
    contains the lower-cased keyword, and otherwise the "no exact or partial
    match" error. *)
Theorem selectBestMatch_best (keyword : string) (candidates : list string) :
  keyword <> EmptyString \/ ~ In EmptyString candidates ->
  bestMatch (ToLower keyword) keyword candidates
    (selectBestMatch keyword candidates).
Proof.
  intros Hne.
  assert (Hexact : forall n, In n candidates -> EqualFold n keyword = true ->
                             n <> EmptyString).
  { intros n Hin Hfold ->. apply EqualFold_empty_l in Hfold.
    destruct Hne as [Hk|Hc]; [now apply Hk | now apply Hc]. }
  assert (Hcont : forall n, In n candidates ->
                    Contains (ToLower n) (ToLower keyword) = true ->
                    n <> EmptyString).
  { intros n Hin Hc ->. apply Contains_empty_l, ToLower_empty in Hc.
    destruct Hne as [Hk|Hn]; [now apply Hk | now apply Hn]. }
  unfold bestMatch. split; [|split; [|split]].
  - intros ->. reflexivity.
  - intros H. unfold selectBestMatch.
    destruct candidates as [|c0 rest].
    { destruct H as (c & [] & _). }
    cbn [length Nat.eqb].
    destruct (exactLoop_hit keyword (c0 :: rest) EmptyString H) as [Hin Hfold].
    rewrite (eqb_empty_false _ (Hexact _ Hin Hfold)). cbn [negb fst snd].
    repeat split; assumption.
  - intros Hno n Hfirst. unfold selectBestMatch.
    assert (Hin : In n candidates).
    { destruct Hfirst as (b & a & -> & _). apply in_or_app. right. now left. }
    destruct candidates as [|c0 rest]; [destruct Hin|]. cbn [length Nat.eqb].
    rewrite (exactLoop_default _ _ _ Hno). cbn [String.eqb negb].
    rewrite (containLoop_first _ _ EmptyString n Hfirst).
    destruct Hfirst as (_ & _ & _ & Hn & _).
    now rewrite (eqb_empty_false _ (Hcont _ Hin Hn)).
  - intros Hnil Hno Hnone. unfold selectBestMatch.
    destruct candidates as [|c0 rest]; [congruence|]. cbn [length Nat.eqb].
    rewrite (exactLoop_default _ _ _ Hno). cbn [String.eqb negb].
    now rewrite (containLoop_default _ _ _ Hnone).
Qed.

(** Both orders of the discovered names of the specification's example:
    the first name in list order wins. *)
Lemma selectBestMatch_best_witness :
  ("docker" <> EmptyString \/ ~ In EmptyString ["dockerd"; "docker.service"]) /\
  selectBestMatch "docker" ["dockerd"; "docker.service"] = ("dockerd", None) /\
  selectBestMatch "docker" ["docker.service"; "dockerd"]
    = ("docker.service", None).
Proof.
  assert (Hne : forall l : list string, "docker" <> EmptyString \/ ~ In EmptyString l)
    by (intros l; left; discriminate).
  assert (Hno : forall l : list string,
            forallb (fun c => negb (EqualFold c "docker")) l = true ->
            ~ someExact "docker" l).
  { intros l Hall (c & Hc & Ec).
    rewrite forallb_forall in Hall. specialize (Hall c Hc).
    now rewrite Ec in Hall. }
  split; [apply Hne|]. split.
  - destruct (selectBestMatch_best "docker" ["dockerd"; "docker.service"]
                (Hne _)) as (_ & _ & Hfirst & _).
    apply Hfirst; [now apply Hno|].
    exists [], ["docker.service"]. repeat split. intros m [].
  - destruct (selectBestMatch_best "docker" ["docker.service"; "dockerd"]
                (Hne _)) as (_ & _ & Hfirst & _).
    apply Hfirst; [now apply Hno|].
    exists [], ["dockerd"]. repeat split. intros m [].
Defined.

(** C1 as worded fails twice.  With the empty keyword the empty name is an
    exact match, yet ["a"] is returned; and a keyword with an upper-case
    letter is found in a lower-cased name that does not contain it. *)
Lemma selectBestMatch_as_worded_fails :
  ~ bestMatch "" "" ["a"; ""] (selectBestMatch "" ["a"; ""]) /\
  ~ bestMatch "Docker" "Docker" ["docker.service"]
      (selectBestMatch "Docker" ["docker.service"]).
Proof.
  split.
  - intros (_ & Hexact & _).
    destruct Hexact as (_ & _ & Hfold).
    + exists EmptyString. split; [right; now left | reflexivity].
    + discriminate Hfold.
  - intros (_ & _ & _ & Hnone).
    assert (E : selectBestMatch "Docker" ["docker.service"]
                = (EmptyString, Some (ErrNoValidService "Docker"))).
    { apply Hnone.
      - discriminate.
      - intros (c & [<-|[]] & Ec). discriminate Ec.
      - intros m [<-|[]]. reflexivity. }
    discriminate E.
Qed.

(** ** Naming normalisation *)

Lemma socket_not_service (stem : string) :
  HasSuffix (stem +:+ ".socket") ".service" = false.
Proof.
  apply HasSuffix_false. intros [a E].
  apply (f_equal lastByte) in E.
  rewrite !lastByte_append in E. discriminate E.
Qed.

Lemma lower_stem (s stem suffix : string) :
  ToLower s = s -> s = stem +:+ suffix -> ToLower stem = stem.
Proof. intros Hs ->. now apply lower_append in Hs. Qed.

(** The keyword once lower-cased ends in ".service.socket". *)
Lemma handleServiceNaming_socket (mgr : ServiceManager) (keyword stem : string) :
  ToLower keyword = stem +:+ ".service.socket" ->
  handleServiceNaming mgr keyword = stem +:+ ".socket".
Proof.
  intros E. unfold handleServiceNaming. rewrite E.
  replace (HasSuffix (stem +:+ ".service.socket") ".service.socket") with true
    by (symmetry; apply HasSuffix_endsWith; now exists stem).
  rewrite TrimSuffix_app.
  destruct (negb (String.eqb (Name mgr) "systemd")).
  - apply TrimSuffix_none, socket_not_service.
  - replace (HasSuffix (stem +:+ ".socket") ".socket") with true
      by (symmetry; apply HasSuffix_endsWith; now exists stem).
    now rewrite andb_false_r.
Qed.

Lemma handleServiceNaming_plain (mgr : ServiceManager) (keyword : string) :
  HasSuffix (ToLower keyword) ".service.socket" = false ->
  handleServiceNaming mgr keyword =
  if String.eqb (Name mgr) "systemd"
  then if HasSuffix (ToLower keyword) ".service" ||
          HasSuffix (ToLower keyword) ".socket"
       then ToLower keyword
       else ToLower keyword +:+ ".service"
  else TrimSuffix (ToLower keyword) ".service".
Proof.
  intros E. unfold handleServiceNaming. rewrite E.
  destruct (String.eqb (Name mgr) "systemd"); cbn [negb]; [|reflexivity].
  now destruct (HasSuffix (ToLower keyword) ".service"),
               (HasSuffix (ToLower keyword) ".socket").
Qed.

(** C2.  [handleServiceNaming] works on the lower-cased keyword [k] and its
    result [r] is in lower case; a trailing ".service.socket" of [k] becomes
    ".socket"; under systemd [r] ends in ".service" or ".socket", being [k]
    itself when [k] already ends so and [k] with ".service" appended
    otherwise; under any other manager a ".service" suffix of [k] is
    stripped and a [k] without it is returned as it is. *)
Theorem handleServiceNaming_normalizes (mgr : ServiceManager) (keyword : string) :
  let k := ToLower keyword in
  let r := handleServiceNaming mgr keyword in
  ToLower r = r /\
  (forall stem, k = stem +:+ ".service.socket" -> r = stem +:+ ".socket") /\
  (Name mgr = "systemd" ->
     (endsWith r ".service" \/ endsWith r ".socket") /\
     (~ endsWith k ".service.socket" ->
        (endsWith k ".service" \/ endsWith k ".socket" -> r = k) /\
        (~ endsWith k ".service" -> ~ endsWith k ".socket" ->
           r = k +:+ ".service"))) /\
  (Name mgr <> "systemd" ->
     ~ endsWith k ".service.socket" ->
     (forall stem, k = stem +:+ ".service" -> r = stem) /\
     (~ endsWith k ".service" -> r = k)).
Proof.
  intros k r. subst r.
  assert (Hk : ToLower k = k) by apply ToLower_idem.
  destruct (HasSuffix k ".service.socket") eqn:Hss.
  - (* the socket rewrite applies *)
    apply HasSuffix_endsWith in Hss as Hends. destruct Hends as [stem0 E0].
    rewrite (handleServiceNaming_socket mgr keyword stem0 E0).
    split; [|split; [|split]].
    + apply lower_append. split; [|reflexivity].
      exact (lower_stem k stem0 _ Hk E0).
    + intros stem E. f_equal. apply (append_inj_l _ _ ".service.socket").
      now rewrite <- E0, <- E.
    + intros _. split.
      * right. now exists stem0.
      * intros Hno. exfalso. apply Hno. now exists stem0.
    + intros _ Hno. exfalso. apply Hno. now exists stem0.
  - rewrite (handleServiceNaming_plain mgr keyword Hss). fold k.
    apply HasSuffix_false in Hss.
    split; [|split; [|split]].
    + destruct (String.eqb (Name mgr) "systemd").
      * destruct (HasSuffix k ".service" || HasSuffix k ".socket");
          [exact Hk|].
        apply lower_append. now split.
      * destruct (HasSuffix k ".service") eqn:Hsvc.
        -- apply HasSuffix_endsWith in Hsvc as [stem E].
           rewrite E at 1 2. rewrite TrimSuffix_app.
           exact (lower_stem k stem _ Hk E).
        -- now rewrite TrimSuffix_none.
    + intros stem E. exfalso. apply Hss. now exists stem.
    + intros Hsys. rewrite Hsys, String.eqb_refl.
      destruct (HasSuffix k ".service") eqn:Hsvc;
        destruct (HasSuffix k ".socket") eqn:Hsock; cbn [orb].
      * apply HasSuffix_endsWith in Hsvc. split; [now left|]. intros _.
        split; [reflexivity | intros Hn; now destruct Hn].
      * apply HasSuffix_endsWith in Hsvc. split; [now left|]. intros _.
        split; [reflexivity | intros Hn; now destruct Hn].
      * apply HasSuffix_endsWith in Hsock. split; [now right|]. intros _.
        split; [reflexivity | intros _ Hn; now destruct Hn].
      * apply HasSuffix_false in Hsvc, Hsock.
        split; [left; now exists k|]. intros _.
        split; [intros [H|H]; now exfalso | reflexivity].
    + intros Hsys _.
      replace (String.eqb (Name mgr) "systemd") with false
        by (symmetry; now apply String.eqb_neq).
      split.
      * intros stem E. rewrite E. apply TrimSuffix_app.
      * intros Hn. apply TrimSuffix_none. now apply HasSuffix_false.
Qed.

(** ** Existence cache *)

Local Open Scope Z_scope.

Lemma IsExists_default (h : Host) (name : string) (s : State) :
  IsExists h (NewServiceHandler h (defaultServiceConfig h name)) s
  = ((existsOnHost h name, None), afterProbe h name s).
Proof.
  unfold IsExists, commonServiceExists, NewServiceHandler, defaultServiceConfig,
    getManagerName, existsOnHost, afterProbe, reachesHost.
  cbn [config].
  destruct (String.eqb (Name (manager h)) EmptyString) eqn:Hm; cbn [negb andb].
  - rewrite lookup_empty. reflexivity.
  - rewrite lookup_singleton_eq. cbn [default from_option id].
    destruct (String.eqb name EmptyString); cbn [negb]; [reflexivity|].
    destruct (checkFn (manager h) name) as [found [e|]]; reflexivity.
Qed.

Lemma probeAndStore_eq (h : Host) (name : string) (s : State) :
  probeAndStore h name s
  = ((existsOnHost h name, None),
     setExistenceCache
       (<[name := {| services := [];
                     expires := now (afterProbe h name s) + 30 * Second;
                     exists_ := existsOnHost h name |}]>
          (serviceExistenceCache (afterProbe h name s)))
       (afterProbe h name s)).
Proof. unfold probeAndStore. now rewrite IsExists_default. Qed.

Lemma afterProbe_cache (h : Host) (name : string) (s : State) :
  serviceExistenceCache (afterProbe h name s) = serviceExistenceCache s.
Proof. unfold afterProbe. now destruct (reachesHost h name). Qed.

Lemma afterProbe_aliases (h : Host) (name : string) (s : State) :
  serviceAliases (afterProbe h name s) = serviceAliases s.
Proof. unfold afterProbe. now destruct (reachesHost h name). Qed.

Lemma afterProbe_now (h : Host) (name : string) (s : State) :
  now s <= now (afterProbe h name s).
Proof.
  unfold afterProbe. destruct (reachesHost h name); cbn [now probed]; lia.
Qed.

(** C8.  An entry of the existence cache that has not expired is returned
    as it is, with no probe and no change of state.  With no entry, or with
    one whose expiry is not after the present instant, the stored value is
    not used: the answer is that of a new probe of the host, the probe is
    recorded when it reaches the init system, and the answer, positive or
    negative, is stored with an expiry 30 seconds after the instant of the
    store. *)
Theorem confirmServiceExists_ttl (h : Host) (name : string) (s : State) :
  (forall item,
     serviceExistenceCache s !! name = Some item -> now s < expires item ->
     confirmServiceExists h name s = ((exists_ item, None), s)) /\
  ((serviceExistenceCache s !! name = None \/
    exists item, serviceExistenceCache s !! name = Some item /\
                 expires item <= now s) ->
   exists s',
     confirmServiceExists h name s = ((existsOnHost h name, None), s') /\
     serviceExistenceCache s' !! name
       = Some {| services := []; expires := now s' + 30 * Second;
                 exists_ := existsOnHost h name |} /\
     now s <= now s' /\
     probes s' = (if reachesHost h name then name :: probes s else probes s)).
Proof.
  split.
  - intros item Hitem Hfresh. unfold confirmServiceExists. rewrite Hitem.
    now replace (now s <? expires item) with true
      by (symmetry; apply Z.ltb_lt; lia).
  - intros Hmiss.
    assert (E : confirmServiceExists h name s
                = probeAndStore h name
                    (setExistenceCache
                       (delete name (serviceExistenceCache s)) s)
                \/ confirmServiceExists h name s = probeAndStore h name s).
    { unfold confirmServiceExists.
      destruct Hmiss as [Hnone|(item & Hitem & Hexp)].
      - right. now rewrite Hnone.
      - left. rewrite Hitem.
        now replace (now s <? expires item) with false
          by (symmetry; apply Z.ltb_ge; lia). }
    destruct E as [E|E]; rewrite E, probeAndStore_eq; eexists;
      (split; [reflexivity|]);
      cbn [serviceExistenceCache setExistenceCache now probes];
      rewrite lookup_insert_eq; (split; [reflexivity|]);
      unfold afterProbe; destruct (reachesHost h name);
      cbn [probed setExistenceCache now probes]; (split; [lia | reflexivity]).
Qed.

(** ** Discovery cache *)

Lemma discoverServices_miss (h : Host) (keyword : string) (s : State) :
  (discoveryCache s !! keyword = None \/
   exists item, discoveryCache s !! keyword = Some item /\
                expires item <= now s) ->
  discoverServices h keyword s
  = enumerateAndStore h keyword
      (setDiscoveryCache (delete keyword (discoveryCache s)) s).
Proof.
  unfold discoverServices. intros [Hnone|(item & Hitem & Hexp)].
  - rewrite Hnone. rewrite delete_id by assumption. now destruct s.
  - rewrite Hitem.
    now replace (now s <? expires item) with false
      by (symmetry; apply Z.ltb_ge; lia).
Qed.

(** C5.  A cached enumeration that has not expired is returned with no
    call of [FindServices] and no change of state.  Otherwise [FindServices]
    is called once; when it succeeds its result is returned and stored with
    an expiry five minutes after the store; when it fails an error wrapping
    the manager's error is returned and the discovery cache holds no entry
    for the keyword and nothing new for any other. *)
Theorem discoverServices_cache_policy (h : Host) (keyword : string) (s : State) :
  (forall item,
     discoveryCache s !! keyword = Some item -> now s < expires item ->
     discoverServices h keyword s = ((services item, None), s)) /\
  ((discoveryCache s !! keyword = None \/
    exists item, discoveryCache s !! keyword = Some item /\
                 expires item <= now s) ->
   (forall results,
      FindServices (manager h) keyword = (results, None) ->
      exists s',
        discoverServices h keyword s = ((results, None), s') /\
        discoveryCache s' !! keyword
          = Some {| services := results; expires := now s' + 5 * Minute;
                    exists_ := false |} /\
        enumerations s' = keyword :: enumerations s) /\
   (forall results e,
      FindServices (manager h) keyword = (results, Some e) ->
      exists s',
        discoverServices h keyword s
          = (([], Some (ErrServiceDiscovery keyword e)), s') /\
        discoveryCache s' = delete keyword (discoveryCache s) /\
        enumerations s' = keyword :: enumerations s)).
Proof.
  split.
  - intros item Hitem Hfresh. unfold discoverServices. rewrite Hitem.
    now replace (now s <? expires item) with true
      by (symmetry; apply Z.ltb_lt; lia).
  - intros Hmiss. rewrite (discoverServices_miss h keyword s Hmiss).
    unfold enumerateAndStore. split.
    + intros results Hfind. rewrite Hfind. eexists. split; [reflexivity|].
      cbn [discoveryCache setDiscoveryCache enumerated now enumerations].
      now rewrite lookup_insert_eq.
    + intros results e Hfind. rewrite Hfind. eexists. split; [reflexivity|].
      cbn [discoveryCache setDiscoveryCache enumerated enumerations].
      split; reflexivity.
Qed.

(** ** Alias table *)

Lemma contains_In (slice : list string) (item : string) :
  contains slice item = true <-> In item slice.
Proof.
  induction slice as [|x rest IH]; cbn [contains In].
  - split; [discriminate | intros []].
  - destruct (String.eqb_spec x item) as [->|Hne].
    + split; [now left | reflexivity].
    + rewrite IH. split; [now right | intros [E|Hin]; [congruence | assumption]].
Qed.

Lemma contains_false (slice : list string) (item : string) :
  contains slice item = false <-> ~ In item slice.
Proof.
  rewrite <- contains_In. destruct (contains slice item); split; intros H;
    try reflexivity; try discriminate; try (now intros ?).
  now exfalso.
Qed.

(** What one call does to the table. *)
Lemma updateAliases_table (h : Host) (keyword alias : string) (s : State) :
  serviceAliases (updateAliases h keyword alias s)
  = if String.eqb keyword alias then serviceAliases s
    else
      match serviceAliases s !! keyword with
      | Some aliases =>
          if contains aliases alias then serviceAliases s
          else <[keyword := aliases ++ [alias]]> (serviceAliases s)
      | None => <[keyword := [alias]]> (serviceAliases s)
      end.
Proof.
  unfold updateAliases, LoadOrStore.
  destruct (String.eqb keyword alias); [reflexivity|].
  destruct (serviceAliases s !! keyword) as [aliases|] eqn:E.
  - destruct (contains aliases alias); [now destruct s | reflexivity].
  - cbn [contains scheduleSave setAliases serviceAliases app].
    now rewrite insert_insert_eq.
Qed.

Lemma updateAliases_keeps (h : Host) (keyword alias : string) (s : State) :
  aliasInvariant (serviceAliases s) ->
  aliasInvariant (serviceAliases (updateAliases h keyword alias s)).
Proof.
  intros Hinv. rewrite updateAliases_table.
  destruct (String.eqb_spec keyword alias) as [_|Hne]; [assumption|].
  destruct (serviceAliases s !! keyword) as [aliases|] eqn:E.
  - destruct (contains aliases alias) eqn:C; [assumption|].
    apply contains_false in C. destruct (Hinv keyword aliases E) as [Hnd Hk].
    intros k l. rewrite lookup_insert. case_decide as Hk'.
    + subst k. intros [= <-]. split.
      * apply List.NoDup_app; [assumption | |].
        -- constructor; [intros [] | constructor].
        -- intros x Hx [->|[]]. contradiction.
      * intros Hin. apply in_app_or in Hin as [Hin|[Hin|[]]];
          [contradiction | congruence].
    + apply Hinv.
  - intros k l. rewrite lookup_insert. case_decide as Hk'.
    + subst k. intros [= <-].
      split; [constructor; [intros [] | constructor]|].
      intros [Hin|[]]. congruence.
    + apply Hinv.
Qed.

(** C10.  From a table in which no list has a duplicate or holds its own
    keyword, any sequence of [updateAliases] calls leads to such a table;
    one call leaves the state as it is when the alias is the keyword or is
    already listed, and otherwise changes the table only by appending that
    alias to the list of the keyword. *)
Theorem updateAliases_invariant (h : Host) (s : State) :
  aliasInvariant (serviceAliases s) ->
  (forall calls, aliasInvariant (serviceAliases (updateAll h calls s))) /\
  (forall keyword, updateAliases h keyword keyword s = s) /\
  (forall keyword alias aliases,
     serviceAliases s !! keyword = Some aliases -> In alias aliases ->
     updateAliases h keyword alias s = s) /\
  (forall keyword alias,
     keyword <> alias ->
     ~ In alias (default [] (serviceAliases s !! keyword)) ->
     serviceAliases (updateAliases h keyword alias s)
     = <[keyword := default [] (serviceAliases s !! keyword) ++ [alias]]>
         (serviceAliases s)).
Proof.
  intros Hinv. split; [|split; [|split]].
  - intros calls. revert s Hinv.
    induction calls as [|[keyword alias] rest IH]; intros s Hinv;
      cbn [updateAll]; [assumption|].
    apply IH. now apply updateAliases_keeps.
  - intros keyword. unfold updateAliases. now rewrite String.eqb_refl.
  - intros keyword alias aliases E Hin. unfold updateAliases, LoadOrStore.
    destruct (String.eqb keyword alias); [reflexivity|].
    rewrite E. apply contains_In in Hin. rewrite Hin. now destruct s.
  - intros keyword alias Hne Hnot. rewrite updateAliases_table.
    replace (String.eqb keyword alias) with false
      by (symmetry; now apply String.eqb_neq).
    destruct (serviceAliases s !! keyword) as [aliases|]; cbn [default from_option id] in *.
    + apply contains_false in Hnot. now rewrite Hnot.
    + reflexivity.
Qed.

Local Close Scope Z_scope.

(** ** Status parsing *)

(** C6 (as amended).  In the SysV parser an output containing "not found"
    gives [active = false] with no error, an output containing "no such file
    or directory" gives [enabled = false] with no error, and the "enabled"
    answer is never an error; in the systemd parser "could not be found",
    and in the OpenRC parser "does not exist", give a clean [false] for
    every status kind. *)
Theorem ParseStatus_markers (m : Managers.baseManager) (output : string) :
  (Contains output "not found" = true ->
   Managers.sysvinitParseStatus m output "active" = (false, None)) /\
  (Contains output "no such file or directory" = true ->
   Managers.sysvinitParseStatus m output "enabled" = (false, None)) /\
  snd (Managers.sysvinitParseStatus m output "enabled") = None /\
  (Contains output "could not be found" = true ->
   forall statusType,
     Managers.systemdParseStatus m output statusType = (false, None)) /\
  (Contains output "does not exist" = true ->
   forall statusType,
     Managers.openrcParseStatus m output statusType = (false, None)).
Proof.
  split; [|split; [|split; [|split]]].
  - intros H. unfold Managers.sysvinitParseStatus. cbn [String.eqb Ascii.eqb].
    cbv beta iota. now rewrite H.
  - intros H. unfold Managers.sysvinitParseStatus. cbn [String.eqb Ascii.eqb].
    cbv beta iota. now rewrite H.
  - unfold Managers.sysvinitParseStatus. cbn [String.eqb Ascii.eqb].
    cbv beta iota.
    now destruct (Contains output "no such file or directory").
  - intros H statusType. unfold Managers.systemdParseStatus. now rewrite H.
  - intros H statusType. unfold Managers.openrcParseStatus. now rewrite H.
Qed.

(** C6 as worded fails: "nginx: not found" carries the marker and is parsed
    as enabled. *)
Lemma sysvinit_marker_not_clean :
  ~ (forall m output, sysvMarker output -> sysvCleanFalse m output).
Proof.
  intros H.
  destruct (H sysvinit "nginx: not found") as [_ Henabled].
  - left. reflexivity.
  - vm_compute in Henabled. discriminate Henabled.
Qed.

(** The other half: "no such file or directory" carries the marker and the
    "active" answer is an error. *)
Example sysvinit_active_error :
  sysvMarker "ls: no such file or directory" /\
  Managers.sysvinitParseStatus sysvinit "ls: no such file or directory" "active"
  = (false, Some (ErrUnsupportedStatusType "active")).
Proof. split; [right; reflexivity | reflexivity]. Qed.

(** ** The facade *)

Lemma DefaultHandler_unresolved (h : Host) (keyword : string) (s : State) :
  snd (fst (smartServiceName h keyword s)) <> None ->
  DefaultHandler h keyword s
  = ((None, Some ErrServiceNotFound), snd (smartServiceName h keyword s)).
Proof.
  unfold DefaultHandler.
  destruct (smartServiceName h keyword s) as [[svcName [e|]] s'];
    cbn [fst snd]; [reflexivity | congruence].
Qed.

(** C9, on the code.  When the keyword does not resolve, [Start] and
    [Disable] panic on the nil handler, where [Stop], [Restart] and [Enable]
    return the "is not exist" error. *)
Theorem Start_Disable_panic_unresolved (h : Host) (keyword : string) (s : State) :
  snd (fst (smartServiceName h keyword s)) <> None ->
  Start h keyword s = Panics nilDereference /\
  Disable h keyword s = Panics nilDereference /\
  Stop h keyword s
  = Returns (Some (ErrIsNotExist keyword), snd (smartServiceName h keyword s)) /\
  Restart h keyword s
  = Returns (Some (ErrIsNotExist keyword), snd (smartServiceName h keyword s)) /\
  Enable h keyword s
  = Returns (Some (ErrIsNotExist keyword), snd (smartServiceName h keyword s)).
Proof.
  intros H. unfold Start, Disable, Stop, Restart, Enable.
  rewrite (DefaultHandler_unresolved h keyword s H).
  repeat split; reflexivity.
Qed.

Lemma Start_Disable_panic_witness :
  snd (fst (smartServiceName (sysvHost []) "nonexistent-xyz"
              (processStart 0 ∅))) <> None /\
  Start (sysvHost []) "nonexistent-xyz" (processStart 0 ∅)
  = Panics nilDereference /\
  Disable (sysvHost []) "nonexistent-xyz" (processStart 0 ∅)
  = Panics nilDereference.
Proof.
  assert (H : snd (fst (smartServiceName (sysvHost []) "nonexistent-xyz"
                          (processStart 0 ∅))) <> None)
    by (vm_compute; discriminate).
  split; [exact H|].
  destruct (Start_Disable_panic_unresolved (sysvHost []) "nonexistent-xyz"
              (processStart 0 ∅) H) as (HStart & HDisable & _).
  split; assumption.
Defined.

(** ** What probing and discovery leave alone *)

Local Open Scope Z_scope.

Lemma coherent_later (h : Host) (t t' : Z) (cache : gmap string cacheItem) :
  coherent h t cache -> t <= t' -> coherent h t' cache.
Proof.
  intros Hc Hle name item Hitem Hfresh. apply (Hc name item Hitem). lia.
Qed.

Lemma coherent_empty (h : Host) (t : Z) : coherent h t ∅.
Proof. intros name item Hitem. now rewrite lookup_empty in Hitem. Qed.

Lemma confirmServiceExists_cases (h : Host) (name : string) (s : State) :
  (exists item,
     serviceExistenceCache s !! name = Some item /\ now s < expires item /\
     confirmServiceExists h name s = ((exists_ item, None), s)) \/
  (exists s0,
     serviceAliases s0 = serviceAliases s /\ now s0 = now s /\
     (forall n, n <> name ->
        serviceExistenceCache s0 !! n = serviceExistenceCache s !! n) /\
     confirmServiceExists h name s = probeAndStore h name s0).
Proof.
  unfold confirmServiceExists.
  destruct (serviceExistenceCache s !! name) as [item|] eqn:E.
  - destruct (Z.ltb_spec (now s) (expires item)) as [Hlt|Hge].
    + left. exists item. now repeat split.
    + right.
      exists (setExistenceCache (delete name (serviceExistenceCache s)) s).
      split; [reflexivity|]. split; [reflexivity|]. split; [|reflexivity].
      intros n Hn. cbn [serviceExistenceCache setExistenceCache].
      now apply lookup_delete_ne.
  - right. exists s. now repeat split.
Qed.

Lemma confirmServiceExists_aliases (h : Host) (name : string) (s : State) :
  serviceAliases (snd (confirmServiceExists h name s)) = serviceAliases s.
Proof.
  destruct (confirmServiceExists_cases h name s)
    as [(item & _ & _ & ->)|(s0 & Ha & _ & _ & ->)]; [reflexivity|].
  rewrite probeAndStore_eq. cbn [snd serviceAliases setExistenceCache].
  now rewrite afterProbe_aliases.
Qed.

Lemma confirmServiceExists_coherent (h : Host) (name : string) (s : State) :
  coherent h (now s) (serviceExistenceCache s) ->
  fst (confirmServiceExists h name s) = (existsOnHost h name, None) /\
  coherent h (now (snd (confirmServiceExists h name s)))
    (serviceExistenceCache (snd (confirmServiceExists h name s))).
Proof.
  intros Hc.
  destruct (confirmServiceExists_cases h name s)
    as [(item & Hitem & Hfresh & ->)|(s0 & _ & Hnow & Hother & ->)].
  - cbn [fst snd]. split; [|assumption].
    now rewrite (Hc name item Hitem Hfresh).
  - rewrite probeAndStore_eq. cbn [fst snd]. split; [reflexivity|].
    cbn [serviceExistenceCache setExistenceCache now].
    intros n item. rewrite lookup_insert. case_decide as Hn.
    + subst n. now intros [= <-].
    + rewrite afterProbe_cache, (Hother n) by congruence.
      intros Hitem Hfresh. apply (Hc n item Hitem).
      pose proof (afterProbe_now h name s0). lia.
Qed.

Lemma validLoop_aliases (h : Host) (aliases valid : list string) (s : State) :
  serviceAliases (snd (validLoop h aliases valid s)) = serviceAliases s.
Proof.
  revert valid s. induction aliases as [|a rest IH]; intros valid s;
    cbn [validLoop]; [reflexivity|].
  pose proof (confirmServiceExists_aliases h a s) as Ha.
  destruct (confirmServiceExists h a s) as [[confirmed err] s1].
  cbn [snd] in Ha. now rewrite IH.
Qed.

Lemma validLoop_subset (h : Host) (aliases valid : list string) (s : State) :
  forall a, In a (fst (validLoop h aliases valid s)) ->
            In a valid \/ In a aliases.
Proof.
  revert valid s. induction aliases as [|x rest IH]; intros valid s a;
    cbn [validLoop].
  - now left.
  - destruct (confirmServiceExists h x s) as [[confirmed err] s1].
    intros Hin. apply IH in Hin as [Hin|Hin].
    + destruct confirmed; [|now left].
      apply in_app_or in Hin as [Hin|[->|[]]]; [now left|].
      right. now left.
    + right. now right.
Qed.

Lemma validLoop_coherent (h : Host) (aliases valid : list string) (s : State) :
  coherent h (now s) (serviceExistenceCache s) ->
  fst (validLoop h aliases valid s)
  = valid ++ List.filter (existsOnHost h) aliases /\
  coherent h (now (snd (validLoop h aliases valid s)))
    (serviceExistenceCache (snd (validLoop h aliases valid s))).
Proof.
  revert valid s. induction aliases as [|a rest IH]; intros valid s Hc;
    cbn [validLoop List.filter].
  - cbn [fst snd]. now rewrite app_nil_r.
  - destruct (confirmServiceExists_coherent h a s Hc) as [Hres Hc1].
    destruct (confirmServiceExists h a s) as [[confirmed err] s1].
    cbn [fst snd] in Hres, Hc1. injection Hres as -> ->.
    destruct (IH (if existsOnHost h a then valid ++ [a] else valid) s1 Hc1)
      as [Hfst Hsnd].
    split; [|assumption]. rewrite Hfst.
    destruct (existsOnHost h a); [|reflexivity].
    now rewrite <- app_assoc.
Qed.

Lemma discoverServices_frame (h : Host) (keyword : string) (s : State) :
  serviceAliases (snd (discoverServices h keyword s)) = serviceAliases s /\
  serviceExistenceCache (snd (discoverServices h keyword s))
  = serviceExistenceCache s /\
  now s <= now (snd (discoverServices h keyword s)).
Proof.
  unfold discoverServices.
  destruct (discoveryCache s !! keyword) as [item|].
  - destruct (now s <? expires item); [cbn [snd]; repeat split; lia|].
    unfold enumerateAndStore.
    destruct (FindServices (manager h) keyword) as [results [e|]];
      cbn; repeat split; lia.
  - unfold enumerateAndStore.
    destruct (FindServices (manager h) keyword) as [results [e|]];
      cbn; repeat split; lia.
Qed.

Lemma discoverAndSelectService_aliases (h : Host) (keyword : string) (s : State) :
  serviceAliases (snd (discoverAndSelectService h keyword s))
  = serviceAliases s.
Proof.
  unfold discoverAndSelectService.
  destruct (discoverServices_frame h keyword s) as (Ha & _ & _).
  destruct (discoverServices h keyword s) as [[discovered [e|]] s1];
    cbn [snd] in *; [assumption|].
  destruct (Nat.eqb (length discovered) 0); [assumption|].
  destruct (selectBestMatch keyword discovered) as [selected [e|]];
    [assumption|].
  pose proof (confirmServiceExists_aliases h selected s1) as Hc.
  destruct (confirmServiceExists h selected s1) as [[confirmed [e|]] s2];
    cbn [snd] in *; [congruence|].
  destruct confirmed; cbn [snd]; congruence.
Qed.

Lemma discoverAndSelectService_coherent (h : Host) (keyword : string) (s : State) :
  coherent h (now s) (serviceExistenceCache s) ->
  coherent h (now (snd (discoverAndSelectService h keyword s)))
    (serviceExistenceCache (snd (discoverAndSelectService h keyword s))).
Proof.
  intros Hc. unfold discoverAndSelectService.
  destruct (discoverServices_frame h keyword s) as (_ & Hcache & Hnow).
  destruct (discoverServices h keyword s) as [[discovered err] s1].
  cbn [snd] in *.
  assert (Hc1 : coherent h (now s1) (serviceExistenceCache s1))
    by (rewrite Hcache; now apply (coherent_later h (now s))).
  destruct err as [e|]; [assumption|].
  destruct (Nat.eqb (length discovered) 0); [assumption|].
  destruct (selectBestMatch keyword discovered) as [selected [e|]];
    [assumption|].
  destruct (confirmServiceExists_coherent h selected s1 Hc1) as [_ Hc2].
  destruct (confirmServiceExists h selected s1) as [[confirmed [e|]] s2];
    cbn [snd] in *; [assumption|].
  destruct confirmed; assumption.
Qed.

(** ** Resolution failure *)

Lemma getAliases_state (keyword : string) (s : State) :
  now (snd (getAliases keyword s)) = now s /\
  serviceExistenceCache (snd (getAliases keyword s)) = serviceExistenceCache s /\
  serviceAliases (snd (getAliases keyword s)) !! keyword
  = Some (default [] (serviceAliases s !! keyword)) /\
  (forall k, k <> keyword ->
     serviceAliases (snd (getAliases keyword s)) !! k = serviceAliases s !! k).
Proof.
  unfold getAliases, LoadOrStore.
  destruct (serviceAliases s !! keyword) as [l|] eqn:E;
    cbn [snd now serviceExistenceCache serviceAliases setAliases default
         from_option id].
  - now repeat split.
  - repeat split.
    + apply lookup_insert_eq.
    + intros k Hk. now apply lookup_insert_ne.
Qed.

Lemma cleanupKeywordAliases_table (h : Host) (keyword : string) (s : State)
    (old : list string) :
  serviceAliases s !! keyword = Some old ->
  serviceAliases (cleanupKeywordAliases h keyword s)
  = match fst (validLoop h old [] s) with
    | [] => delete keyword (serviceAliases s)
    | valid => <[keyword := valid]> (serviceAliases s)
    end.
Proof.
  intros E. unfold cleanupKeywordAliases. rewrite E.
  pose proof (validLoop_aliases h old [] s) as Ha.
  destruct (validLoop h old [] s) as [valid s1]. cbn [fst snd] in *.
  destruct valid as [|v rest]; cbn [length Nat.eqb];
    cbn [scheduleSave serviceAliases setAliases setExistenceCache];
    now rewrite Ha.
Qed.

(** C3.  When the direct check, the candidate race and the discovery all
    fail, [smartServiceName] returns the empty name with
    [ErrServiceNotFound]; the lists of the other keywords are as before, the
    list left for the keyword holds only names it held before and is never
    empty; and on a host whose answers the existence cache reflects, that
    list is made of exactly the former aliases that still exist, the entry
    being deleted when none does. *)
Theorem smartServiceName_failure (h : Host) (keyword : string) (s : State) :
  directCheckFails h keyword s ->
  raceFails h keyword s ->
  discoveryFails h keyword s ->
  exists s',
    smartServiceName h keyword s = ((EmptyString, Some ErrServiceNotFound), s') /\
    (forall k, k <> keyword ->
       serviceAliases s' !! k = serviceAliases s !! k) /\
    (forall kept,
       serviceAliases s' !! keyword = Some kept ->
       kept <> [] /\
       forall a, In a kept -> In a (default [] (serviceAliases s !! keyword))) /\
    (coherent h (now s) (serviceExistenceCache s) -> honestRace h ->
     serviceAliases s' !! keyword
     = match List.filter (existsOnHost h)
               (default [] (serviceAliases s !! keyword)) with
       | [] => None
       | kept => Some kept
       end).
Proof.
  intros H1 H2 H3.
  unfold directCheckFails, raceFails, discoveryFails, afterRace,
    raceCandidates, afterDirectCheck in *.
  unfold smartServiceName.
  set (processedName := handleServiceNaming (manager h) keyword) in *.
  pose proof (confirmServiceExists_aliases h processedName s) as A1.
  pose proof (confirmServiceExists_coherent h processedName s) as C1.
  destruct (confirmServiceExists h processedName s) as [[confirmed e1] s1].
  cbn [fst snd] in *. subst confirmed.
  destruct (getAliases_state keyword s1) as (N2 & X2 & A2 & O2).
  destruct (getAliases keyword s1) as [aliases s2]. cbn [fst snd] in *.
  pose proof (eq_refl : serviceAliases
                          (snd (validateCandidatesConcurrently h
                                  ([processedName] ++ aliases) s2))
                        = serviceAliases s2) as A3.
  assert (C3 : honestRace h ->
               coherent h (now s2) (serviceExistenceCache s2) ->
               coherent h
                 (now (snd (validateCandidatesConcurrently h
                              ([processedName] ++ aliases) s2)))
                 (serviceExistenceCache
                    (snd (validateCandidatesConcurrently h
                            ([processedName] ++ aliases) s2))))
    by (intros Hr Hc; apply Hr, Hc).
  destruct (validateCandidatesConcurrently h ([processedName] ++ aliases) s2)
    as [[name [e3|]] s3]; cbn [fst snd] in *; [|congruence].
  pose proof (discoverAndSelectService_aliases h keyword s3) as A4.
  pose proof (discoverAndSelectService_coherent h keyword s3) as C4.
  destruct (discoverAndSelectService h keyword s3) as [[discovered [e4|]] s4];
    cbn [fst snd] in *; [|congruence].
  set (old := default [] (serviceAliases s !! keyword)) in *.
  assert (Eold : serviceAliases s4 !! keyword = Some old)
    by (rewrite A4, A3, A2; unfold old; now rewrite A1).
  assert (Eother : forall k, k <> keyword ->
                     serviceAliases s4 !! k = serviceAliases s !! k)
    by (intros k Hk; rewrite A4, A3, (O2 k Hk); now rewrite A1).
  eexists. split; [reflexivity|].
  rewrite (cleanupKeywordAliases_table h keyword s4 old Eold).
  split; [|split].
  - intros k Hk.
    destruct (fst (validLoop h old [] s4));
      [rewrite lookup_delete_ne | rewrite lookup_insert_ne];
      auto.
  - intros kept.
    pose proof (validLoop_subset h old [] s4) as Hsub.
    destruct (fst (validLoop h old [] s4)) as [|v rest].
    + now rewrite lookup_delete_eq.
    + rewrite lookup_insert_eq. intros [= <-]. split; [discriminate|].
      intros a Ha. destruct (Hsub a Ha) as [[]|Hin]. exact Hin.
  - intros Hc Hr.
    assert (Hc4 : coherent h (now s4) (serviceExistenceCache s4)).
    { apply C4, C3; [assumption|]. rewrite N2, X2. now apply C1. }
    destruct (validLoop_coherent h old [] s4 Hc4) as [-> _].
    cbn [app].
    destruct (List.filter (existsOnHost h) old).
    + apply lookup_delete_eq.
    + apply lookup_insert_eq.
Qed.

Lemma raceTimesOut_honest (h : Host) :
  race h = raceTimesOut -> honestRace h.
Proof.
  intros E candidates clock cache Hc. rewrite E. cbn [raceTimesOut raceElapsed raceCache].
  apply (coherent_later h clock); [assumption | lia].
Qed.

(** On a SysV host where only "nginx" is installed, the keyword "web" with
    the learned aliases "nginx" and "httpd" does not resolve when the race
    runs out of time; "httpd" is purged and "nginx" stays. *)
Lemma smartServiceName_failure_witness :
  directCheckFails (sysvHost ["nginx"]) "web" webAliases /\
  raceFails (sysvHost ["nginx"]) "web" webAliases /\
  discoveryFails (sysvHost ["nginx"]) "web" webAliases /\
  exists s',
    smartServiceName (sysvHost ["nginx"]) "web" webAliases
    = ((EmptyString, Some ErrServiceNotFound), s') /\
    serviceAliases s' !! "web" = Some ["nginx"].
Proof.
  assert (H1 : directCheckFails (sysvHost ["nginx"]) "web" webAliases)
    by (vm_compute; reflexivity).
  assert (H2 : raceFails (sysvHost ["nginx"]) "web" webAliases)
    by (vm_compute; discriminate).
  assert (H3 : discoveryFails (sysvHost ["nginx"]) "web" webAliases)
    by (vm_compute; discriminate).
  split; [exact H1|]. split; [exact H2|]. split; [exact H3|].
  destruct (smartServiceName_failure (sysvHost ["nginx"]) "web" webAliases
              H1 H2 H3) as (s' & Heq & _ & _ & Hkept).
  exists s'. split; [exact Heq|].
  rewrite Hkept.
  - vm_compute. reflexivity.
  - apply coherent_empty.
  - now apply raceTimesOut_honest.
Defined.

(** ** Persistence of the alias table *)

Lemma filepath_Join_not_empty (dir file : string) :
  file <> EmptyString -> filepath_Join dir file <> EmptyString.
Proof.
  intros Hfile. unfold filepath_Join.
  destruct dir as [|c dir]; cbn [String.eqb]; [assumption|].
  rewrite append_cons. discriminate.
Qed.

(** The disk after a flush, case by case: the write fails and leaves what
    it leaves under the temporary name; the rename fails and the temporary
    file stays; or the temporary file is moved onto the alias file. *)
Lemma saveTimerFires_disk (h : Host) (s : State)
    (dataSnapshot : gmap string (list string)) :
  saveTimer s = Some dataSnapshot ->
  disk (saveTimerFires h s)
  = match writeFails h (aliasFile s +:+ ".tmp") with
    | Some (_, Some partial) => <[aliasFile s +:+ ".tmp" := partial]> (disk s)
    | Some (_, None) => delete (aliasFile s +:+ ".tmp") (disk s)
    | None =>
        match renameFails h (aliasFile s +:+ ".tmp") (aliasFile s) with
        | Some _ =>
            <[aliasFile s +:+ ".tmp" := jsonReadBack h dataSnapshot]> (disk s)
        | None =>
            <[aliasFile s := jsonReadBack h dataSnapshot]>
              (delete (aliasFile s +:+ ".tmp")
                 (<[aliasFile s +:+ ".tmp" := jsonReadBack h dataSnapshot]>
                    (disk s)))
        end
    end.
Proof.
  intros Ht. unfold saveTimerFires, saveAliasesToFile, Rename. rewrite Ht.
  destruct (writeFails h (aliasFile s +:+ ".tmp")) as [[e [partial|]]|];
    cbn [disk]; try reflexivity.
  destruct (renameFails h (aliasFile s +:+ ".tmp") (aliasFile s));
    [reflexivity|].
  now rewrite lookup_insert_eq.
Qed.

Lemma saveTimerFires_frame (h : Host) (s : State) :
  aliasFile (saveTimerFires h s) = aliasFile s /\
  serviceAliases (saveTimerFires h s) = serviceAliases s /\
  now (saveTimerFires h s) = now s /\
  serviceExistenceCache (saveTimerFires h s) = serviceExistenceCache s /\
  saveTimer (saveTimerFires h s) = None.
Proof.
  unfold saveTimerFires. destruct (saveTimer s) eqn:Ht; [|now repeat split].
  now destruct (saveAliasesToFile h g (aliasFile s +:+ ".tmp") (disk s))
    as [[e|] files].
Qed.

(** Saving writes the whole table: once the timer set by [scheduleSave] has
    fired on a disk that accepts the flush, the alias file holds the table
    as it was when the save was scheduled. *)
Lemma scheduleSave_writes_table (h : Host) (s : State) :
  flushSucceeds h ->
  disk (saveTimerFires h (scheduleSave h s)) !! aliasPath h
  = Some (jsonReadBack h (serviceAliases s)) /\
  aliasFile (saveTimerFires h (scheduleSave h s)) = aliasPath h.
Proof.
  intros [Hw Hr].
  split; [|now destruct (saveTimerFires_frame h (scheduleSave h s)) as [-> _]].
  rewrite (saveTimerFires_disk h (scheduleSave h s) (serviceAliases s) eq_refl).
  cbn [aliasFile scheduleSave]. fold (aliasPath h). rewrite Hw, Hr.
  apply lookup_insert_eq.
Qed.

(** The loop of [loadAliasesFromConfig] without its state. *)
Lemma loadLoop_coherent (h : Host) (rawAliases : list (string * list string))
    (validAliases : gmap string (list string)) (s : State) :
  coherent h (now s) (serviceExistenceCache s) ->
  fst (loadLoop h rawAliases validAliases s)
  = fold_left
      (fun acc entry =>
         match pruned h (snd entry) with
         | Some valid => <[fst entry := valid]> acc
         | None => acc
         end)
      rawAliases validAliases.
Proof.
  revert validAliases s.
  induction rawAliases as [|[key aliases] rest IH]; intros validAliases s Hc;
    cbn [loadLoop fold_left fst snd]; [reflexivity|].
  destruct (validLoop_coherent h aliases [] s Hc) as [Hvalid Hc1].
  destruct (validLoop h aliases [] s) as [valid s1]. cbn [fst snd] in *.
  rewrite (IH _ s1 Hc1). subst valid. cbn [app]. unfold pruned.
  now destruct (List.filter (existsOnHost h) aliases).
Qed.

Lemma pruned_fold_lookup (h : Host) (rawAliases : list (string * list string))
    (validAliases : gmap string (list string)) (k : string) :
  NoDup (rawAliases.*1) ->
  fold_left
    (fun acc entry =>
       match pruned h (snd entry) with
       | Some valid => <[fst entry := valid]> acc
       | None => acc
       end)
    rawAliases validAliases !! k
  = match (list_to_map rawAliases : gmap string (list string)) !! k with
    | Some aliases =>
        match pruned h aliases with
        | Some valid => Some valid
        | None => validAliases !! k
        end
    | None => validAliases !! k
    end.
Proof.
  revert validAliases.
  induction rawAliases as [|[key aliases] rest IH]; intros validAliases Hnd;
    cbn [fold_left fst snd list_to_map foldr].
  - now rewrite lookup_empty.
  - cbn [fmap list_fmap fst] in Hnd.
    pose proof (NoDup_cons_1_1 _ _ Hnd) as Hkey.
    apply NoDup_cons_1_2 in Hnd.
    rewrite (IH _ Hnd). cbn [uncurry fst snd].
    rewrite lookup_insert. case_decide as Hk.
    + subst k. rewrite (not_elem_of_list_to_map_1 _ _ Hkey).
      destruct (pruned h aliases); [apply lookup_insert_eq | reflexivity].
    + destruct (list_to_map rest !! k) as [l|]; [destruct (pruned h l)|];
        try reflexivity;
        (destruct (pruned h aliases); [now apply lookup_insert_ne | reflexivity]).
Qed.

(** Once [aliasFile] names the file, loading keeps of every persisted list
    the names that still exist and drops the keywords left with none. *)
Lemma loadAliasesFromConfig_prunes (h : Host) (s : State)
    (rawAliases : gmap string (list string)) :
  aliasFile s <> EmptyString ->
  disk s !! aliasFile s = Some rawAliases ->
  coherent h (now s) (serviceExistenceCache s) ->
  forall k,
    fst (loadAliasesFromConfig h s) !! k = rawAliases !! k ≫= pruned h.
Proof.
  intros Hpath Hfile Hc k. unfold loadAliasesFromConfig, ReadFile.
  replace (String.eqb (aliasFile s) EmptyString) with false
    by (symmetry; now apply String.eqb_neq).
  rewrite Hfile, (loadLoop_coherent h _ _ s Hc).
  rewrite pruned_fold_lookup by apply NoDup_fst_map_to_list.
  rewrite list_to_map_to_list, lookup_empty.
  destruct (rawAliases !! k) as [l|]; cbn; [|reflexivity].
  now destruct (pruned h l).
Qed.

(** Within one process, in which a scheduled save has assigned [aliasFile],
    a save on a disk that accepts the flush, of a table that its JSON text
    gives back, followed by a load, returns the table less the names that
    no longer exist. *)
Lemma save_then_load_same_process (h : Host) (s : State) :
  flushSucceeds h ->
  jsonReadBack h (serviceAliases s) = serviceAliases s ->
  coherent h (now s) (serviceExistenceCache s) ->
  forall k,
    fst (loadAliasesFromConfig h (saveTimerFires h (scheduleSave h s))) !! k
    = serviceAliases s !! k ≫= pruned h.
Proof.
  intros Hflush Hjson Hc k.
  destruct (scheduleSave_writes_table h s Hflush) as [Hdisk Hpath].
  destruct (saveTimerFires_frame h (scheduleSave h s)) as (_ & _ & Hn & Hx & _).
  apply loadAliasesFromConfig_prunes.
  - rewrite Hpath. now apply filepath_Join_not_empty.
  - now rewrite Hpath, Hdisk, Hjson.
  - now rewrite Hn, Hx.
Qed.

(** C7, on the code.  In the state a process starts in [aliasFile] is the
    empty path, whatever the disk holds: [loadAliasesFromConfig] returns the
    empty table without reading or probing anything, and
    [InitializeServiceDiscovery] registers no alias. *)
Theorem loadAliasesFromConfig_at_start (h : Host) (clock : Z)
    (files : gmap string (gmap string (list string))) :
  loadAliasesFromConfig h (processStart clock files)
  = (∅, processStart clock files) /\
  InitializeServiceDiscovery h (processStart clock files)
  = processStart clock files.
Proof.
  split; [reflexivity|].
  unfold InitializeServiceDiscovery.
  change (loadAliasesFromConfig h (processStart clock files))
    with (∅ : gmap string (list string), processStart clock files).
  cbv beta iota. now rewrite map_size_empty.
Qed.

(** The persisted table of a previous run, whose only alias still exists,
    is on disk under the alias path; the new process loads nothing. *)
Example restart_loses_aliases :
  let h := sysvHost ["dockerd"] in
  let files : gmap string (gmap string (list string)) :=
    {[ aliasPath h := {[ "docker" := ["dockerd"] ]} ]} in
  existsOnHost h "dockerd" = true /\
  serviceAliases (InitializeServiceDiscovery h (processStart 0 files))
    !! "docker" = None.
Proof. vm_compute. split; reflexivity. Qed.

(** ** The theorems on the example hosts *)

Local Open Scope Z_scope.

(** "Docker.Service.Socket" and "SSH" under systemd, "Nginx.Service" under
    SysV init. *)
Lemma handleServiceNaming_normalizes_witness :
  handleServiceNaming (manager (systemdHost [])) "Docker.Service.Socket"
  = "docker.socket" /\
  handleServiceNaming (manager (systemdHost [])) "SSH" = "ssh.service" /\
  handleServiceNaming (manager (sysvHost [])) "Nginx.Service" = "nginx".
Proof.
  split; [|split].
  - destruct (handleServiceNaming_normalizes (manager (systemdHost []))
                "Docker.Service.Socket") as (_ & Hsocket & _).
    exact (Hsocket "docker" eq_refl).
  - destruct (handleServiceNaming_normalizes (manager (systemdHost [])) "SSH")
      as (_ & _ & Hsystemd & _).
    destruct (Hsystemd eq_refl) as [_ Hplain].
    destruct Hplain as [_ Happend].
    + apply HasSuffix_false. reflexivity.
    + apply Happend; apply HasSuffix_false; reflexivity.
  - destruct (handleServiceNaming_normalizes (manager (sysvHost []))
                "Nginx.Service") as (_ & _ & _ & Hother).
    destruct Hother as [Hstrip _].
    + discriminate.
    + apply HasSuffix_false. reflexivity.
    + exact (Hstrip "nginx" eq_refl).
Defined.

(** A first probe of "nginx" goes to the host and is stored for 30 seconds;
    a second one, asked before the expiry, is answered from the cache. *)
Lemma confirmServiceExists_ttl_witness :
  exists s1,
    confirmServiceExists (sysvHost ["nginx"]) "nginx" (processStart 0 ∅)
    = ((true, None), s1) /\
    probes s1 = ["nginx"] /\
    serviceExistenceCache s1 !! "nginx"
    = Some {| services := []; expires := now s1 + 30 * Second;
              exists_ := true |} /\
    confirmServiceExists (sysvHost ["nginx"]) "nginx" s1 = ((true, None), s1).
Proof.
  destruct (confirmServiceExists_ttl (sysvHost ["nginx"]) "nginx"
              (processStart 0 ∅)) as [_ Hmiss].
  destruct Hmiss as (s1 & Hcall & Hstored & _ & Hprobes); [now left|].
  exists s1. split; [exact Hcall|]. split; [exact Hprobes|].
  split; [exact Hstored|].
  destruct (confirmServiceExists_ttl (sysvHost ["nginx"]) "nginx" s1)
    as [Hhit _].
  apply (Hhit _ Hstored). cbn [expires]. unfold Second. lia.
Defined.

(** The enumeration for "ng" runs once and is cached for five minutes; the
    second request does not reach the host.  When the tool fails, the error
    comes back wrapped and the keyword has no entry in the cache. *)
Lemma discoverServices_cache_policy_witness :
  (exists s1,
     discoverServices (sysvHost ["nginx"]) "ng" (processStart 0 ∅)
     = ((["nginx"], None), s1) /\
     enumerations s1 = ["ng"] /\
     discoverServices (sysvHost ["nginx"]) "ng" s1 = ((["nginx"], None), s1)) /\
  (exists s2,
     discoverServices (withoutEnumeration (sysvHost ["nginx"])) "ng"
       (processStart 0 ∅)
     = (([], Some (ErrServiceDiscovery "ng"
                     (ErrHost "failed to read init.d directory"))), s2) /\
     discoveryCache s2 !! "ng" = None).
Proof.
  split.
  - destruct (discoverServices_cache_policy (sysvHost ["nginx"]) "ng"
                (processStart 0 ∅)) as [_ Hmiss].
    destruct Hmiss as [Hok _]; [now left|].
    destruct (Hok ["nginx"] eq_refl) as (s1 & Hcall & Hstored & Hlog).
    exists s1. split; [exact Hcall|]. split; [exact Hlog|].
    destruct (discoverServices_cache_policy (sysvHost ["nginx"]) "ng" s1)
      as [Hhit _].
    apply (Hhit _ Hstored). cbn [expires]. unfold Minute, Second. lia.
  - destruct (discoverServices_cache_policy
                (withoutEnumeration (sysvHost ["nginx"])) "ng"
                (processStart 0 ∅)) as [_ Hmiss].
    destruct Hmiss as [_ Hfail]; [now left|].
    destruct (Hfail [] (ErrHost "failed to read init.d directory") eq_refl)
      as (s2 & Hcall & Hcache & _).
    exists s2. split; [exact Hcall|].
    rewrite Hcache. apply lookup_delete_eq.
Defined.

(** Three calls for "ssh" from the empty table: the repeated alias and the
    keyword itself are not added. *)
Lemma updateAliases_invariant_witness :
  aliasInvariant (serviceAliases (processStart 0 ∅)) /\
  aliasInvariant
    (serviceAliases
       (updateAll (sysvHost []) [("ssh", "sshd"); ("ssh", "sshd"); ("ssh", "ssh")]
          (processStart 0 ∅))) /\
  serviceAliases (updateAliases (sysvHost []) "ssh" "sshd" (processStart 0 ∅))
  = <["ssh" := ["sshd"]]> ∅.
Proof.
  assert (H0 : aliasInvariant (serviceAliases (processStart 0 ∅))).
  { intros keyword aliases E. cbn [processStart serviceAliases] in E.
    rewrite lookup_empty in E. discriminate E. }
  split; [exact H0|].
  destruct (updateAliases_invariant (sysvHost []) (processStart 0 ∅) H0)
    as (Hall & _ & _ & Happend).
  split; [apply Hall|].
  rewrite (Happend "ssh" "sshd").
  - reflexivity.
  - discriminate.
  - intros [].
Defined.

(** The markers of the three managers on sample outputs. *)
Lemma ParseStatus_markers_witness :
  Managers.sysvinitParseStatus sysvinit "nginx: not found" "active"
  = (false, None) /\
  Managers.sysvinitParseStatus sysvinit
    "ls: /etc/rc2.d/S01nginx: no such file or directory" "enabled"
  = (false, None) /\
  Managers.systemdParseStatus systemd
    "Unit nginx.service could not be found." "active"
  = (false, None).
Proof.
  split; [|split].
  - destruct (ParseStatus_markers sysvinit "nginx: not found") as (Hactive & _).
    exact (Hactive eq_refl).
  - destruct (ParseStatus_markers sysvinit
                "ls: /etc/rc2.d/S01nginx: no such file or directory")
      as (_ & Henabled & _).
    exact (Henabled eq_refl).
  - destruct (ParseStatus_markers systemd
                "Unit nginx.service could not be found.")
      as (_ & _ & _ & Hsystemd & _).
    exact (Hsystemd eq_refl "active").
Defined.

(** ** The resolver at work *)

(** The scenario of the specification: "fail2ban" on a systemd host with the
    unit installed resolves at the direct check, and the name is learned. *)
Example resolve_fail2ban :
  exists s',
    smartServiceName (systemdHost ["fail2ban.service"]) "fail2ban"
      (processStart 0 ∅)
    = (("fail2ban.service", None), s') /\
    serviceAliases s' !! "fail2ban" = Some ["fail2ban.service"] /\
    probes s' = ["fail2ban.service"].
Proof. eexists. split; [vm_compute; reflexivity|]. vm_compute. now split. Qed.

(** A keyword that only the enumeration finds: "docker" on a SysV host with
    the script "dockerd". *)
Example resolve_by_discovery :
  exists s',
    smartServiceName (sysvHost ["dockerd"]) "docker" (processStart 0 ∅)
    = (("dockerd", None), s') /\
    serviceAliases s' !! "docker" = Some ["dockerd"] /\
    enumerations s' = ["docker"].
Proof. eexists. split; [vm_compute; reflexivity|]. vm_compute. now split. Qed.

(** An unknown keyword: not found, and no alias is kept for it. *)
Example resolve_unknown :
  exists s',
    smartServiceName (sysvHost ["dockerd"]) "nonexistent-xyz" (processStart 0 ∅)
    = ((EmptyString, Some ErrServiceNotFound), s') /\
    serviceAliases s' !! "nonexistent-xyz" = None.
Proof. eexists. split; [vm_compute; reflexivity|]. vm_compute. reflexivity. Qed.

(** ** More on the resolver *)

Local Open Scope Z_scope.

Lemma setAliases_same (s : State) : setAliases (serviceAliases s) s = s.
Proof. now destruct s. Qed.

Lemma updateAliases_learned (h : Host) (keyword alias : string) (s : State) :
  keyword <> alias ->
  exists aliases,
    serviceAliases (updateAliases h keyword alias s) !! keyword = Some aliases /\
    In alias aliases.
Proof.
  intros Hne. rewrite updateAliases_table.
  replace (String.eqb keyword alias) with false
    by (symmetry; now apply String.eqb_neq).
  destruct (serviceAliases s !! keyword) as [aliases|] eqn:E.
  - destruct (contains aliases alias) eqn:C.
    + exists aliases. split; [assumption | now apply contains_In].
    + exists (aliases ++ [alias]). split; [apply lookup_insert_eq|].
      apply in_or_app. right. now left.
  - exists [alias]. split; [apply lookup_insert_eq | now left].
Qed.

Lemma updateAliases_repeat (h : Host) (keyword alias : string) (s : State) :
  updateAliases h keyword alias (updateAliases h keyword alias s)
  = updateAliases h keyword alias s.
Proof.
  destruct (String.eqb_spec keyword alias) as [E|Hne].
  - unfold updateAliases. subst alias. now rewrite String.eqb_refl.
  - destruct (updateAliases_learned h keyword alias s Hne) as (l & Hl & Hin).
    generalize dependent (updateAliases h keyword alias s). intros s1 Hl.
    unfold updateAliases, LoadOrStore.
    replace (String.eqb keyword alias) with false
      by (symmetry; now apply String.eqb_neq).
    rewrite Hl. apply contains_In in Hin. rewrite Hin. apply setAliases_same.
Qed.

Lemma updateAliases_frame (h : Host) (keyword alias : string) (s : State) :
  now (updateAliases h keyword alias s) = now s /\
  serviceExistenceCache (updateAliases h keyword alias s)
  = serviceExistenceCache s /\
  probes (updateAliases h keyword alias s) = probes s.
Proof.
  unfold updateAliases, LoadOrStore.
  destruct (String.eqb keyword alias); [now repeat split|].
  destruct (serviceAliases s !! keyword) as [aliases|];
    [destruct (contains aliases alias)|]; now repeat split.
Qed.

(** X1.  Whatever path resolves the keyword (direct check, candidate race or
    discovery), the name returned without error is the keyword itself or is
    listed for the keyword in the alias table afterwards; and the only
    failure is the empty name with [ErrServiceNotFound]. *)
Theorem smartServiceName_learns (h : Host) (keyword : string) (s : State) :
  match fst (smartServiceName h keyword s) with
  | (name, None) =>
      name = keyword \/
      exists aliases,
        serviceAliases (snd (smartServiceName h keyword s)) !! keyword
        = Some aliases /\ In name aliases
  | (name, Some e) => name = EmptyString /\ e = ErrServiceNotFound
  end.
Proof.
  assert (L : forall name s0,
            name = keyword \/
            exists aliases,
              serviceAliases (updateAliases h keyword name s0) !! keyword
              = Some aliases /\ In name aliases).
  { intros name s0. destruct (String.eqb_spec keyword name) as [E|Hne];
      [now left | right; now apply updateAliases_learned]. }
  unfold smartServiceName.
  destruct (confirmServiceExists h (handleServiceNaming (manager h) keyword) s)
    as [[confirmed e1] s1].
  destruct confirmed; cbn [fst snd]; [apply L|].
  destruct (getAliases keyword s1) as [aliases s2].
  destruct (validateCandidatesConcurrently h
              ([handleServiceNaming (manager h) keyword] ++ aliases) s2)
    as [[name [e3|]] s3]; cbn [fst snd]; [|apply L].
  destruct (discoverAndSelectService h keyword s3) as [[discovered [e4|]] s4];
    cbn [fst snd]; [now split | apply L].
Qed.

Lemma smartServiceName_direct (h : Host) (keyword : string) (s : State) :
  fst (fst (confirmServiceExists h
              (handleServiceNaming (manager h) keyword) s)) = true ->
  smartServiceName h keyword s
  = ((handleServiceNaming (manager h) keyword, None),
     updateAliases h keyword (handleServiceNaming (manager h) keyword)
       (snd (confirmServiceExists h
               (handleServiceNaming (manager h) keyword) s))).
Proof.
  intros Hdirect. unfold smartServiceName.
  destruct (confirmServiceExists h (handleServiceNaming (manager h) keyword) s)
    as [[confirmed e1] s1].
  cbn [fst snd] in *. now subst confirmed.
Qed.

Lemma confirmServiceExists_fresh (h : Host) (name : string) (s : State) :
  fst (fst (confirmServiceExists h name s)) = true ->
  freshlyConfirmed name (snd (confirmServiceExists h name s)).
Proof.
  intros Hconfirmed.
  destruct (confirmServiceExists_cases h name s)
    as [(item & Hitem & Hlt & E)|(s0 & _ & _ & _ & E)];
    rewrite E in Hconfirmed |- *; cbn [fst snd] in *.
  - exists item. now repeat split.
  - rewrite probeAndStore_eq in *. cbn [fst snd] in *.
    eexists. split; [apply lookup_insert_eq|].
    cbn [exists_ expires setExistenceCache now]. split; [assumption|].
    unfold Second. lia.
Qed.

Lemma confirmServiceExists_hit (h : Host) (name : string) (s : State) :
  freshlyConfirmed name s ->
  confirmServiceExists h name s = ((true, None), s).
Proof.
  intros (item & Hitem & Hpos & Hlt). unfold confirmServiceExists.
  rewrite Hitem.
  replace ((now s <? expires item)%Z) with true
    by (symmetry; apply Z.ltb_lt; lia).
  now rewrite Hpos.
Qed.

(** X2.  A keyword resolved by the direct check is resolved again from the
    caches: a second call made on the state the first one left returns the
    same name and leaves that state as it is, so no probe reaches the init
    system and nothing is rescheduled. *)
Theorem smartServiceName_again (h : Host) (keyword : string) (s : State) :
  fst (fst (confirmServiceExists h
              (handleServiceNaming (manager h) keyword) s)) = true ->
  smartServiceName h keyword (snd (smartServiceName h keyword s))
  = (fst (smartServiceName h keyword s), snd (smartServiceName h keyword s)).
Proof.
  intros Hdirect.
  rewrite (smartServiceName_direct h keyword s Hdirect). cbn [fst snd].
  pose proof (confirmServiceExists_fresh h _ s Hdirect) as Hfresh.
  set (processedName := handleServiceNaming (manager h) keyword) in *.
  set (s1 := snd (confirmServiceExists h processedName s)) in *.
  destruct (updateAliases_frame h keyword processedName s1) as (Hn & Hc & _).
  assert (Hfresh' : freshlyConfirmed processedName
                      (updateAliases h keyword processedName s1)).
  { destruct Hfresh as (item & Hitem & Hpos & Hlt). exists item.
    rewrite Hc, Hn. now repeat split. }
  assert (Hdirect' : fst (fst (confirmServiceExists h processedName
                                 (updateAliases h keyword processedName s1)))
                     = true)
    by now rewrite (confirmServiceExists_hit h _ _ Hfresh').
  rewrite (smartServiceName_direct h keyword _ Hdirect').
  fold processedName.
  rewrite (confirmServiceExists_hit h _ _ Hfresh'). cbn [snd].
  now rewrite updateAliases_repeat.
Qed.

Lemma smartServiceName_again_witness :
  fst (fst (confirmServiceExists (systemdHost ["fail2ban.service"])
              (handleServiceNaming (manager (systemdHost ["fail2ban.service"]))
                 "Fail2Ban")
              (processStart 0 ∅))) = true /\
  exists s1,
    smartServiceName (systemdHost ["fail2ban.service"]) "Fail2Ban"
      (processStart 0 ∅) = (("fail2ban.service", None), s1) /\
    smartServiceName (systemdHost ["fail2ban.service"]) "Fail2Ban" s1
    = (("fail2ban.service", None), s1).
Proof.
  assert (H : fst (fst (confirmServiceExists (systemdHost ["fail2ban.service"])
              (handleServiceNaming (manager (systemdHost ["fail2ban.service"]))
                 "Fail2Ban")
              (processStart 0 ∅))) = true) by (vm_compute; reflexivity).
  split; [exact H|].
  pose proof (smartServiceName_again (systemdHost ["fail2ban.service"])
                "Fail2Ban" (processStart 0 ∅) H) as Hagain.
  exists (snd (smartServiceName (systemdHost ["fail2ban.service"]) "Fail2Ban"
                 (processStart 0 ∅))).
  assert (E : fst (smartServiceName (systemdHost ["fail2ban.service"])
                     "Fail2Ban" (processStart 0 ∅))
              = ("fail2ban.service", None)) by (vm_compute; reflexivity).
  rewrite E in Hagain. split; [|exact Hagain].
  rewrite <- E. now destruct (smartServiceName _ _ _).
Defined.

Lemma confirmServiceExists_no_error (h : Host) (name : string) (s : State) :
  snd (fst (confirmServiceExists h name s)) = None.
Proof.
  destruct (confirmServiceExists_cases h name s)
    as [(item & _ & _ & ->)|(s0 & _ & _ & _ & ->)]; [reflexivity|].
  now rewrite probeAndStore_eq.
Qed.

Lemma confirmServiceExists_store (h : Host) (name : string) (s : State) :
  aliasFile (snd (confirmServiceExists h name s)) = aliasFile s /\
  saveTimer (snd (confirmServiceExists h name s)) = saveTimer s /\
  discoveryCache (snd (confirmServiceExists h name s)) = discoveryCache s /\
  disk (snd (confirmServiceExists h name s)) = disk s /\
  enumerations (snd (confirmServiceExists h name s)) = enumerations s.
Proof.
  destruct (confirmServiceExists_cases h name s)
    as [(item & _ & _ & ->)|(s0 & _ & _ & _ & E)]; [now repeat split|].
  unfold confirmServiceExists in *.
  destruct (serviceExistenceCache s !! name) as [item|];
    [destruct (now s <? expires item); [now repeat split|]|];
    rewrite probeAndStore_eq; cbn [snd]; unfold afterProbe;
    destruct (reachesHost h name); now repeat split.
Qed.

(** X3.  [confirmServiceExists] never returns an error; a positive answer
    leaves an unexpired positive entry in the existence cache; on a cache
    that agrees with the host the answer is the host's and the cache still
    agrees afterwards; and neither the alias table, the pending save, the
    discovery cache nor the disk is touched. *)
Theorem confirmServiceExists_sound (h : Host) (name : string) (s : State) :
  snd (fst (confirmServiceExists h name s)) = None /\
  (fst (fst (confirmServiceExists h name s)) = true ->
   freshlyConfirmed name (snd (confirmServiceExists h name s))) /\
  (coherent h (now s) (serviceExistenceCache s) ->
   fst (fst (confirmServiceExists h name s)) = existsOnHost h name /\
   coherent h (now (snd (confirmServiceExists h name s)))
     (serviceExistenceCache (snd (confirmServiceExists h name s)))) /\
  serviceAliases (snd (confirmServiceExists h name s)) = serviceAliases s /\
  saveTimer (snd (confirmServiceExists h name s)) = saveTimer s /\
  discoveryCache (snd (confirmServiceExists h name s)) = discoveryCache s /\
  disk (snd (confirmServiceExists h name s)) = disk s.
Proof.
  split; [apply confirmServiceExists_no_error|].
  split; [apply confirmServiceExists_fresh|].
  split.
  - intros Hc. destruct (confirmServiceExists_coherent h name s Hc) as [E Hc'].
    split; [now rewrite E | assumption].
  - split; [apply confirmServiceExists_aliases|].
    destruct (confirmServiceExists_store h name s) as (_ & Ht & Hd & Hk & _).
    now repeat split.
Qed.

Lemma exactLoop_member (keyword : string) (candidates : list string)
    (d : string) :
  exactLoop keyword candidates d = d \/
  In (exactLoop keyword candidates d) candidates.
Proof.
  induction candidates as [|c rest IH]; cbn [exactLoop]; [now left|].
  destruct (EqualFold c keyword); [right; now left|].
  destruct IH as [IH|IH]; [now left | right; now right].
Qed.

Lemma containLoop_member (needle : string) (candidates : list string)
    (d : string) :
  containLoop needle candidates d = d \/
  In (containLoop needle candidates d) candidates.
Proof.
  induction candidates as [|c rest IH]; cbn [containLoop]; [now left|].
  destruct (Contains (ToLower c) needle); [right; now left|].
  destruct IH as [IH|IH]; [now left | right; now right].
Qed.

Lemma selectBestMatch_member (keyword : string) (candidates : list string)
    (name : string) :
  selectBestMatch keyword candidates = (name, None) ->
  name <> EmptyString /\ In name candidates.
Proof.
  unfold selectBestMatch.
  destruct (Nat.eqb (length candidates) 0); [discriminate|].
  destruct (String.eqb_spec (exactLoop keyword candidates EmptyString)
              EmptyString) as [E|Hne]; cbn [negb].
  - destruct (String.eqb_spec
                (containLoop (ToLower keyword) candidates EmptyString)
                EmptyString) as [E'|Hne']; cbn [negb]; [discriminate|].
    intros [= <-]. split; [assumption|].
    destruct (containLoop_member (ToLower keyword) candidates EmptyString);
      [contradiction | assumption].
  - intros [= <-]. split; [assumption|].
    destruct (exactLoop_member keyword candidates EmptyString);
      [contradiction | assumption].
Qed.

(** X4.  A name that [discoverAndSelectService] returns without error is
    not empty, is one of the names the enumeration (or its cached copy)
    gave, and has an unexpired positive entry in the existence cache; every
    failure is the empty name with [ErrServiceNotFound], the "existence
    check failed" error never being produced. *)
Theorem discoverAndSelectService_result (h : Host) (keyword : string) (s : State) :
  match fst (discoverAndSelectService h keyword s) with
  | (name, None) =>
      name <> EmptyString /\
      In name (fst (fst (discoverServices h keyword s))) /\
      freshlyConfirmed name (snd (discoverAndSelectService h keyword s))
  | (name, Some e) => name = EmptyString /\ e = ErrServiceNotFound
  end.
Proof.
  unfold discoverAndSelectService.
  destruct (discoverServices h keyword s) as [[discovered [e|]] s1];
    cbn [fst snd]; [now split|].
  destruct (Nat.eqb (length discovered) 0); cbn [fst snd]; [now split|].
  destruct (selectBestMatch keyword discovered) as [selected [e|]] eqn:Hsel;
    cbn [fst snd]; [now split|].
  destruct (selectBestMatch_member _ _ _ Hsel) as [Hne Hin].
  pose proof (confirmServiceExists_no_error h selected s1) as Herr.
  pose proof (confirmServiceExists_fresh h selected s1) as Hfresh.
  destruct (confirmServiceExists h selected s1) as [[confirmed err] s2].
  cbn [fst snd] in *. subst err.
  destruct confirmed; cbn [fst snd]; [|now split].
  repeat split; [assumption | assumption | now apply Hfresh].
Qed.

(** X5.  [getAliases] returns each predefined or learned alias of the
    keyword once and nothing else, whatever the order; and it is not
    read-only: a keyword the table does not know gets an empty entry, the
    other keywords being left alone. *)
Theorem getAliases_union (keyword : string) (s : State) :
  List.NoDup (fst (getAliases keyword s)) /\
  (forall a,
     In a (fst (getAliases keyword s)) <->
     In a (default [] (loadPredefinedAliases !! keyword)) \/
     In a (default [] (serviceAliases s !! keyword))) /\
  serviceAliases (snd (getAliases keyword s)) !! keyword
  = Some (default [] (serviceAliases s !! keyword)) /\
  (forall k, k <> keyword ->
     serviceAliases (snd (getAliases keyword s)) !! k = serviceAliases s !! k).
Proof.
  destruct (getAliases_state keyword s) as (_ & _ & Hkey & Hother).
  split; [|split; [|split; assumption]].
  - unfold getAliases, LoadOrStore.
    destruct (serviceAliases s !! keyword); cbn [fst];
      apply NoDup_ListNoDup, NoDup_remove_dups.
  - intros a. unfold getAliases, LoadOrStore.
    destruct (serviceAliases s !! keyword) as [l|];
      cbn [fst default from_option id];
      rewrite <- !list_elem_of_In, elem_of_remove_dups, elem_of_app;
      reflexivity.
Qed.

Lemma registerLoop_lookup (aliases : list (string * list string))
    (t : gmap string (list string)) (k : string) :
  NoDup (aliases.*1) ->
  registerLoop aliases t !! k
  = match (list_to_map aliases : gmap string (list string)) !! k with
    | Some values => Some (default [] (t !! k) ++ values)
    | None => t !! k
    end.
Proof.
  revert t. induction aliases as [|[key values] rest IH]; intros t Hnd;
    cbn [registerLoop list_to_map foldr].
  - now rewrite lookup_empty.
  - cbn [fmap list_fmap fst] in Hnd.
    pose proof (NoDup_cons_1_1 _ _ Hnd) as Hkey.
    apply NoDup_cons_1_2 in Hnd.
    assert (E : (let '((existing, loaded), t0) := LoadOrStore key values t in
                 registerLoop rest
                   (if loaded then <[key := existing ++ values]> t0 else t0))
                = registerLoop rest
                    (<[key := default [] (t !! key) ++ values]> t)).
    { unfold LoadOrStore. destruct (t !! key) as [existing|];
        cbn [default from_option id app]; reflexivity. }
    rewrite E, (IH _ Hnd). cbn [uncurry fst snd].
    rewrite !lookup_insert. case_decide as Hk.
    + subst k. now rewrite (not_elem_of_list_to_map_1 _ _ Hkey).
    + reflexivity.
Qed.

(** X6.  [RegisterServiceAliases] appends: a keyword of the registered table
    ends with the list it had, followed by the registered list, without any
    removal of duplicates; a keyword it does not name keeps its list. *)
Theorem RegisterServiceAliases_appends (aliases : gmap string (list string))
    (s : State) (k : string) :
  serviceAliases (RegisterServiceAliases aliases s) !! k
  = match aliases !! k with
    | Some values => Some (default [] (serviceAliases s !! k) ++ values)
    | None => serviceAliases s !! k
    end.
Proof.
  unfold RegisterServiceAliases. cbn [serviceAliases setAliases].
  rewrite registerLoop_lookup by apply NoDup_fst_map_to_list.
  now rewrite list_to_map_to_list.
Qed.

(** ** More on persistence *)

Lemma tmp_path_differs (path : string) : path <> path +:+ ".tmp".
Proof.
  intros E. apply (f_equal String.length) in E.
  rewrite length_append in E. cbn [String.length] in E. lia.
Qed.

Lemma flushSucceeds_dec (h : Host) : flushSucceeds h \/ ~ flushSucceeds h.
Proof.
  unfold flushSucceeds.
  destruct (writeFails h (aliasPath h +:+ ".tmp"));
    [right; now intros [E _]|].
  destruct (renameFails h (aliasPath h +:+ ".tmp") (aliasPath h));
    [right; now intros [_ E] | now left].
Qed.

Lemma flush_alias_file (h : Host) (s : State)
    (dataSnapshot : gmap string (list string)) :
  saveTimer s = Some dataSnapshot -> aliasFile s = aliasPath h ->
  (flushSucceeds h ->
   disk (saveTimerFires h s) !! aliasPath h
   = Some (jsonReadBack h dataSnapshot) /\
   disk (saveTimerFires h s) !! (aliasPath h +:+ ".tmp") = None) /\
  (~ flushSucceeds h ->
   disk (saveTimerFires h s) !! aliasPath h = disk s !! aliasPath h) /\
  (forall path,
     path <> aliasPath h -> path <> aliasPath h +:+ ".tmp" ->
     disk (saveTimerFires h s) !! path = disk s !! path).
Proof.
  intros Ht Hf. rewrite (saveTimerFires_disk h s dataSnapshot Ht), Hf.
  pose proof (tmp_path_differs (aliasPath h)) as Hne.
  unfold flushSucceeds.
  destruct (writeFails h (aliasPath h +:+ ".tmp")) as [[e [partial|]]|].
  - split; [now intros [E _]|]. split.
    + intros _. now rewrite lookup_insert_ne by congruence.
    + intros path _ Hp. now rewrite lookup_insert_ne by congruence.
  - split; [now intros [E _]|]. split.
    + intros _. now rewrite lookup_delete_ne by congruence.
    + intros path _ Hp. now rewrite lookup_delete_ne by congruence.
  - destruct (renameFails h (aliasPath h +:+ ".tmp") (aliasPath h)).
    + split; [now intros [_ E]|]. split.
      * intros _. now rewrite lookup_insert_ne by congruence.
      * intros path _ Hp. now rewrite lookup_insert_ne by congruence.
    + split; [|split].
      * intros _. split; [apply lookup_insert_eq|].
        rewrite lookup_insert_ne by exact Hne. apply lookup_delete_eq.
      * intros Hnot. destruct Hnot. now split.
      * intros path Hp Hq. rewrite lookup_insert_ne by congruence.
        rewrite lookup_delete_ne by congruence.
        now rewrite lookup_insert_ne by congruence.
Qed.

(** X7.  The flush that follows a [scheduleSave] goes through the temporary
    file, so the alias file is replaced as a whole or not at all.  When the
    write and the rename succeed the alias file holds the table as it was
    when the save was scheduled (as its JSON text gives it back) and nothing
    is left under the temporary name; when either fails the alias file
    holds what it held.  In every case no path other than these two changes,
    no save is pending afterwards and the table in memory is as before. *)
Theorem saveTimerFires_atomic (h : Host) (s : State) :
  let flushed := saveTimerFires h (scheduleSave h s) in
  (disk flushed !! aliasPath h = Some (jsonReadBack h (serviceAliases s)) \/
   disk flushed !! aliasPath h = disk s !! aliasPath h) /\
  (flushSucceeds h ->
   disk flushed !! aliasPath h = Some (jsonReadBack h (serviceAliases s)) /\
   disk flushed !! (aliasPath h +:+ ".tmp") = None) /\
  (~ flushSucceeds h -> disk flushed !! aliasPath h = disk s !! aliasPath h) /\
  (forall path,
     path <> aliasPath h -> path <> aliasPath h +:+ ".tmp" ->
     disk flushed !! path = disk s !! path) /\
  saveTimer flushed = None /\
  serviceAliases flushed = serviceAliases s.
Proof.
  intros flushed. subst flushed.
  destruct (flush_alias_file h (scheduleSave h s) (serviceAliases s)
              eq_refl eq_refl) as (Hok & Hfail & Hother).
  destruct (saveTimerFires_frame h (scheduleSave h s)) as (_ & Ha & _ & _ & Ht).
  split.
  { destruct (flushSucceeds_dec h) as [Hs|Hs];
      [left; apply (Hok Hs) | right; apply (Hfail Hs)]. }
  split; [exact Hok|]. split; [exact Hfail|]. split; [exact Hother|].
  split; [exact Ht | exact Ha].
Qed.

Lemma updateAliases_cases (h : Host) (keyword alias : string) (s : State) :
  updateAliases h keyword alias s = s \/
  (saveTimer (updateAliases h keyword alias s)
   = Some (serviceAliases (updateAliases h keyword alias s)) /\
   aliasFile (updateAliases h keyword alias s) = aliasPath h /\
   disk (updateAliases h keyword alias s) = disk s).
Proof.
  unfold updateAliases, LoadOrStore.
  destruct (String.eqb keyword alias); [now left|].
  destruct (serviceAliases s !! keyword) as [aliases|].
  - destruct (contains aliases alias); [left; apply setAliases_same|].
    right. now repeat split.
  - right. now repeat split.
Qed.

Lemma updateAll_cases (h : Host) (calls : list (string * string)) (s : State) :
  updateAll h calls s = s \/
  (saveTimer (updateAll h calls s) = Some (serviceAliases (updateAll h calls s)) /\
   aliasFile (updateAll h calls s) = aliasPath h /\
   disk (updateAll h calls s) = disk s).
Proof.
  revert s. induction calls as [|[keyword alias] rest IH]; intros s;
    cbn [updateAll]; [now left|].
  destruct (updateAliases_cases h keyword alias s) as [E|(Ht & Hf & Hd)].
  - rewrite E. apply IH.
  - destruct (IH (updateAliases h keyword alias s)) as [E|(Ht' & Hf' & Hd')].
    + rewrite E. right. now repeat split.
    + right. repeat split; [assumption | assumption | congruence].
Qed.

(** X8.  Saves are coalesced.  A burst of [updateAliases] calls writes
    nothing to the disk by itself; if the save pending before the burst (if
    any) held the current table, so does the one pending after it; and when
    the burst has changed the table, the single flush that follows puts the
    whole final table in the alias file if the write and the rename
    succeed, and leaves the alias file as it was if either fails. *)
Theorem updateAll_one_flush (h : Host) (calls : list (string * string))
    (s : State) :
  snapshotCurrent s ->
  disk (updateAll h calls s) = disk s /\
  snapshotCurrent (updateAll h calls s) /\
  (serviceAliases (updateAll h calls s) <> serviceAliases s ->
   (flushSucceeds h ->
    disk (saveTimerFires h (updateAll h calls s)) !! aliasPath h
    = Some (jsonReadBack h (serviceAliases (updateAll h calls s)))) /\
   (~ flushSucceeds h ->
    disk (saveTimerFires h (updateAll h calls s)) !! aliasPath h
    = disk s !! aliasPath h)).
Proof.
  intros Hcur.
  destruct (updateAll_cases h calls s) as [E|(Ht & Hf & Hd)].
  - rewrite E. split; [reflexivity|]. split; [assumption|]. congruence.
  - split; [assumption|]. split.
    + intros snap Hsnap. congruence.
    + intros _.
      destruct (flush_alias_file h (updateAll h calls s) _ Ht Hf)
        as (Hok & Hfail & _).
      split; [intros Hs; apply (Hok Hs)|].
      intros Hs. rewrite (Hfail Hs). now rewrite Hd.
Qed.

Lemma updateAll_one_flush_witness :
  snapshotCurrent (processStart 0 ∅) /\
  disk (saveTimerFires (sysvHost [])
          (updateAll (sysvHost [])
             [("ssh", "sshd"); ("docker", "dockerd"); ("ssh", "dropbear")]
             (processStart 0 ∅)))
    !! aliasPath (sysvHost [])
  = Some (<["docker" := ["dockerd"]]> (<["ssh" := ["sshd"; "dropbear"]]> ∅)).
Proof.
  assert (H : snapshotCurrent (processStart 0 ∅))
    by (intros snap E; discriminate E).
  split; [exact H|].
  destruct (updateAll_one_flush (sysvHost [])
              [("ssh", "sshd"); ("docker", "dockerd"); ("ssh", "dropbear")]
              (processStart 0 ∅) H) as (_ & _ & Hflush).
  destruct Hflush as [Hok _].
  - intros E. apply (f_equal (fun t => t !! "ssh")) in E.
    vm_compute in E. discriminate E.
  - rewrite Hok by (split; reflexivity). vm_compute. reflexivity.
Defined.

Lemma coherent_delete (h : Host) (t : Z) (cache : gmap string cacheItem)
    (name : string) :
  coherent h t cache -> coherent h t (delete name cache).
Proof.
  intros Hc n item Hitem. apply lookup_delete_Some in Hitem as [_ Hitem].
  now apply Hc.
Qed.

Lemma filter_filter (f : string -> bool) (l : list string) :
  List.filter f (List.filter f l) = List.filter f l.
Proof.
  induction l as [|x l IH]; cbn [List.filter]; [reflexivity|].
  destruct (f x) eqn:E; cbn [List.filter]; [|assumption].
  now rewrite E, IH.
Qed.

Lemma cleanupKeywordAliases_coherent (h : Host) (keyword : string) (s : State) :
  coherent h (now s) (serviceExistenceCache s) ->
  coherent h (now (cleanupKeywordAliases h keyword s))
    (serviceExistenceCache (cleanupKeywordAliases h keyword s)) /\
  serviceAliases (cleanupKeywordAliases h keyword s)
  = match serviceAliases s !! keyword with
    | None => serviceAliases s
    | Some old =>
        match List.filter (existsOnHost h) old with
        | [] => delete keyword (serviceAliases s)
        | valid => <[keyword := valid]> (serviceAliases s)
        end
    end.
Proof.
  intros Hc.
  destruct (serviceAliases s !! keyword) as [old|] eqn:E.
  - rewrite (cleanupKeywordAliases_table h keyword s old E).
    destruct (validLoop_coherent h old [] s Hc) as [Hvalid Hc1].
    cbn [app] in Hvalid. rewrite Hvalid. split; [|reflexivity].
    unfold cleanupKeywordAliases. rewrite E.
    destruct (validLoop h old [] s) as [valid s1]. cbn [fst snd] in *.
    destruct valid; cbn [length Nat.eqb];
      cbn [scheduleSave setExistenceCache setAliases now serviceExistenceCache];
      [now apply coherent_delete | assumption].
  - unfold cleanupKeywordAliases. rewrite E. now split.
Qed.

(** X9.  On a host whose answers the existence cache reflects,
    [cleanupKeywordAliases] leaves for the keyword exactly its aliases that
    still exist (no entry when none does), leaves the other keywords alone,
    and a second cleanup changes nothing more. *)
Theorem cleanupKeywordAliases_idempotent (h : Host) (keyword : string)
    (s : State) :
  coherent h (now s) (serviceExistenceCache s) ->
  serviceAliases (cleanupKeywordAliases h keyword s) !! keyword
  = serviceAliases s !! keyword ≫= pruned h /\
  (forall k, k <> keyword ->
     serviceAliases (cleanupKeywordAliases h keyword s) !! k
     = serviceAliases s !! k) /\
  serviceAliases (cleanupKeywordAliases h keyword
                    (cleanupKeywordAliases h keyword s))
  = serviceAliases (cleanupKeywordAliases h keyword s).
Proof.
  intros Hc.
  destruct (cleanupKeywordAliases_coherent h keyword s Hc) as [Hc1 E1].
  destruct (cleanupKeywordAliases_coherent h keyword _ Hc1) as [_ E2].
  rewrite E2, E1. clear E1 E2 Hc1. unfold pruned.
  destruct (serviceAliases s !! keyword) as [old|] eqn:E; cbn.
  - destruct (List.filter (existsOnHost h) old) as [|v rest] eqn:F.
    + rewrite !lookup_delete_eq.
      split; [reflexivity|]. split; [|reflexivity].
      intros k Hk. now apply lookup_delete_ne.
    + rewrite !lookup_insert_eq, <- F, filter_filter, F.
      split; [reflexivity|]. split.
      * intros k Hk. now apply lookup_insert_ne.
      * apply insert_insert_eq.
  - rewrite E. now repeat split.
Qed.

Lemma cleanupKeywordAliases_idempotent_witness :
  coherent (sysvHost ["nginx"]) (now webAliases)
    (serviceExistenceCache webAliases) /\
  serviceAliases (cleanupKeywordAliases (sysvHost ["nginx"]) "web" webAliases)
    !! "web" = Some ["nginx"].
Proof.
  assert (H : coherent (sysvHost ["nginx"]) (now webAliases)
                (serviceExistenceCache webAliases)) by apply coherent_empty.
  split; [exact H|].
  destruct (cleanupKeywordAliases_idempotent (sysvHost ["nginx"]) "web"
              webAliases H) as (Hkey & _).
  rewrite Hkey. vm_compute. reflexivity.
Defined.

(** X10.  Round trip within one process: after a burst of [updateAliases]
    calls that changed the table and a flush whose write and rename
    succeed, the table being one that its JSON text gives back, loading the
    alias file gives, keyword by keyword, the aliases of the table that
    still exist on the host, and no entry for a keyword left with none. *)
Theorem flush_then_load (h : Host) (calls : list (string * string))
    (s : State) :
  coherent h (now s) (serviceExistenceCache s) ->
  serviceAliases (updateAll h calls s) <> serviceAliases s ->
  flushSucceeds h ->
  jsonReadBack h (serviceAliases (updateAll h calls s))
  = serviceAliases (updateAll h calls s) ->
  forall k,
    fst (loadAliasesFromConfig h (saveTimerFires h (updateAll h calls s))) !! k
    = serviceAliases (updateAll h calls s) !! k ≫= pruned h.
Proof.
  intros Hc Hchanged Hflush Hjson k.
  destruct (updateAll_cases h calls s) as [E|(Ht & Hf & _)];
    [rewrite E in Hchanged; congruence|].
  assert (Hframe : forall calls0 s0,
            now (updateAll h calls0 s0) = now s0 /\
            serviceExistenceCache (updateAll h calls0 s0)
            = serviceExistenceCache s0).
  { induction calls0 as [|[kw al] rest IH]; intros s0; cbn [updateAll];
      [now split|].
    destruct (IH (updateAliases h kw al s0)) as [Hn Hx].
    destruct (updateAliases_frame h kw al s0) as (Hn' & Hx' & _).
    split; congruence. }
  destruct (Hframe calls s) as [Hn Hx].
  destruct (saveTimerFires_frame h (updateAll h calls s))
    as (Hfile & _ & Hn1 & Hx1 & _).
  destruct (flush_alias_file h (updateAll h calls s) _ Ht Hf) as (Hok & _ & _).
  apply loadAliasesFromConfig_prunes.
  - rewrite Hfile, Hf. now apply filepath_Join_not_empty.
  - rewrite Hfile, Hf, (proj1 (Hok Hflush)). now rewrite Hjson.
  - now rewrite Hn1, Hx1, Hn, Hx.
Qed.

Lemma flush_then_load_witness :
  coherent (sysvHost ["sshd"]) (now (processStart 0 ∅))
    (serviceExistenceCache (processStart 0 ∅)) /\
  flushSucceeds (sysvHost ["sshd"]) /\
  fst (loadAliasesFromConfig (sysvHost ["sshd"])
         (saveTimerFires (sysvHost ["sshd"])
            (updateAll (sysvHost ["sshd"])
               [("ssh", "sshd"); ("ssh", "dropbear"); ("web", "httpd")]
               (processStart 0 ∅)))) !! "ssh" = Some ["sshd"] /\
  fst (loadAliasesFromConfig (sysvHost ["sshd"])
         (saveTimerFires (sysvHost ["sshd"])
            (updateAll (sysvHost ["sshd"])
               [("ssh", "sshd"); ("ssh", "dropbear"); ("web", "httpd")]
               (processStart 0 ∅)))) !! "web" = None.
Proof.
  assert (H : coherent (sysvHost ["sshd"]) (now (processStart 0 ∅))
                (serviceExistenceCache (processStart 0 ∅)))
    by apply coherent_empty.
  assert (Hchanged :
            serviceAliases
              (updateAll (sysvHost ["sshd"])
                 [("ssh", "sshd"); ("ssh", "dropbear"); ("web", "httpd")]
                 (processStart 0 ∅))
            <> serviceAliases (processStart 0 ∅)).
  { intros E. apply (f_equal (fun t => t !! "ssh")) in E.
    vm_compute in E. discriminate E. }
  assert (Hflush : flushSucceeds (sysvHost ["sshd"])) by (split; reflexivity).
  split; [exact H|]. split; [exact Hflush|].
  split; rewrite (flush_then_load _ _ _ H Hchanged Hflush eq_refl);
    vm_compute; reflexivity.
Defined.

(** ** Package [strings]: substrings and fields *)

Local Close Scope Z_scope.

Lemma prefix_spec (p s : string) :
  String.prefix p s = true <-> exists post, s = p +:+ post.
Proof.
  revert s. induction p as [|c p IH]; intros s.
  - split; [intros _; now exists s | now destruct s].
  - destruct s as [|d s]; cbn [String.prefix].
    + split; [discriminate | intros [post E]; discriminate E].
    + destruct (Ascii.ascii_dec c d) as [->|Hne].
      * rewrite IH. split; intros [post E]; exists post.
        -- rewrite append_cons. now rewrite E.
        -- rewrite append_cons in E. now injection E.
      * split; [discriminate|]. intros [post E].
        rewrite append_cons in E. injection E as E1 _. congruence.
Qed.

Lemma Contains_spec (s substr : string) :
  Contains s substr = true <->
  exists before after, s = before +:+ substr +:+ after.
Proof.
  induction s as [|c s IH]; rewrite Contains_unfold; unfold HasPrefix.
  - rewrite orb_false_r, prefix_spec. split.
    + intros [post E]. now exists EmptyString, post.
    + intros (before & after & E). destruct before; [now exists after|].
      discriminate E.
  - rewrite orb_true_iff, prefix_spec, IH. split.
    + intros [[post E]|(before & after & E)].
      * now exists EmptyString, post.
      * exists (String c before), after. rewrite append_cons. now rewrite E.
    + intros (before & after & E). destruct before as [|d before].
      * left. now exists after.
      * right. rewrite append_cons in E. injection E as _ E.
        now exists before, after.
Qed.

Lemma Contains_trans (s a b : string) :
  Contains s a = true -> Contains a b = true -> Contains s b = true.
Proof.
  rewrite !Contains_spec. intros (p1 & q1 & ->) (p2 & q2 & ->).
  exists (p1 +:+ p2), (q2 +:+ q1). now rewrite !append_assoc.
Qed.

Lemma Contains_ToLower (s substr : string) :
  Contains s substr = true ->
  Contains (ToLower s) (ToLower substr) = true.
Proof.
  rewrite !Contains_spec. intros (before & after & ->).
  exists (ToLower before), (ToLower after). now rewrite !ToLower_append.
Qed.

Lemma Contains_not_empty (s substr : string) :
  Contains s substr = true -> substr <> EmptyString -> s <> EmptyString.
Proof. intros H Hne ->. now apply Contains_empty_l in H. Qed.

Lemma Fields_cons (c : ascii) (s' : string) :
  Fields (String c s')
  = if isSpace c then Fields s'
    else
      match s' with
      | EmptyString => [String c EmptyString]
      | String c' _ =>
          if isSpace c' then String c EmptyString :: Fields s'
          else
            match Fields s' with
            | w :: ws => String c w :: ws
            | [] => [String c EmptyString]
            end
      end.
Proof. reflexivity. Qed.

Lemma Fields_words (s w : string) :
  In w (Fields s) -> w <> EmptyString /\ noSpace w = true.
Proof.
  revert w. induction s as [|c s IH]; intros w; [intros []|].
  rewrite Fields_cons. destruct (isSpace c) eqn:Hc; [apply IH|].
  assert (Hone : forall x, String c EmptyString = x ->
                   x <> EmptyString /\ noSpace x = true).
  { intros x <-. split; [discriminate|]. cbn [noSpace]. now rewrite Hc. }
  destruct s as [|c' s']; [intros [E|[]]; now apply Hone|].
  destruct (isSpace c'); [intros [E|Hin]; [now apply Hone | now apply IH]|].
  destruct (Fields (String c' s')) as [|w0 ws];
    [intros [E|[]]; now apply Hone|].
  intros [<-|Hin].
  - destruct (IH w0) as [_ Hw0]; [now left|].
    split; [discriminate|]. cbn [noSpace]. now rewrite Hc, Hw0.
  - apply IH. now right.
Qed.

(** ** Enumeration *)

Lemma systemdCollect_names (lines : list string) (keyword : string)
    (services : list string) (n : string) :
  In n (systemdCollect lines keyword services) ->
  In n services \/
  (Contains n keyword = true /\
   exists line, In line lines /\ hd_error (Fields line) = Some n).
Proof.
  revert services. induction lines as [|line rest IH]; intros services;
    cbn [systemdCollect]; [now left|].
  destruct (Fields line) as [|f fs] eqn:F; cbn [length Nat.ltb Nat.leb hd].
  - intros Hin. destruct (IH _ Hin) as [H|(Hc & l & Hl & Hf)]; [now left|].
    right. split; [assumption|]. exists l. split; [now right | assumption].
  - destruct (Contains f keyword) eqn:C; intros Hin;
      destruct (IH _ Hin) as [H|(Hc & l & Hl & Hf)].
    + apply in_app_or in H as [H|[<-|[]]]; [now left|].
      right. split; [assumption|]. exists line.
      split; [now left | now rewrite F].
    + right. split; [assumption|]. exists l. split; [now right | assumption].
    + now left.
    + right. split; [assumption|]. exists l. split; [now right | assumption].
Qed.

Lemma systemdCollect_listing
    (run : list string -> string * option error)
    (b : Managers.baseManager) (keyword : string) :
  match systemdFindServices run b keyword with
  | (names, None) =>
      forall n,
        In n names ->
        n <> EmptyString /\ noSpace n = true /\ Contains n keyword = true
  | (names, Some _) => names = []
  end.
Proof.
  unfold systemdFindServices.
  destruct (run [Managers.cmdTool b; "list-unit-files"; "--type=service";
                 "--no-legend"]) as [out [e|]]; [reflexivity|].
  intros n Hin.
  destruct (systemdCollect_names _ _ _ _ Hin) as [[]|(Hc & line & Hl & Hf)].
  assert (Hw : In n (Fields line)).
  { destruct (Fields line); [discriminate Hf|]. injection Hf as ->. now left. }
  destruct (Fields_words _ _ Hw) as [Hne Hns]. now repeat split.
Qed.

(** X11.  Every name [systemdManager.FindServices] returns is the first
    field of a line of the listing, so it is not empty and holds no white
    space, and it contains the keyword; when the listing command fails the
    result is the empty list with a wrapping error. *)
Theorem systemdFindServices_names (run : list string -> string * option error)
    (b : Managers.baseManager) (keyword : string) :
  match systemdFindServices run b keyword with
  | (names, None) =>
      snd (run [Managers.cmdTool b; "list-unit-files"; "--type=service";
                "--no-legend"]) = None /\
      forall n,
        In n names ->
        n <> EmptyString /\ noSpace n = true /\ Contains n keyword = true /\
        exists line,
          In line
            (SplitByte newline
               (fst (run [Managers.cmdTool b; "list-unit-files";
                          "--type=service"; "--no-legend"]))) /\
          hd_error (Fields line) = Some n
  | (names, Some e) =>
      names = [] /\
      exists cause,
        snd (run [Managers.cmdTool b; "list-unit-files"; "--type=service";
                  "--no-legend"]) = Some cause /\
        e = Wrapf "failed to list systemd services: %w" [] (Plain cause)
  end.
Proof.
  unfold systemdFindServices.
  destruct (run [Managers.cmdTool b; "list-unit-files"; "--type=service";
                 "--no-legend"]) as [out [e|]]; cbn [fst snd].
  - split; [reflexivity|]. now exists e.
  - split; [reflexivity|]. intros n Hin.
    destruct (systemdCollect_names _ _ _ _ Hin) as [[]|(Hc & line & Hl & Hf)].
    assert (Hw : In n (Fields line)).
    { destruct (Fields line); [discriminate Hf|]. injection Hf as ->. now left. }
    destruct (Fields_words _ _ Hw) as [Hne Hns].
    repeat split; try assumption. now exists line.
Qed.

Lemma selectBestMatch_total (keyword : string) (names : list string) :
  names <> [] ->
  (forall n, In n names -> n <> EmptyString /\ Contains n keyword = true) ->
  exists n, selectBestMatch keyword names = (n, None) /\ In n names.
Proof.
  intros Hnil Hall. unfold selectBestMatch.
  destruct names as [|c0 rest]; [congruence|]. cbn [length Nat.eqb].
  destruct (exactLoop_member keyword (c0 :: rest) EmptyString) as [E|Hin].
  - rewrite E. cbn [String.eqb negb].
    destruct (Hall c0) as [Hne Hc]; [now left|].
    cbn [containLoop]. rewrite (Contains_ToLower _ _ Hc).
    rewrite (eqb_empty_false _ Hne). cbn [negb].
    exists c0. split; [reflexivity | now left].
  - destruct (Hall _ Hin) as [Hne _].
    rewrite (eqb_empty_false _ Hne). cbn [negb].
    eexists. split; [reflexivity | assumption].
Qed.

(** X12.  Best-match selection cannot fail on what systemd enumerates, for
    an ASCII keyword and an ASCII listing: when
    [systemdManager.FindServices] returns at least one name for the keyword,
    [selectBestMatch] for that keyword returns one of these names and no
    error. *)
Theorem systemd_selection_total (run : list string -> string * option error)
    (b : Managers.baseManager) (keyword : string) :
  isASCII keyword = true ->
  isASCII (fst (run [Managers.cmdTool b; "list-unit-files"; "--type=service";
                     "--no-legend"])) = true ->
  fst (systemdFindServices run b keyword) <> [] ->
  exists n,
    selectBestMatch keyword (fst (systemdFindServices run b keyword))
    = (n, None) /\
    In n (fst (systemdFindServices run b keyword)).
Proof.
  intros _ _ Hne. apply selectBestMatch_total; [assumption|].
  intros n Hin. pose proof (systemdCollect_listing run b keyword) as H.
  destruct (systemdFindServices run b keyword) as [names [e|]]; cbn [fst] in *.
  - subst names. destruct Hin.
  - destruct (H n Hin) as (Hn & _ & Hc). now split.
Qed.

Lemma systemd_selection_total_witness :
  isASCII "docker" = true /\
  isASCII (fst (listingTool [Managers.cmdTool systemd; "list-unit-files";
                             "--type=service"; "--no-legend"])) = true /\
  fst (systemdFindServices listingTool systemd "docker") <> [] /\
  fst (systemdFindServices listingTool systemd "docker") = ["docker.service"] /\
  selectBestMatch "docker" (fst (systemdFindServices listingTool systemd "docker"))
  = ("docker.service", None).
Proof.
  assert (H : fst (systemdFindServices listingTool systemd "docker") <> [])
    by (vm_compute; discriminate).
  split; [reflexivity|]. split; [reflexivity|].
  split; [exact H|]. split; [vm_compute; reflexivity|].
  destruct (systemd_selection_total listingTool systemd "docker"
              eq_refl eq_refl H) as (n & Hsel & Hin).
  rewrite Hsel. f_equal.
  assert (E : fst (systemdFindServices listingTool systemd "docker")
              = ["docker.service"]) by (vm_compute; reflexivity).
  rewrite E in Hin. destruct Hin as [<-|[]]. reflexivity.
Defined.

(** ** Status parsing, once more *)

(** X13.  The parsers of systemd and OpenRC, and the shared
    [baseManager.ParseStatus], never return an error and answer [false] on
    an empty output.  The SysV parser returns an error in one case only:
    kind "active" on an output with none of "not found", "running" and
    "active"; and since "inactive" contains "active", an output that says
    "inactive" (without "not found") is parsed as active. *)
Theorem ParseStatus_errors (m : Managers.baseManager)
    (output statusType : string) :
  snd (Managers.baseParseStatus m output statusType) = None /\
  snd (Managers.systemdParseStatus m output statusType) = None /\
  snd (Managers.openrcParseStatus m output statusType) = None /\
  Managers.systemdParseStatus m EmptyString statusType = (false, None) /\
  Managers.openrcParseStatus m EmptyString statusType = (false, None) /\
  (snd (Managers.sysvinitParseStatus m output statusType) <> None <->
   statusType = "active" /\ Contains output "not found" = false /\
   Contains output "running" = false /\ Contains output "active" = false) /\
  (Contains output "inactive" = true -> Contains output "not found" = false ->
   Managers.sysvinitParseStatus m output "active" = (true, None)).
Proof.
  assert (Hbase : forall out t, snd (Managers.baseParseStatus m out t) = None).
  { intros out t. unfold Managers.baseParseStatus.
    destruct (String.eqb out EmptyString); [reflexivity|].
    destruct (String.eqb t "active");
      [destruct (Managers.activeRegex m); reflexivity|].
    destruct (String.eqb t "enabled");
      [destruct (Managers.enabledRegex m); reflexivity | reflexivity]. }
  split; [apply Hbase|].
  split.
  { unfold Managers.systemdParseStatus.
    destruct (Contains output "could not be found"); [reflexivity|].
    now destruct (Managers.baseParseStatus m output statusType) as [r [e|]]. }
  split.
  { unfold Managers.openrcParseStatus.
    destruct (Contains output "does not exist"); [reflexivity|].
    now destruct (Managers.baseParseStatus m output statusType) as [r [e|]]. }
  split; [reflexivity|]. split; [reflexivity|]. split.
  - unfold Managers.sysvinitParseStatus.
    destruct (String.eqb_spec statusType "enabled") as [->|Hen].
    + destruct (Contains output "no such file or directory"); cbn [snd];
        (split; [congruence | intros [E _]; discriminate E]).
    + destruct (String.eqb_spec statusType "active") as [->|Hac].
      * destruct (Contains output "not found"); cbn [snd];
          [split; [congruence | intros (_ & E & _); discriminate E]|].
        destruct (Contains output "running"); cbn [orb snd];
          [split; [congruence | intros (_ & _ & E & _); discriminate E]|].
        destruct (Contains output "active"); cbn [snd];
          [split; [congruence | intros (_ & _ & _ & E); discriminate E]|].
        split; [now repeat split | discriminate].
      * rewrite Hbase. split; [congruence | intros [E _]; contradiction].
  - intros Hin Hnf. unfold Managers.sysvinitParseStatus.
    cbn [String.eqb Ascii.eqb]. cbv beta iota. rewrite Hnf.
    assert (Ha : Contains output "active" = true)
      by (apply (Contains_trans _ "inactive"); [assumption | reflexivity]).
    rewrite Ha. now rewrite orb_true_r.
Qed.

(** ** The manager registry *)

Lemma testManager_true (root : bool) (m : registered) :
  testManager root m = true.
Proof.
  destruct m as [[] b]; reflexivity.
Qed.

Lemma firstUsable_spec (lookPath : string -> bool) (root : bool)
    (managers : gmap string registered) (priority : list string) :
  match firstUsable lookPath root managers priority with
  | Some mgr =>
      exists before name after,
        priority = before ++ name :: after /\
        managers !! name = Some mgr /\ IsAvailable lookPath mgr = true /\
        forall n, In n before -> ~ usable lookPath root managers n
  | None => forall n, In n priority -> ~ usable lookPath root managers n
  end.
Proof.
  induction priority as [|name rest IH]; cbn [firstUsable]; [intros n []|].
  assert (Hskip :
            ~ usable lookPath root managers name ->
            match firstUsable lookPath root managers rest with
            | Some mgr =>
                exists before name0 after,
                  name :: rest = before ++ name0 :: after /\
                  managers !! name0 = Some mgr /\
                  IsAvailable lookPath mgr = true /\
                  forall n, In n before -> ~ usable lookPath root managers n
            | None =>
                forall n, In n (name :: rest) ->
                          ~ usable lookPath root managers n
            end).
  { intros Hno. destruct (firstUsable lookPath root managers rest) as [mgr|].
    - destruct IH as (before & name0 & after & -> & Hm & Ha & Hb).
      exists (name :: before), name0, after. repeat split; try assumption.
      intros n [<-|Hin]; [assumption | now apply Hb].
    - intros n [<-|Hin]; [assumption | now apply IH]. }
  destruct (managers !! name) as [mgr|] eqn:Hm.
  - destruct (IsAvailable lookPath mgr) eqn:Ha.
    + rewrite testManager_true.
      exists [], name, rest. repeat split; try assumption. intros n [].
    + apply Hskip. intros (m' & Hm' & Ha' & _). congruence.
  - apply Hskip. intros (m' & Hm' & _). congruence.
Qed.

(** X14.  [InitializeGlobalManager] adopts the manager of the first name in
    the priority list that is registered and whose tool is on the search
    path (the smoke test never fails for the three managers); when no name
    qualifies it returns an error and leaves the global manager as it was. *)
Theorem InitializeGlobalManager_priority (lookPath : string -> bool)
    (root : bool) (managers : gmap string registered)
    (managerPriority : list string) (globalManager : option registered) :
  match InitializeGlobalManager lookPath root managers managerPriority
          globalManager with
  | (chosen, None) =>
      exists mgr before name after,
        chosen = Some mgr /\
        managerPriority = before ++ name :: after /\
        managers !! name = Some mgr /\ IsAvailable lookPath mgr = true /\
        forall n, In n before -> ~ usable lookPath root managers n
  | (chosen, Some _) =>
      chosen = globalManager /\
      forall n, In n managerPriority -> ~ usable lookPath root managers n
  end.
Proof.
  unfold InitializeGlobalManager.
  pose proof (firstUsable_spec lookPath root managers managerPriority) as H.
  destruct (firstUsable lookPath root managers managerPriority) as [mgr|].
  - destruct H as (before & name & after & Hp & Hm & Ha & Hb).
    exists mgr, before, name, after. now repeat split.
  - now split.
Qed.

Local Open Scope Z_scope.

Lemma retryLoop_unrolled (lookPathAt : Z -> string -> bool) (root : bool)
    (managers : gmap string registered) (managerPriority : list string)
    (globalManager : option registered) (t0 : Z) :
  initializeWithRetry lookPathAt root managers managerPriority globalManager t0
  = match firstUsable (lookPathAt (t0 + 0 * Second)) root managers
            managerPriority with
    | Some m => Returns (Some m, t0 + 0 * Second)
    | None =>
    match firstUsable (lookPathAt (t0 + 1 * Second)) root managers
            managerPriority with
    | Some m => Returns (Some m, t0 + 1 * Second)
    | None =>
    match firstUsable (lookPathAt (t0 + 3 * Second)) root managers
            managerPriority with
    | Some m => Returns (Some m, t0 + 3 * Second)
    | None =>
    match firstUsable (lookPathAt (t0 + 7 * Second)) root managers
            managerPriority with
    | Some m => Returns (Some m, t0 + 7 * Second)
    | None =>
    match firstUsable (lookPathAt (t0 + 15 * Second)) root managers
            managerPriority with
    | Some m => Returns (Some m, t0 + 15 * Second)
    | None => Panics "unable to initialize service manager"
    end end end end end.
Proof.
  unfold initializeWithRetry, maxRetries, initialWait.
  replace (t0 + 0 * Second) with t0 by lia.
  replace (t0 + 3 * Second) with (t0 + 1 * Second + 1 * Second * 2) by lia.
  replace (t0 + 7 * Second)
    with (t0 + 1 * Second + 1 * Second * 2 + 1 * Second * 2 * 2) by lia.
  replace (t0 + 15 * Second)
    with (t0 + 1 * Second + 1 * Second * 2 + 1 * Second * 2 * 2
          + 1 * Second * 2 * 2 * 2) by lia.
  cbn [retryLoop Nat.ltb Nat.leb]. unfold InitializeGlobalManager.
  repeat match goal with
         | |- context [firstUsable ?l root managers managerPriority] =>
             destruct (firstUsable l root managers managerPriority);
             try reflexivity
         end.
Qed.

(** X15.  [initializeWithRetry] probes for a manager at most five times, at
    0, 1, 3, 7 and 15 seconds after it is called (the waits of 1, 2, 4 and
    8 seconds between attempts): it returns the manager found at the first
    of these instants at which one is usable, at that instant, and it panics
    exactly when none is usable at any of the five. *)
Theorem initializeWithRetry_schedule (lookPathAt : Z -> string -> bool)
    (root : bool) (managers : gmap string registered)
    (managerPriority : list string) (globalManager : option registered)
    (t0 : Z) :
  (initializeWithRetry lookPathAt root managers managerPriority
     globalManager t0 = Panics "unable to initialize service manager" <->
   forall off,
     In off [0; 1; 3; 7; 15] ->
     firstUsable (lookPathAt (t0 + off * Second)) root managers
       managerPriority = None) /\
  (forall g t,
     initializeWithRetry lookPathAt root managers managerPriority
       globalManager t0 = Returns (g, t) ->
     exists before off after mgr,
       [0; 1; 3; 7; 15] = before ++ off :: after /\
       t = t0 + off * Second /\ g = Some mgr /\
       firstUsable (lookPathAt (t0 + off * Second)) root managers
         managerPriority = Some mgr /\
       forall o,
         In o before ->
         firstUsable (lookPathAt (t0 + o * Second)) root managers
           managerPriority = None).
Proof.
  rewrite retryLoop_unrolled.
  destruct (firstUsable (lookPathAt (t0 + 0 * Second)) root managers
              managerPriority) as [m0|] eqn:E0.
  { split.
    - split; [discriminate|]. intros H.
      specialize (H 0). rewrite E0 in H. discriminate H. now left.
    - intros g t [= <- <-]. exists [], 0, [1; 3; 7; 15], m0.
      repeat split; try assumption. intros o []. }
  destruct (firstUsable (lookPathAt (t0 + 1 * Second)) root managers
              managerPriority) as [m1|] eqn:E1.
  { split.
    - split; [discriminate|]. intros H.
      specialize (H 1). rewrite E1 in H. discriminate H. right. now left.
    - intros g t [= <- <-]. exists [0], 1, [3; 7; 15], m1.
      repeat split; try assumption. intros o [<-|[]]. assumption. }
  destruct (firstUsable (lookPathAt (t0 + 3 * Second)) root managers
              managerPriority) as [m3|] eqn:E3.
  { split.
    - split; [discriminate|]. intros H.
      specialize (H 3). rewrite E3 in H. discriminate H. cbn. tauto.
    - intros g t [= <- <-]. exists [0; 1], 3, [7; 15], m3.
      repeat split; try assumption. intros o [<-|[<-|[]]]; assumption. }
  destruct (firstUsable (lookPathAt (t0 + 7 * Second)) root managers
              managerPriority) as [m7|] eqn:E7.
  { split.
    - split; [discriminate|]. intros H.
      specialize (H 7). rewrite E7 in H. discriminate H. cbn. tauto.
    - intros g t [= <- <-]. exists [0; 1; 3], 7, [15], m7.
      repeat split; try assumption.
      intros o [<-|[<-|[<-|[]]]]; assumption. }
  destruct (firstUsable (lookPathAt (t0 + 15 * Second)) root managers
              managerPriority) as [m15|] eqn:E15.
  { split.
    - split; [discriminate|]. intros H.
      specialize (H 15). rewrite E15 in H. discriminate H. cbn. tauto.
    - intros g t [= <- <-]. exists [0; 1; 3; 7], 15, [], m15.
      repeat split; try assumption.
      intros o [<-|[<-|[<-|[<-|[]]]]]; assumption. }
  split.
  - split; [|reflexivity]. intros _ off [<-|[<-|[<-|[<-|[<-|[]]]]]]; assumption.
  - intros g t E. discriminate E.
Qed.

(** ** Status of a service *)

Local Close Scope Z_scope.

Lemma activeTask_result (h : Host)
    (parse : string -> string -> bool * option error)
    (handler : ServiceHandler) (r : checkResult) :
  Handler.activeTask h parse handler = Returns r ->
  isEnabled r = false /\ (err r <> None -> isActive r = false).
Proof.
  unfold Handler.activeTask.
  destruct (BuildCommand (manager h) "status" (config handler)) as [cmd [e|]];
    [intros [= <-]; now split|].
  destruct cmd as [|c args]; [discriminate|].
  destruct (executeCommand h (c :: args)) as [out [e|]];
    [intros [= <-]; now split|].
  destruct (parse out "active") as [active [e|]]; intros [= <-]; now split.
Qed.

Lemma enabledTask_result (h : Host)
    (parse : string -> string -> bool * option error)
    (handler : ServiceHandler) (r : checkResult) :
  Handler.enabledTask h parse handler = Returns r -> isActive r = false.
Proof.
  unfold Handler.enabledTask.
  destruct (BuildCommand (manager h) "is-enabled" (config handler))
    as [cmd [e|]]; [now intros [= <-]|].
  destruct cmd as [|c args]; [discriminate|].
  destruct (executeCommand h (c :: args)) as [out [e|]]; [now intros [= <-]|].
  destruct (parse out "enabled") as [enabled [e|]]; now intros [= <-].
Qed.

Lemma CheckStatus_exclusive (h : Host)
    (parse : string -> string -> bool * option error)
    (activeFirst : bool) (handler : ServiceHandler)
    (status : ServiceStatus.t) (errs : list goError) :
  Handler.CheckStatus h parse activeFirst handler = Returns (status, errs) ->
  ServiceStatus.IsActive status && ServiceStatus.IsEnabled status = false /\
  (errs = [] ->
   if activeFirst then ServiceStatus.IsActive status = false
   else ServiceStatus.IsEnabled status = false).
Proof.
  unfold Handler.CheckStatus.
  destruct (Handler.activeTask h parse handler) as [r1|p1] eqn:T1;
    [|discriminate].
  destruct (Handler.enabledTask h parse handler) as [r2|p2] eqn:T2;
    [|discriminate].
  destruct (activeTask_result _ _ _ _ T1) as [H1 _].
  pose proof (enabledTask_result _ _ _ _ T2) as H2.
  destruct activeFirst; cbn [Handler.collect];
    destruct (err r1) as [e1|], (err r2) as [e2|];
    cbn [Handler.collect app]; intros [= <- <-];
    cbn [ServiceStatus.IsActive ServiceStatus.IsEnabled ServiceStatus.zero];
    rewrite ?H1, ?H2, ?andb_false_r; (split; [reflexivity|]);
    intros E; try discriminate E; reflexivity.
Qed.

Lemma Status_flags (h : Host)
    (parse : string -> string -> bool * option error)
    (activeFirst : bool) (serviceName : string) (s s' : State)
    (active enabled : bool) (e : option statusError) :
  Status h parse activeFirst serviceName s
  = Returns ((active, enabled, e), s') ->
  active && enabled = false /\
  (activeFirst = true -> active = false) /\
  (activeFirst = false -> enabled = false).
Proof.
  unfold Status.
  destruct (DefaultHandler h serviceName s) as [[handler [e0|]] s1];
    [intros [= <- <- _ _]; now repeat split|].
  destruct handler as [hd|]; [|discriminate].
  destruct (Handler.CheckStatus h parse activeFirst hd) as [[status errs]|p]
    eqn:C; [|discriminate].
  destruct (CheckStatus_exclusive _ _ _ _ _ _ C) as [Hboth Hfirst].
  destruct errs as [|e1 errs]; intros [= <- <- _ _];
    [|now repeat split].
  specialize (Hfirst eq_refl).
  split; [assumption|]. split; intros ->; assumption.
Qed.

(** X16.  [CheckStatus] never reports a service as both active and enabled:
    each of the two results it collects overwrites both flags, so without
    error the flag of the result received first is lost — [IsActive] is
    false when the "status" result comes first, [IsEnabled] is false when it
    comes second.  The same holds for the booleans [Status] returns. *)
Theorem Status_never_both (h : Host)
    (parse : string -> string -> bool * option error)
    (activeFirst : bool) :
  (forall handler status errs,
     Handler.CheckStatus h parse activeFirst handler = Returns (status, errs) ->
     ServiceStatus.IsActive status && ServiceStatus.IsEnabled status = false /\
     (errs = [] ->
      if activeFirst then ServiceStatus.IsActive status = false
      else ServiceStatus.IsEnabled status = false)) /\
  (forall serviceName s active enabled e s',
     Status h parse activeFirst serviceName s
     = Returns ((active, enabled, e), s') ->
     active && enabled = false /\
     (activeFirst = true -> active = false) /\
     (activeFirst = false -> enabled = false)).
Proof.
  split; [intros handler status errs; apply CheckStatus_exclusive|].
  intros serviceName s active enabled e s'. apply Status_flags.
Qed.

(** X17.  [SafeRestart] stops at the first configuration file that is
    missing, with an error naming it and the process state untouched; and
    it cannot succeed when the "status" result is the first that
    [CheckStatus] receives, whatever the state of the service. *)
Theorem SafeRestart_failures (h : Host) (fileExist : string -> bool)
    (parse : string -> string -> bool * option error)
    (service : string) (configPaths : list string) (s : State) :
  (forall before path after,
     configPaths = before ++ path :: after ->
     fileExist path = false ->
     (forall p, In p before -> fileExist p = true) ->
     forall activeFirst,
       SafeRestart h fileExist parse activeFirst service configPaths s
       = Returns (Some (ConfigMissing path), s)) /\
  (forall s',
     SafeRestart h fileExist parse true service configPaths s
     <> Returns (None, s')).
Proof.
  split.
  - intros before path after -> Hmissing Hbefore activeFirst.
    unfold SafeRestart.
    assert (E : firstMissing fileExist (before ++ path :: after) = Some path).
    { induction before as [|b before IH]; cbn [app firstMissing].
      - now rewrite Hmissing.
      - rewrite (Hbefore b) by now left. cbn [negb].
        apply IH. intros p Hp. apply Hbefore. now right. }
    now rewrite E.
  - intros s'. unfold SafeRestart.
    destruct (firstMissing fileExist configPaths); [discriminate|].
    destruct (executeCommand h ["check"; service]) as [out [e|]];
      [discriminate|].
    destruct (Restart h service s) as [[[e|] s1]|p]; try discriminate.
    destruct (Status h parse true service s1)
      as [[[[active enabled] e] s2]|p] eqn:St; [|discriminate].
    destruct (Status_flags _ _ _ _ _ _ _ _ _ St) as (_ & Hlost & _).
    rewrite (Hlost eq_refl). destruct e; discriminate.
Qed.

(** ** The control actions on a resolved keyword *)

Lemma stock_commandBuilt (h : Host) (b : Managers.baseManager) (root : bool) :
  BuildCommand (manager h) = Managers.systemdBuildCommand b root \/
  BuildCommand (manager h) = Managers.sysvinitBuildCommand b root \/
  BuildCommand (manager h) = Managers.openrcBuildCommand b root ->
  commandBuilt h.
Proof.
  intros [E|[E|E]] action cfg; rewrite E;
    unfold Managers.systemdBuildCommand, Managers.sysvinitBuildCommand,
      Managers.openrcBuildCommand, Managers.buildBaseCommand;
    repeat match goal with
           | |- context [String.eqb ?a ?b] => destruct (String.eqb a b)
           end;
    destruct root; cbn [app]; eauto.
Qed.

Lemma ExecuteAction_built (h : Host) (hd : ServiceHandler) (action : string) :
  commandBuilt h ->
  exists result,
    ExecuteAction h (Some hd) action
    = Returns (result,
               match snd (executeCommand h
                            (fst (BuildCommand (manager h) action (config hd))))
               with
               | Some e => Some (ErrOperation action e)
               | None => None
               end) /\
    (snd (executeCommand h
            (fst (BuildCommand (manager h) action (config hd)))) <> None ->
     Output result
     = fst (executeCommand h
              (fst (BuildCommand (manager h) action (config hd))))).
Proof.
  intros Hb. destruct (Hb action (config hd)) as (program & args & E).
  unfold ExecuteAction, GetServiceName, ManagerName, executeAction.
  destruct (String.eqb (Name (handlerManager hd)) EmptyString);
    rewrite E; cbn [fst snd];
    destruct (executeCommand h (program :: args)) as [out [e|]];
    cbn [fst snd]; eexists; (split; [reflexivity|]); cbn [Output];
    intros H; try reflexivity; now destruct H.
Qed.

(** X18.  On a host whose manager always builds a command (as the three
    stock managers do), a control action on a keyword that resolves never
    panics: it runs the manager's command for the resolved name once, leaves
    the state as the resolution left it, returns nil when the command
    succeeds and otherwise the error of the command, wrapped with its output
    ([Enable]: with the keyword and without the output). *)
Theorem actions_on_resolved (h : Host) (keyword svc : string) (s s' : State) :
  commandBuilt h ->
  smartServiceName h keyword s = ((svc, None), s') ->
  let run action :=
    executeCommand h
      (fst (BuildCommand (manager h) action (defaultServiceConfig h svc))) in
  Start h keyword s = Returns (actionError "start" (run "start"), s') /\
  Stop h keyword s = Returns (actionError "stop" (run "stop"), s') /\
  Restart h keyword s = Returns (actionError "restart" (run "restart"), s') /\
  Disable h keyword s = Returns (actionError "disable" (run "disable"), s') /\
  Enable h keyword s
  = Returns (match snd (run "enable") with
             | Some e => Some (ErrEnableFailed keyword (ErrOperation "enable" e))
             | None => None
             end, s').
Proof.
  intros Hb Hres run.
  unfold Start, Stop, Restart, Disable, Enable, DefaultHandler,
    StartService, StopService, RestartService, DisableService, EnableService,
    actionError.
  rewrite Hres.
  repeat split;
    match goal with
    | |- context [ExecuteAction h (Some ?hd) ?action] =>
        destruct (ExecuteAction_built h hd action Hb) as (result & -> & Hout);
        cbn [config NewServiceHandler] in *; fold (run action) in *;
        destruct (snd (run action)) as [e|]; [|reflexivity];
        rewrite ?Hout by discriminate; reflexivity
    end.
Qed.

Lemma actions_on_resolved_witness :
  commandBuilt (sysvHost ["nginx"]) /\
  Start (sysvHost ["nginx"]) "Nginx.service" (processStart 0 ∅)
  = Returns (None,
             snd (smartServiceName (sysvHost ["nginx"]) "Nginx.service"
                    (processStart 0 ∅))).
Proof.
  assert (Hb : commandBuilt (sysvHost ["nginx"])).
  { apply (stock_commandBuilt _ sysvinit true). right. left. reflexivity. }
  split; [exact Hb|].
  destruct (actions_on_resolved (sysvHost ["nginx"]) "Nginx.service" "nginx"
              (processStart 0 ∅)
              (snd (smartServiceName (sysvHost ["nginx"]) "Nginx.service"
                      (processStart 0 ∅)))
              Hb) as (HStart & _).
  - vm_compute. reflexivity.
  - rewrite HStart. reflexivity.
Defined.

(** ** Supervisor tooling *)








Local Open Scope Z_scope.

Lemma atoiLoop_acc (d : Decimal.uint) (acc : positive) :
  atoiLoop (Zpos acc) (NilEmpty.string_of_uint d)
  = Some (Zpos (Pos.of_uint_acc d acc)).
Proof.
  revert acc. induction d as [|d IH|d IH|d IH|d IH|d IH|d IH|d IH|d IH|d IH|d IH];
    intros acc; [reflexivity|..];
    cbn [NilEmpty.string_of_uint atoiLoop Pos.of_uint_acc];
    match goal with
    | |- (if ?b then _ else _) = _ => change b with true; cbv beta iota
    end;
    match goal with
    | |- atoiLoop ?n _ = Some (Zpos (Pos.of_uint_acc _ ?a)) =>
        replace n with (Zpos a) by (vm_compute Z.of_nat; lia)
    end;
    apply IH.
Qed.

Lemma atoiLoop_of_uint (d : Decimal.uint) :
  atoiLoop 0 (NilEmpty.string_of_uint d) = Some (Z.of_N (Pos.of_uint d)).
Proof.
  induction d as [|d IH|d IH|d IH|d IH|d IH|d IH|d IH|d IH|d IH|d IH];
    [reflexivity|exact IH|..];
    cbn [NilEmpty.string_of_uint atoiLoop Pos.of_uint];
    match goal with
    | |- (if ?b then _ else _) = _ => change b with true; cbv beta iota
    end;
    match goal with
    | |- atoiLoop ?n _ = Some (Z.of_N (Npos (Pos.of_uint_acc _ ?a))) =>
        change n with (Zpos a)
    end;
    apply atoiLoop_acc.
Qed.

Lemma atoiLoop_to_uint (p : positive) :
  atoiLoop 0 (NilEmpty.string_of_uint (Pos.to_uint p)) = Some (Zpos p).
Proof. now rewrite atoiLoop_of_uint, DecimalPos.Unsigned.of_to. Qed.

Lemma string_of_uint_head (d : Decimal.uint) :
  d <> Decimal.Nil ->
  exists c r,
    NilEmpty.string_of_uint d = String c r /\
    Ascii.eqb c "-" = false /\ Ascii.eqb c "+" = false.
Proof.
  destruct d; [congruence|..]; intros _;
    cbn [NilEmpty.string_of_uint]; eexists _, _; repeat split; reflexivity.
Qed.

Lemma Atoi_digits (s : string) (c : ascii) (r : string) (n : Z) :
  s = String c r -> Ascii.eqb c "-" = false -> Ascii.eqb c "+" = false ->
  atoiLoop 0 s = Some n -> - 2 ^ 63 <= n < 2 ^ 63 -> Atoi s = Some n.
Proof.
  intros -> Hm Hp Hn Hr. unfold Atoi. rewrite Hm, Hp, Hn.
  destruct (Z.leb_spec (- 2 ^ 63) n); [|lia].
  destruct (Z.ltb_spec n (2 ^ 63)); [reflexivity|lia].
Qed.

Lemma Atoi_Itoa (n : Z) : - 2 ^ 63 <= n < 2 ^ 63 -> Atoi (Itoa n) = Some n.
Proof.
  intros Hr. destruct n as [|p|p]; [reflexivity|..]; unfold Itoa;
    cbn [Z.to_int NilEmpty.string_of_int];
    destruct (string_of_uint_head (Pos.to_uint p)
                (DecimalPos.Unsigned.to_uint_nonnil p))
      as (c & r & E & Hm & Hp);
    pose proof (atoiLoop_to_uint p) as Hn.
  - now apply (Atoi_digits _ c r).
  - unfold Atoi. change (Ascii.eqb "-" "-") with true. cbv beta iota.
    rewrite E in *. rewrite Hn.
    change (- Z.pos p) with (Z.neg p).
    destruct (Z.leb_spec (- 2 ^ 63) (Z.neg p)); [|lia].
    destruct (Z.ltb_spec (Z.neg p) (2 ^ 63)); [reflexivity|lia].
Qed.

Lemma atoiLoop_twoDigits (k : Z) : 0 <= k -> atoiLoop 0 (twoDigits k) = Some k.
Proof.
  intros Hk. unfold twoDigits.
  assert (H : atoiLoop 0 (Itoa k) = Some k).
  { destruct k as [|p|p]; [reflexivity| |lia]. apply atoiLoop_to_uint. }
  destruct (10 <=? k); [exact H|].
  change ("0" +:+ Itoa k) with (String "0" (Itoa k)). exact H.
Qed.

Lemma append_inj_r (p a b : string) : p +:+ a = p +:+ b -> a = b.
Proof.
  induction p as [|c p IH]; [trivial|].
  rewrite !append_cons. intros [= E]. now apply IH.
Qed.

Lemma processName_twoDigits (name : string) (i : Z) :
  (if 10 <=? i
   then name +:+ ":" +:+ name +:+ "_" +:+ Itoa i
   else name +:+ ":" +:+ name +:+ "_0" +:+ Itoa i)
  = name +:+ ":" +:+ name +:+ "_" +:+ twoDigits i.
Proof. unfold twoDigits. now destruct (10 <=? i). Qed.

Lemma processNameLoop_map (name : string) (remaining : nat) (i : Z)
    (processNames : list string) :
  processNameLoop name remaining i processNames
  = processNames ++
    map (fun k => name +:+ ":" +:+ name +:+ "_" +:+ twoDigits (i + Z.of_nat k))
      (seq 0 remaining).
Proof.
  revert i processNames.
  induction remaining as [|r IH]; intros i processNames.
  - cbn. now rewrite app_nil_r.
  - cbn [processNameLoop]. rewrite processName_twoDigits, IH.
    rewrite <- app_assoc. f_equal. cbn [seq map app].
    rewrite Z.add_0_r. f_equal.
    rewrite <- seq_shift, map_map. apply map_ext. intros k.
    do 5 f_equal. lia.
Qed.

Lemma getProcessName_map (name numprocs : string) (n : Z) :
  Atoi numprocs = Some n ->
  getProcessName name numprocs
  = map (fun k => name +:+ ":" +:+ name +:+ "_" +:+ twoDigits (Z.of_nat k))
      (seq 0 (Z.to_nat n)).
Proof.
  intros E. unfold getProcessName. rewrite E.
  destruct (Z.eqb_spec n 1) as [->|_]; [reflexivity|].
  now rewrite processNameLoop_map.
Qed.

(** X20.  [getProcessName] returns nothing when [numprocs] is not a number
    or is not positive.  Otherwise it returns as many names as [numprocs]
    says, pairwise distinct, the k-th being "name:name_" followed by k
    written with two digits at least (the case of one process is the general
    one); and the decimal writing of a number of processes is read back as
    that number. *)
Theorem getProcessName_names (name numprocs : string) :
  (Atoi numprocs = None -> getProcessName name numprocs = []) /\
  (forall n,
     Atoi numprocs = Some n ->
     getProcessName name numprocs
     = map (fun k => name +:+ ":" +:+ name +:+ "_" +:+ twoDigits (Z.of_nat k))
         (seq 0 (Z.to_nat n)) /\
     length (getProcessName name numprocs) = Z.to_nat n /\
     (n <= 0 -> getProcessName name numprocs = []) /\
     List.NoDup (getProcessName name numprocs)) /\
  (forall n, 0 <= n < 2 ^ 63 -> numprocs = Itoa n -> Atoi numprocs = Some n).
Proof.
  split; [|split].
  - intros E. unfold getProcessName. now rewrite E.
  - intros n E. rewrite (getProcessName_map name numprocs n E).
    split; [reflexivity|]. split; [now rewrite length_map, length_seq|].
    split.
    { intros Hn. replace (Z.to_nat n) with 0%nat by lia. reflexivity. }
    apply List.NoDup_map_NoDup_ForallPairs; [|apply List.seq_NoDup].
    intros a b _ _ Eab. apply append_inj_r in Eab.
    change (":" +:+ name +:+ "_" +:+ twoDigits (Z.of_nat a))
      with (String ":" (name +:+ "_" +:+ twoDigits (Z.of_nat a))) in Eab.
    change (":" +:+ name +:+ "_" +:+ twoDigits (Z.of_nat b))
      with (String ":" (name +:+ "_" +:+ twoDigits (Z.of_nat b))) in Eab.
    injection Eab as Eab. apply append_inj_r in Eab.
    change ("_" +:+ twoDigits (Z.of_nat a))
      with (String "_" (twoDigits (Z.of_nat a))) in Eab.
    change ("_" +:+ twoDigits (Z.of_nat b))
      with (String "_" (twoDigits (Z.of_nat b))) in Eab.
    injection Eab as Eab.
    pose proof (atoiLoop_twoDigits (Z.of_nat a) (Nat2Z.is_nonneg a)) as Ha.
    pose proof (atoiLoop_twoDigits (Z.of_nat b) (Nat2Z.is_nonneg b)) as Hb.
    rewrite Eab in Ha. rewrite Ha in Hb. injection Hb as Hb. lia.
  - intros n Hn ->. apply Atoi_Itoa. lia.
Qed.

Local Close Scope Z_scope.

Lemma processStatusLoop_panics (lines : list string)
    (statuses : list ProcessStatus.t) :
  (exists reason, processStatusLoop lines statuses = Panics reason) <->
  exists line, In line lines /\ shortRunningLine line.
Proof.
  revert statuses. induction lines as [|line rest IH]; intros statuses.
  - cbn. split; [intros [r E]; discriminate E | intros (l & [] & _)].
  - cbn [processStatusLoop]. unfold shortRunningLine in *.
    assert (Hskip : forall st,
              ~ (length (Fields line) = 5
                 /\ nth 1 (Fields line) EmptyString = "RUNNING") ->
              ((exists reason, processStatusLoop rest st = Panics reason) <->
               exists l, In l (line :: rest) /\
                 length (Fields l) = 5 /\
                 nth 1 (Fields l) EmptyString = "RUNNING")).
    { intros st Hnot. rewrite IH. split.
      - intros (l & Hin & Hl). exists l. split; [now right | exact Hl].
      - intros (l & [<-|Hin] & Hl); [now destruct Hnot|]. now exists l. }
    destruct (Nat.leb_spec 5 (length (Fields line))) as [Hlen|Hlen];
      [|apply Hskip; lia].
    destruct (String.eqb_spec (nth 1 (Fields line) EmptyString) "RUNNING")
      as [Hrun|Hrun]; [|apply Hskip; tauto].
    destruct (nth_error (Fields line) 5) as [uptime|] eqn:E.
    + apply Hskip. intros [H5 _].
      assert (nth_error (Fields line) 5 <> None) as Hsome by congruence.
      apply nth_error_Some in Hsome. lia.
    + apply nth_error_None in E. split.
      * intros _. exists line. split; [now left|]. split; [lia | exact Hrun].
      * intros _. now exists indexOutOfRange.
Qed.

Lemma processStatusLoop_returns (lines : list string)
    (statuses out : list ProcessStatus.t) :
  processStatusLoop lines statuses = Returns out ->
  exists added,
    out = statuses ++ added /\
    map ProcessStatus.Name added
    = map (fun l => hd EmptyString (Fields l))
        (List.filter (fun l => Nat.leb 5 (length (Fields l))) lines).
Proof.
  revert statuses. induction lines as [|line rest IH]; intros statuses.
  - intros [= <-]. exists []. now rewrite app_nil_r.
  - cbn [processStatusLoop List.filter].
    assert (Hname : nth 0 (Fields line) EmptyString
                    = hd EmptyString (Fields line))
      by now destruct (Fields line).
    destruct (Nat.leb 5 (length (Fields line))); [|apply IH].
    destruct (String.eqb (nth 1 (Fields line) EmptyString) "RUNNING").
    + destruct (nth_error (Fields line) 5) as [uptime|]; [|discriminate].
      intros H. apply IH in H as (added & -> & Hadded).
      eexists (_ :: added). rewrite <- app_assoc. split; [reflexivity|].
      cbn [map ProcessStatus.Name]. now rewrite Hadded, Hname.
    + intros H. apply IH in H as (added & -> & Hadded).
      eexists (_ :: added). rewrite <- app_assoc. split; [reflexivity|].
      cbn [map ProcessStatus.Name]. now rewrite Hadded, Hname.
Qed.

(** X21.  [getProcessStatus] panics (index out of range) exactly when some
    line of the output of [supervisorctl status] has five fields, the second
    being RUNNING: the code checks for five fields and reads the sixth.
    Otherwise it returns, having appended to the statuses of the
    configuration one entry for each line of five fields or more, in order,
    named by the first field; shorter lines are skipped. *)
Theorem getProcessStatus_short_line (supervisorctl : list string -> string)
    (config : SupervisorProcessConfig.t) :
  let lines :=
    SplitByte newline
      (supervisorctl
         ("status" ::
          getProcessName (SupervisorProcessConfig.Name config)
            (SupervisorProcessConfig.Numprocs config))) in
  ((exists reason, getProcessStatus supervisorctl config = Panics reason) <->
   exists line, In line lines /\ shortRunningLine line) /\
  (forall config',
     getProcessStatus supervisorctl config = Returns config' ->
     SupervisorProcessConfig.Name config' = SupervisorProcessConfig.Name config /\
     SupervisorProcessConfig.Numprocs config'
     = SupervisorProcessConfig.Numprocs config /\
     exists added,
       SupervisorProcessConfig.Status config'
       = SupervisorProcessConfig.Status config ++ added /\
       map ProcessStatus.Name added
       = map (fun l => hd EmptyString (Fields l))
           (List.filter (fun l => Nat.leb 5 (length (Fields l))) lines)).
Proof.
  intros lines. unfold getProcessStatus. cbn [app]. fold lines. split.
  - rewrite <- processStatusLoop_panics
      with (statuses := SupervisorProcessConfig.Status config).
    destruct (processStatusLoop lines (SupervisorProcessConfig.Status config))
      as [out|r].
    + split; intros [reason E]; discriminate E.
    + split; intros _; now exists r.
  - intros config'.
    destruct (processStatusLoop lines (SupervisorProcessConfig.Status config))
      as [out|r] eqn:E; [|discriminate].
    intros [= <-]. cbn. repeat split.
    now apply processStatusLoop_returns.
Qed.

Lemma short_status_line_panics :
  getProcessStatus (fun _ => shortStatus)
    {| SupervisorProcessConfig.Name := "web";
       SupervisorProcessConfig.Numprocs := "1";
       SupervisorProcessConfig.Status := [] |}
  = Panics indexOutOfRange.
Proof. vm_compute. reflexivity. Qed.

(** ** Roll-back *)

Lemma compare_not_Gt_trans (a b c : string) :
  String.compare a b <> Gt -> String.compare b c <> Gt ->
  String.compare a c <> Gt.
Proof.
  revert b c. induction a as [|x a IH]; intros [|y b] [|z c];
    cbn [String.compare]; try congruence.
  unfold Ascii.compare.
  destruct (N.compare_spec (N_of_ascii x) (N_of_ascii y)) as [Exy|Lxy|Gxy];
    destruct (N.compare_spec (N_of_ascii y) (N_of_ascii z)) as [Eyz|Lyz|Gyz];
    destruct (N.compare_spec (N_of_ascii x) (N_of_ascii z)) as [Exz|Lxz|Gxz];
    try congruence; try lia.
  apply IH.
Qed.

Lemma leb_refl (a : string) : String.leb a a = true.
Proof.
  unfold String.leb. pose proof (String.compare_antisym a a) as H.
  destruct (String.compare a a); try reflexivity. discriminate H.
Qed.

Lemma leb_not_Gt (a b : string) :
  String.leb a b = true <-> String.compare a b <> Gt.
Proof.
  unfold String.leb. destruct (String.compare a b); split; congruence.
Qed.

Lemma ltb_leb (a b : string) : String.ltb a b = true -> String.leb a b = true.
Proof. unfold String.ltb, String.leb. now destruct (String.compare a b). Qed.

Lemma ltb_false_leb (a b : string) :
  String.ltb a b = false -> String.leb b a = true.
Proof.
  unfold String.ltb, String.leb. rewrite (String.compare_antisym b a).
  now destruct (String.compare a b).
Qed.

Lemma leb_trans (a b c : string) :
  String.leb a b = true -> String.leb b c = true -> String.leb a c = true.
Proof. rewrite !leb_not_Gt. apply compare_not_Gt_trans. Qed.

Lemma sortDescending_head (folders : list string) :
  folders <> [] ->
  exists greatest rest,
    sortDescending folders = greatest :: rest /\
    In greatest folders /\
    forall d, In d folders -> String.leb d greatest = true.
Proof.
  induction folders as [|x folders IH]; [congruence|]. intros _.
  cbn [sortDescending fold_right]. fold (sortDescending folders).
  destruct folders as [|x' folders'].
  - exists x, []. split; [reflexivity|]. split; [now left|].
    intros d [<-|[]]. apply leb_refl.
  - destruct IH as (m & rest & -> & Hin & Hmax); [discriminate|].
    cbn [insertDescending]. destruct (String.ltb m x) eqn:Hlt.
    + exists x, (m :: rest). split; [reflexivity|]. split; [now left|].
      intros d [<-|Hd]; [apply leb_refl|].
      apply (leb_trans d m x); [now apply Hmax | now apply ltb_leb].
    + exists m, (insertDescending x rest). split; [reflexivity|].
      split; [now right|].
      intros d [<-|Hd]; [now apply ltb_false_leb | now apply Hmax].
Qed.

Lemma foldersOf_spec (files : list DirEntry.t) (folders : list string)
    (name : string) :
  In name (foldersOf files folders) <->
  In name folders \/
  exists file, In file files /\ DirEntry.IsDir file = true /\
               DirEntry.Name file = name.
Proof.
  revert folders. induction files as [|file rest IH]; intros folders.
  - cbn. split; [now left | intros [H|(f & [] & _)]; exact H].
  - cbn [foldersOf]. destruct (DirEntry.IsDir file) eqn:Hdir; rewrite IH.
    + rewrite in_app_iff. cbn [In]. split.
      * intros [[H|[<-|[]]]|(f & Hf & Hd & Hn)]; [now left| |].
        -- right. exists file. now repeat split; try left.
        -- right. exists f. now repeat split; try right.
      * intros [H|(f & [<-|Hf] & Hd & Hn)]; [now left; left| |].
        -- left. right. now left.
        -- right. now exists f.
    + split.
      * intros [H|(f & Hf & Hd & Hn)]; [now left|].
        right. exists f. now repeat split; try right.
      * intros [H|(f & [<-|Hf] & Hd & Hn)]; [now left|congruence|].
        right. now exists f.
Qed.

(** X22.  When the upgrade directory is there and can be read,
    [loadRestorePath] fails on no input: it answers with the name of a
    directory inside it that no other directory name exceeds (byte-wise), so
    entries that are not directories are never chosen; with no directory
    inside it answers with the "nothing to roll back" text. *)
Theorem loadRestorePath_greatest (stat : option error)
    (isNotExist : error -> bool) (files : list DirEntry.t) :
  match stat with Some e => isNotExist e | None => false end = false ->
  let result := loadRestorePath stat isNotExist (files, None) in
  snd result = None /\
  ((forall file, In file files -> DirEntry.IsDir file = false) ->
   fst result = noRestoreFile) /\
  ((exists file, In file files /\ DirEntry.IsDir file = true) ->
   (exists file,
      In file files /\ DirEntry.IsDir file = true /\
      DirEntry.Name file = fst result) /\
   forall file,
     In file files -> DirEntry.IsDir file = true ->
     String.leb (DirEntry.Name file) (fst result) = true).
Proof.
  intros Hstat result. subst result. unfold loadRestorePath. rewrite Hstat.
  pose proof (foldersOf_spec files []) as Hspec.
  destruct (foldersOf files []) as [|d folders] eqn:E; cbn [fst snd].
  - split; [reflexivity|]. split; [reflexivity|].
    intros (file & Hin & Hdir). exfalso.
    apply (proj2 (Hspec (DirEntry.Name file))). right. now exists file.
  - split; [reflexivity|].
    destruct (sortDescending_head (d :: folders)) as (m & rest & -> & Hm & Hmax);
      [discriminate|].
    cbn [hd]. split.
    + intros Hnone. exfalso.
      destruct (proj1 (Hspec d) (or_introl eq_refl)) as [[]|(f & Hf & Hd & _)].
      rewrite (Hnone f Hf) in Hd. discriminate Hd.
    + intros _. split.
      * destruct (proj1 (Hspec m) Hm) as [[]|(f & Hf & Hd & Hn)]. now exists f.
      * intros file Hin Hdir. apply Hmax. apply Hspec. right. now exists file.
Qed.

Lemma loadRestorePath_greatest_witness :
  fst (loadRestorePath None (fun _ => false) (twoUpgrades, None))
  = "upgrade_2024-11-20" /\
  String.leb "upgrade_2024-05-01"
    (fst (loadRestorePath None (fun _ => false) (twoUpgrades, None))) = true.
Proof.
  destruct (loadRestorePath_greatest None (fun _ => false) twoUpgrades eq_refl)
    as (_ & _ & Hgreatest).
  split; [reflexivity|].
  apply (proj2 (Hgreatest
                  (ex_intro _ {| DirEntry.Name := "upgrade_2024-05-01";
                                 DirEntry.IsDir := true |}
                     (conj (or_introl eq_refl) eq_refl)))
           {| DirEntry.Name := "upgrade_2024-05-01"; DirEntry.IsDir := true |});
    [now left | reflexivity].
Defined.

(** ** Enumeration under OpenRC and SysV *)

Lemma TrimLeft_keeps (c : ascii) (rest before : string) :
  isSpace c = false ->
  exists before', TrimLeft (before +:+ String c rest) = before' +:+ String c rest.
Proof.
  intros Hc. induction before as [|x before IH].
  - exists EmptyString. change (EmptyString +:+ String c rest) with (String c rest).
    cbn [TrimLeft]. now rewrite Hc.
  - rewrite append_cons. cbn [TrimLeft]. destruct (isSpace x); [exact IH|].
    exists (String x before). now rewrite append_cons.
Qed.

Lemma TrimRight_cons (x : ascii) (s : string) :
  TrimRight s <> EmptyString -> TrimRight (String x s) = String x (TrimRight s).
Proof. cbn [TrimRight]. now destruct (TrimRight s). Qed.

Lemma TrimRight_keeps (kw after : string) (l : ascii) :
  lastByte kw = Some l -> isSpace l = false ->
  exists after', TrimRight (kw +:+ after) = kw +:+ after'.
Proof.
  intros Hl Hs. induction kw as [|x kw IH]; [discriminate|].
  rewrite append_cons. destruct kw as [|y kw].
  - injection Hl as ->.
    change (EmptyString +:+ after) with after. cbn [TrimRight].
    destruct (TrimRight after) as [|z t] eqn:E.
    + rewrite Hs. now exists EmptyString.
    + exists (String z t). now rewrite append_cons.
  - destruct (IH Hl) as [after' E].
    rewrite TrimRight_cons; rewrite E; [|rewrite append_cons; discriminate].
    exists after'. now rewrite append_cons.
Qed.

Lemma TrimRight_append (s t : string) :
  TrimRight t <> EmptyString -> TrimRight (s +:+ t) = s +:+ TrimRight t.
Proof.
  intros Ht. induction s as [|x s IH]; [reflexivity|].
  rewrite !append_cons, TrimRight_cons; rewrite IH; [reflexivity|].
  destruct s; [exact Ht | rewrite append_cons; discriminate].
Qed.

Lemma Contains_TrimSpace (line keyword : string) :
  trimmed keyword = true -> Contains line keyword = true ->
  Contains (TrimSpace line) keyword = true.
Proof.
  unfold trimmed. destruct keyword as [|c k]; [discriminate|].
  destruct (lastByte (String c k)) as [l|] eqn:Hl; [|discriminate].
  intros H. apply andb_true_iff in H as [Hc Hs].
  apply negb_true_iff in Hc. apply negb_true_iff in Hs.
  rewrite !Contains_spec. intros (before & after & ->).
  unfold TrimSpace.
  assert (E : String c k +:+ after = String c (k +:+ after))
    by apply append_cons.
  rewrite E.
  destruct (TrimLeft_keeps c (k +:+ after) before Hc) as [before' ->].
  rewrite <- E.
  destruct (TrimRight_keeps (String c k) after l Hl Hs) as [after' Hr].
  rewrite TrimRight_append; rewrite Hr; [|rewrite append_cons; discriminate].
  now exists before', after'.
Qed.

Lemma openrcCollect_map (lines : list string) (keyword : string)
    (services : list string) :
  openrcCollect lines keyword services
  = services ++
    map TrimSpace (List.filter (fun line => Contains line keyword) lines).
Proof.
  revert services. induction lines as [|line rest IH]; intros services.
  - cbn. now rewrite app_nil_r.
  - cbn [openrcCollect List.filter].
    destruct (Contains line keyword); rewrite IH; [|reflexivity].
    now rewrite <- app_assoc.
Qed.

Lemma sysvinitCollect_filter (files : list string) (keyword : string)
    (services : list string) :
  sysvinitCollect files keyword services
  = services ++ List.filter (fun file => Contains file keyword) files.
Proof.
  revert services. induction files as [|file rest IH]; intros services.
  - cbn. now rewrite app_nil_r.
  - cbn [sysvinitCollect List.filter].
    destruct (Contains file keyword); rewrite IH; [|reflexivity].
    now rewrite <- app_assoc.
Qed.

Lemma SplitByte_final (stem : string) :
  exists first front,
    SplitByte newline (stem +:+ String newline EmptyString)
    = first :: front ++ [EmptyString].
Proof.
  induction stem as [|c stem (first & front & IH)].
  - exists EmptyString, []. reflexivity.
  - rewrite append_cons. cbn [SplitByte]. rewrite IH.
    destruct (Ascii.eqb c newline).
    + now exists EmptyString, (first :: front).
    + now exists (String c first), front.
Qed.

(** X23.  Under SysV the enumeration returns the entries of /etc/init.d
    whose name contains the keyword, in the order of the directory.  Under
    OpenRC, on an ASCII listing, it returns the lines that contain the
    keyword, trimmed, in order: each still contains the keyword when the
    keyword is not empty and has no white space at its ends.  With the
    empty keyword every line is returned, so the blank line after a final
    line feed gives the empty name.  A failed listing gives no name. *)
Theorem FindServices_contain (run : list string -> string * option error)
    (readDir : string -> list string * option error)
    (b : Managers.baseManager) (keyword : string) :
  (snd (readDir "/etc/init.d/") = None ->
   sysvinitFindServices readDir keyword
   = (List.filter (fun file => Contains file keyword)
        (fst (readDir "/etc/init.d/")), None)) /\
  (snd (run [Managers.cmdTool b; "-l"]) = None ->
   isASCII (fst (run [Managers.cmdTool b; "-l"])) = true ->
   openrcFindServices run b keyword
   = (map TrimSpace
        (List.filter (fun line => Contains line keyword)
           (SplitByte newline (fst (run [Managers.cmdTool b; "-l"])))),
      None)) /\
  (trimmed keyword = true ->
   isASCII (fst (run [Managers.cmdTool b; "-l"])) = true ->
   forall n,
     In n (fst (openrcFindServices run b keyword)) ->
     Contains n keyword = true /\ n <> EmptyString) /\
  (keyword = EmptyString ->
   forall stem,
     run [Managers.cmdTool b; "-l"]
     = (stem +:+ String newline EmptyString, None) ->
     In EmptyString (fst (openrcFindServices run b keyword))) /\
  (snd (readDir "/etc/init.d/") <> None ->
   fst (sysvinitFindServices readDir keyword) = []) /\
  (snd (run [Managers.cmdTool b; "-l"]) <> None ->
   fst (openrcFindServices run b keyword) = []).
Proof.
  assert (Hsysv : forall files e,
            readDir "/etc/init.d/" = (files, e) ->
            sysvinitFindServices readDir keyword
            = match e with
              | Some e =>
                  ([], Some (Wrapf "failed to read init.d directory: %w" []
                               (Plain e)))
              | None =>
                  (List.filter (fun file => Contains file keyword) files, None)
              end).
  { intros files e E. unfold sysvinitFindServices. rewrite E.
    destruct e; [reflexivity|]. now rewrite sysvinitCollect_filter. }
  assert (Hrc : forall out e,
            run [Managers.cmdTool b; "-l"] = (out, e) ->
            openrcFindServices run b keyword
            = match e with
              | Some e =>
                  ([], Some (Wrapf "failed to list openrc services: %w" []
                               (Plain e)))
              | None =>
                  (map TrimSpace
                     (List.filter (fun line => Contains line keyword)
                        (SplitByte newline out)), None)
              end).
  { intros out e E. unfold openrcFindServices. rewrite E.
    destruct e; [reflexivity|]. now rewrite openrcCollect_map. }
  destruct (readDir "/etc/init.d/") as [files e1] eqn:E1.
  destruct (run [Managers.cmdTool b; "-l"]) as [out e2] eqn:E2.
  rewrite (Hsysv files e1 eq_refl), (Hrc out e2 eq_refl). cbn [fst snd].
  split; [now intros ->|]. split; [now intros -> _|]. split.
  { intros Ht _ n Hn. destruct e2 as [e2|]; [destruct Hn|]. cbn [fst] in Hn.
    apply in_map_iff in Hn as (line & <- & Hl).
    apply filter_In in Hl as [_ Hc].
    pose proof (Contains_TrimSpace line keyword Ht Hc) as Hk.
    split; [exact Hk|]. apply (Contains_not_empty _ keyword Hk).
    intros ->. discriminate Ht. }
  split.
  { intros -> stem [= -> ->]. cbn [fst]. apply in_map_iff.
    exists EmptyString. split; [reflexivity|]. apply filter_In.
    split; [|reflexivity].
    destruct (SplitByte_final stem) as (first & front & ->).
    right. apply in_or_app. right. now left. }
  split; destruct e1, e2; cbn [fst]; congruence.
Qed.

(** ** Reloading the manager *)

Local Open Scope Z_scope.

(** X24.  A reload that finds no usable manager discards the one in use:
    [ReinitializeManager] returns the error with the global manager nil,
    whatever it was.  [GetGlobalManager], which hands out a manager it holds
    at once and without looking at the host, then has to initialise again,
    and panics when no manager is usable at any of the five attempts. *)
Theorem ReinitializeManager_failure (lookPath : string -> bool) (root : bool)
    (managers : gmap string registered) (managerPriority : list string)
    (working : registered) :
  firstUsable lookPath root managers managerPriority = None ->
  ReinitializeManager lookPath root managers managerPriority (Some working)
  = (None,
     Some (Errorf "no available service manager found (tried: %v)"
             managerPriority)) /\
  forall lookPathAt clock,
    GetGlobalManager lookPathAt root managers managerPriority (Some working)
      clock
    = Returns (Some working, clock) /\
    ((forall off,
        In off [0; 1; 3; 7; 15] ->
        firstUsable (lookPathAt (clock + off * Second)) root managers
          managerPriority = None) ->
     GetGlobalManager lookPathAt root managers managerPriority
       (fst (ReinitializeManager lookPath root managers managerPriority
               (Some working)))
       clock
     = Panics "unable to initialize service manager").
Proof.
  intros Hnone.
  assert (E : ReinitializeManager lookPath root managers managerPriority
                (Some working)
              = (None,
                 Some (Errorf "no available service manager found (tried: %v)"
                         managerPriority))).
  { unfold ReinitializeManager, InitializeGlobalManager. now rewrite Hnone. }
  split; [exact E|]. intros lookPathAt clock. split; [reflexivity|].
  intros Hoff. rewrite E. cbn [fst GetGlobalManager].
  rewrite retryLoop_unrolled.
  rewrite (Hoff 0), (Hoff 1), (Hoff 3), (Hoff 7), (Hoff 15);
    cbn [In]; tauto.
Qed.

Lemma ReinitializeManager_failure_witness :
  fst (ReinitializeManager (fun _ => false) true
         (initialManagers (fun _ => false, fun _ => false)
            (fun _ => false, fun _ => false) (fun _ => false, fun _ => false))
         defaultPriority
         (Some {| kind := SystemdKind; base := systemd |}))
  = None.
Proof.
  rewrite (proj1 (ReinitializeManager_failure (fun _ => false) true
                    (initialManagers (fun _ => false, fun _ => false)
                       (fun _ => false, fun _ => false)
                       (fun _ => false, fun _ => false))
                    defaultPriority
                    {| kind := SystemdKind; base := systemd |} eq_refl)).
  reflexivity.
Defined.

(** ** The candidate race under a schedule *)

Local Open Scope Z_scope.

Lemma goroutine_candidate (h : Host) (clock : Z)
    (cache : gmap string cacheItem) (cand : string) :
  candidateOf (goroutine h clock cache cand) = cand.
Proof.
  unfold goroutine.
  now destruct (confirmServiceExists h cand (raceState clock cache))
    as [[confirmed e] s].
Qed.

(** The [select] always has a case to take: the model never blocks. *)
Lemma readyCases_not_empty (sched : Schedule) (clock : Z)
    (gs : list Goroutine) :
  snd (readyCases sched clock gs) <> [].
Proof.
  unfold readyCases.
  set (timerAt := clock + 1000 * Millisecond).
  set (waitAt := waitReturns clock gs).
  set (arrive := clock + Z.of_N (arrival sched)).
  destruct (firstSend gs) as [t|].
  - destruct (Z.ltb_spec arrive (Z.min t timerAt)); cbn [snd].
    + destruct (Z.leb_spec t timerAt); [discriminate|].
      destruct (Z.leb_spec timerAt t); [discriminate | lia].
    + destruct (Z.leb_spec t arrive); [discriminate|].
      destruct (Z.leb_spec timerAt arrive); [discriminate | lia].
  - destruct (Z.ltb_spec arrive (Z.min waitAt timerAt)); cbn [snd].
    + destruct (Z.leb_spec timerAt waitAt); [discriminate|].
      destruct (Z.leb_spec waitAt timerAt); [discriminate | lia].
    + destruct (Z.leb_spec waitAt arrive); [discriminate|].
      destruct (Z.leb_spec timerAt arrive); [discriminate | lia].
Qed.

Lemma runRace_takes_a_case (h : Host) (sched : Schedule)
    (candidates : list string) (clock : Z) (cache : gmap string cacheItem) :
  runRace h sched candidates clock cache
  <> Panics "select: no case is ready".
Proof.
  unfold runRace.
  pose proof (readyCases_not_empty sched clock
                (map (goroutine h clock cache) candidates)) as Hne.
  destruct (readyCases sched clock (map (goroutine h clock cache) candidates))
    as [returnAt ready]. cbn [snd] in Hne.
  destruct (nth_error ready (pick sched mod length ready)) as [c|] eqn:E.
  - destruct c as [name| |[e|]]; try discriminate.
    destruct candidates; discriminate.
  - apply nth_error_None in E.
    assert (pick sched mod length ready < length ready)%nat; [|lia].
    apply Nat.mod_upper_bound. now destruct ready.
Qed.

Lemma fold_min_const (f t : Z) (ts : list Z) :
  t = f -> (forall x, In x ts -> x = f) -> fold_right Z.min t ts = f.
Proof.
  intros -> H. induction ts as [|x ts IH]; [reflexivity|].
  cbn [fold_right]. rewrite IH by (intros y Hy; apply H; now right).
  rewrite (H x) by now left. apply Z.min_id.
Qed.

Lemma nth_mod_const (b : string) (k : nat) (l : list string) :
  l <> [] -> (forall x, In x l -> x = b) ->
  nth (k mod length l) l EmptyString = b.
Proof.
  intros Hne H. apply H. apply nth_In.
  apply Nat.mod_upper_bound. now destruct l.
Qed.

(** With one candidate that exists, the name a receive on [found] gives is
    that candidate, sent when its probe has answered. *)
Lemma onlyExisting_sent (h : Host) (sched : Schedule)
    (candidates : list string) (b : string) (s : State) :
  onlyExisting h candidates b s ->
  firstSend (map (goroutine h (now s) (serviceExistenceCache s)) candidates)
  = Some (answersAt h b s) /\
  sent sched (map (goroutine h (now s) (serviceExistenceCache s)) candidates)
  = b.
Proof.
  intros [Hb Hothers].
  set (gs := map (goroutine h (now s) (serviceExistenceCache s)) candidates).
  assert (Hs : forall g, In g (senders gs) ->
                 candidateOf g = b /\ doneAt g = answersAt h b s).
  { intros g Hg. apply filter_In in Hg as [Hg Hc].
    apply in_map_iff in Hg as (c & <- & Hin).
    rewrite (Hothers c Hin) in Hc. apply String.eqb_eq in Hc. subst c.
    split; [apply goroutine_candidate | reflexivity]. }
  assert (Hin : In (goroutine h (now s) (serviceExistenceCache s) b)
                  (senders gs)).
  { apply filter_In. split; [now apply in_map|].
    rewrite (Hothers b Hb). apply String.eqb_refl. }
  assert (Hfirst : firstSend gs = Some (answersAt h b s)).
  { unfold firstSend. destruct (senders gs) as [|g rest] eqn:E;
      [destruct Hin|]. cbn [map]. f_equal. apply fold_min_const.
    - apply Hs. now left.
    - intros x Hx. apply in_map_iff in Hx as (g' & <- & Hg').
      apply Hs. now right. }
  split; [exact Hfirst|].
  unfold sent. rewrite Hfirst. apply nth_mod_const.
  - intros E. apply map_eq_nil in E.
    assert (Hkeep : In (goroutine h (now s) (serviceExistenceCache s) b)
                      (List.filter (fun g => doneAt g =? answersAt h b s)
                         (senders gs))).
    { apply filter_In. split; [exact Hin|]. apply Z.eqb_refl. }
    rewrite E in Hkeep. destruct Hkeep.
  - intros x Hx. apply in_map_iff in Hx as (g & <- & Hg).
    apply filter_In in Hg as [Hg _]. now apply Hs.
Qed.

(** C4, as amended.  When exactly one candidate exists, its probe answers
    before the timer of 1000 ms, and the caller reaches its [select] before
    the timer fires and before the last probe has answered, the candidate
    race returns that candidate and no error, for every order of the list
    and every choice the scheduler is left with. *)
Theorem validateCandidates_finds_the_one (h : Host) (sched : Schedule)
    (candidates : list string) (b : string) (s : State) :
  runsUnder h sched candidates s ->
  onlyExisting h candidates b s ->
  answersAt h b s < now s + 1000 * Millisecond ->
  now s + Z.of_N (arrival sched) < now s + 1000 * Millisecond ->
  now s + Z.of_N (arrival sched) < lastAnswer h candidates s ->
  fst (validateCandidatesConcurrently h candidates s) = (b, None).
Proof.
  intros Hrun Hone Hanswer Harrive Hlast.
  destruct (onlyExisting_sent h sched candidates b s Hone) as [Hfirst Hsent].
  unfold validateCandidatesConcurrently. cbn [fst].
  unfold runsUnder, runRace in Hrun. unfold lastAnswer in Hlast.
  set (gs := map (goroutine h (now s) (serviceExistenceCache s)) candidates)
    in *.
  assert (Hready : exists returnAt,
            readyCases sched (now s) gs = (returnAt, [FoundCase b])).
  { unfold readyCases. rewrite Hfirst, Hsent.
    destruct (Z.ltb_spec (now s + Z.of_N (arrival sched))
                (Z.min (answersAt h b s) (now s + 1000 * Millisecond))).
    - eexists. f_equal.
      destruct (Z.leb_spec (answersAt h b s) (now s + 1000 * Millisecond));
        [|lia].
      destruct (Z.leb_spec (now s + 1000 * Millisecond) (answersAt h b s));
        [lia | reflexivity].
    - eexists. f_equal.
      destruct (Z.leb_spec (answersAt h b s)
                  (now s + Z.of_N (arrival sched))); [|lia].
      destruct (Z.leb_spec (now s + 1000 * Millisecond)
                  (now s + Z.of_N (arrival sched))); [lia|].
      destruct (Z.leb_spec (waitReturns (now s) gs)
                  (now s + Z.of_N (arrival sched))); [lia | reflexivity]. }
  destruct Hready as [returnAt Hready]. rewrite Hready in Hrun.
  cbn [length] in Hrun. rewrite Nat.mod_1_r in Hrun. cbn [nth_error] in Hrun.
  injection Hrun as Hrun. now rewrite <- Hrun.
Qed.

Lemma validateCandidates_finds_the_one_witness :
  runsUnder promptHost promptCaller ["httpd"; "nginx"] (processStart 0 ∅) /\
  onlyExisting promptHost ["httpd"; "nginx"] "nginx" (processStart 0 ∅) /\
  fst (validateCandidatesConcurrently promptHost ["httpd"; "nginx"]
         (processStart 0 ∅)) = ("nginx", None) /\
  fst (validateCandidatesConcurrently promptHost ["nginx"; "httpd"]
         (processStart 0 ∅)) = ("nginx", None).
Proof.
  assert (Hrun : runsUnder promptHost promptCaller ["httpd"; "nginx"]
                   (processStart 0 ∅)) by (vm_compute; reflexivity).
  assert (Hone : onlyExisting promptHost ["httpd"; "nginx"] "nginx"
                   (processStart 0 ∅)).
  { split; [right; now left|].
    intros c [<-|[<-|[]]]; vm_compute; reflexivity. }
  split; [exact Hrun|]. split; [exact Hone|]. split.
  - apply (validateCandidates_finds_the_one promptHost promptCaller
             ["httpd"; "nginx"] "nginx" (processStart 0 ∅) Hrun Hone);
      vm_compute; reflexivity.
  - apply (validateCandidates_finds_the_one promptHost promptCaller
             ["nginx"; "httpd"] "nginx" (processStart 0 ∅));
      try (vm_compute; reflexivity).
    split; [now left|].
    intros c [<-|[<-|[]]]; vm_compute; reflexivity.
Defined.

(** C4 as worded fails.  Only "nginx" exists, but its probe takes two
    seconds: the timer of 1000 ms fires first and the race returns the
    time-out error, naming the first candidate. *)
Lemma race_as_worded_fails :
  runsUnder slowHost promptCaller ["httpd"; "nginx"] (processStart 0 ∅) /\
  onlyExisting slowHost ["httpd"; "nginx"] "nginx" (processStart 0 ∅) /\
  fst (validateCandidatesConcurrently slowHost ["httpd"; "nginx"]
         (processStart 0 ∅))
  = (EmptyString, Some (ErrDiscoveryTimeout "httpd")).
Proof.
  split; [vm_compute; reflexivity|]. split; [|vm_compute; reflexivity].
  split; [right; now left|].
  intros c [<-|[<-|[]]]; vm_compute; reflexivity.
Qed.

(** The part of the failure that is a slip.  Both answers are in the cache,
    so both goroutines are done when the caller reaches its [select]:
    [found] holds "nginx" and [resultErr] holds the error of the candidate
    that does not exist.  Both cases are ready, and when the [select] takes
    the second the race reports that no service was found. *)
Lemma race_ready_together :
  runsUnder lateHost lateCaller ["httpd"; "nginx"] bothCached /\
  onlyExisting lateHost ["httpd"; "nginx"] "nginx" bothCached /\
  snd (readyCases lateCaller (now bothCached)
         (map (goroutine lateHost (now bothCached)
                 (serviceExistenceCache bothCached)) ["httpd"; "nginx"]))
  = [FoundCase "nginx"; ResultErrCase (Some ErrServiceNotFound)] /\
  fst (validateCandidatesConcurrently lateHost ["httpd"; "nginx"] bothCached)
  = (EmptyString, Some ErrServiceNotFound).
Proof.
  split; [vm_compute; reflexivity|]. split.
  - split; [right; now left|].
    intros c [<-|[<-|[]]]; vm_compute; reflexivity.
  - split; vm_compute; reflexivity.
Qed.

Local Close Scope Z_scope.

(** ** Hosts that run the race as the source does *)

Local Open Scope Z_scope.

Lemma runRace_panics (h : Host) (sched : Schedule) (candidates : list string)
    (clock : Z) (cache : gmap string cacheItem) (reason : string) :
  runRace h sched candidates clock cache = Panics reason -> candidates = [].
Proof.
  intros E. pose proof (runRace_takes_a_case h sched candidates clock cache) as Hn.
  rewrite E in Hn. revert E. unfold runRace.
  destruct (readyCases sched clock (map (goroutine h clock cache) candidates))
    as [returnAt ready].
  destruct (nth_error ready (pick sched mod length ready)) as [c|].
  - destruct c as [name| |[e|]]; try discriminate.
    now destruct candidates.
  - intros [= <-]. now destruct Hn.
Qed.

(** A host built by [withSchedule] runs every race of a list that is not
    empty under its schedule. *)
Lemma withSchedule_runsUnder (h : Host) (sched : Schedule)
    (candidates : list string) (s : State) :
  candidates <> [] -> runsUnder (withSchedule h sched) sched candidates s.
Proof.
  intros Hne. unfold runsUnder. cbn [race withSchedule].
  change (runRace (withSchedule h sched) sched candidates (now s)
            (serviceExistenceCache s))
    with (runRace h sched candidates (now s) (serviceExistenceCache s)).
  destruct (runRace h sched candidates (now s) (serviceExistenceCache s))
    as [run|reason] eqn:E; [reflexivity|].
  now apply runRace_panics in E.
Qed.

Lemma readyCases_after (sched : Schedule) (clock : Z) (gs : list Goroutine) :
  clock <= fst (readyCases sched clock gs).
Proof.
  unfold readyCases.
  destruct (Z.ltb_spec (clock + Z.of_N (arrival sched))
              (Z.min
                 match firstSend gs with
                 | Some t => t
                 | None => waitReturns clock gs
                 end (clock + 1000 * Millisecond))); cbn [fst]; lia.
Qed.

Lemma stored_coherent (h : Host) (clock : Z) (gs : list Goroutine)
    (cache : gmap string cacheItem) :
  coherent h clock cache ->
  (forall g item,
     In g gs ->
     serviceExistenceCache (leaves g) !! candidateOf g = Some item ->
     clock < expires item -> exists_ item = existsOnHost h (candidateOf g)) ->
  coherent h clock (stored gs cache).
Proof.
  unfold stored. revert cache.
  induction gs as [|g gs IH]; intros cache Hc Hg; [exact Hc|].
  cbn [fold_left]. apply IH; [|intros g' item Hin; apply Hg; now right].
  destruct (serviceExistenceCache (leaves g) !! candidateOf g) as [item|] eqn:E;
    [|exact Hc].
  intros n it. rewrite lookup_insert. case_decide as Hn.
  - intros [= <-] Hfresh. subst n. apply (Hg g item); [now left | exact E | exact Hfresh].
  - apply Hc.
Qed.

(** What the goroutines of [runRace] store is what the host answered: a
    host that runs its races under a schedule satisfies [honestRace]. *)
Lemma withSchedule_honest (h : Host) (sched : Schedule) :
  honestRace h -> honestRace (withSchedule h sched).
Proof.
  intros Hh candidates clock cache Hc.
  change (coherent h clock cache) in Hc.
  change (coherent h
            (clock + Z.of_N (raceElapsed
                               (race (withSchedule h sched) candidates clock
                                  cache)))
            (raceCache (race (withSchedule h sched) candidates clock cache))).
  cbn [race withSchedule].
  destruct (runRace h sched candidates clock cache) as [run|reason] eqn:E;
    [|now apply Hh].
  revert E. unfold runRace.
  pose proof (readyCases_after sched clock
                (map (goroutine h clock cache) candidates)) as Hafter.
  destruct (readyCases sched clock (map (goroutine h clock cache) candidates))
    as [returnAt ready]. cbn [fst] in Hafter.
  assert (Hstored :
            coherent h (clock + Z.of_N (Z.to_N (returnAt - clock)))
              (stored
                 (List.filter (fun g => doneAt g <=? returnAt)
                    (map (goroutine h clock cache) candidates)) cache)).
  { rewrite Z2N.id by lia. replace (clock + (returnAt - clock)) with returnAt by lia.
    apply stored_coherent; [now apply (coherent_later h clock)|].
    intros g item Hg Hitem Hfresh.
    apply filter_In in Hg as [Hg Hdone]. apply Z.leb_le in Hdone.
    apply in_map_iff in Hg as (c & <- & _).
    rewrite goroutine_candidate in *. unfold doneAt, goroutine in *.
    destruct (confirmServiceExists_coherent h c (raceState clock cache) Hc)
      as [_ Hcoh].
    destruct (confirmServiceExists h c (raceState clock cache))
      as [[confirmed e] s1]. cbn [leaves snd] in *.
    apply (Hcoh c item Hitem). lia. }
  destruct (nth_error ready (pick sched mod length ready)) as [c|];
    [|discriminate].
  destruct c as [name| |[e|]]; try (intros [= <-]; exact Hstored).
  destruct candidates; [discriminate|]. intros [= <-]. exact Hstored.
Qed.

Local Close Scope Z_scope.
